(** * kMeanswImage: RGB k-means segmentation and the plot camera

    A shallow embedding of [script.js].  JavaScript numbers are IEEE
    doubles.  The clustering and imaging code only adds, subtracts,
    multiplies, divides, compares and rounds; it is embedded three times:
    - over any arithmetic ([Core], on a record [arith] of operations), with
      two instances: [binary64], the doubles of JavaScript as the
      primitive floats of Rocq, with the stores into the [Float32Array]
      and the [Uint8ClampedArray], and [exact], the rationals, where
      nothing is rounded.  What is proved there holds of the code as it
      runs, and every definition evaluates;
    - over the rationals [Q] directly ([Cluster], [Segment], [Pipeline]),
      for the properties of the mathematics of the algorithm: which runs
      return, the cost that never increases, the fixed points.  This is
      the code over [exact] on other data ([kmeans_run_agrees]).

    The camera and gesture code calls [Math.hypot], [Math.cos] and
    [Math.sin]; it is embedded over the real numbers [R] ([Camera]), and
    its two updates of the zoom once more in binary64 ([Zoom64]).

    [Math.random] is the list of the values that its successive calls return.
    A JavaScript exception is the outcome [Throw]; a [while] loop that still
    wants a random value after the list is exhausted is the outcome
    [Starved]. *)

From Stdlib Require Import ZArith QArith Qround Qabs Reals Psatz.
From Stdlib Require PrimFloat FloatOps SpecFloat FloatAxioms Uint63.
From stdpp Require Import base option list gmap.

Set Default Proof Using "Type".
Set Warnings "-clear-no-such-hyp".

(** ** Outcomes of a call *)

Inductive js_error : Set := TypeError | IndexSizeError.

Inductive outcome (A : Type) : Type :=
| Ret (a : A)
| Throw (e : js_error)
| Starved.
Arguments Ret {A} a.
Arguments Throw {A} e.
Arguments Starved {A}.

Definition obind {A B} (m : outcome A) (f : A -> outcome B) : outcome B :=
  match m with
  | Ret a => f a
  | Throw e => Throw e
  | Starved => Starved
  end.

Notation "'run!' x := m 'in' k" := (obind m (fun x => k))
  (at level 10, x pattern, m at level 100, k at level 200).

Module Cluster.

Local Open Scope Q_scope.

(** A colour point is the array [[r,g,b]]. *)
Record rgb : Set := RGB { ch0 : Q; ch1 : Q; ch2 : Q }.

Definition zero3 : rgb := RGB 0 0 0.

(** [function dist2(a,b)] *)
Definition dist2 (a b : rgb) : Q :=
  let dx := ch0 a - ch0 b in
  let dy := ch1 a - ch1 b in
  let dz := ch2 a - ch2 b in
  dx * dx + dy * dy + dz * dz.

(** [d<bestd] *)
Definition Qltb (a b : Q) : bool :=
  match a ?= b with Lt => true | _ => false end.

(** [const rng = ()=>Math.floor(Math.random()*n)], on the value [u] that
    [Math.random()] returned. *)
Definition rng (n : nat) (u : Q) : Z := Qfloor (u * inject_Z (Z.of_nat n)).

(** [X[i]] for a number [i]: [undefined] outside [0 .. length-1]. *)
Definition index {A} (l : list A) (i : Z) : option A :=
  if (i <? 0)%Z then None else l !! Z.to_nat i.

(** The initialisation loop
    [while(C.length<k){ const i=rng(); if(used.has(i)) continue;
                        used.add(i); C.push(X[i].slice()); }]
    [X[i].slice()] throws a [TypeError] when [X[i]] is [undefined]. *)
Fixpoint init (X : list rgb) (k : nat) (draws : list Q)
    (used : gset Z) (C : list rgb) : outcome (list rgb) :=
  if decide (length C < k)%nat then
    match draws with
    | [] => Starved
    | u :: rest =>
        let i := rng (length X) u in
        if decide (i ∈ used) then init X k rest used C
        else match index X i with
             | None => Throw TypeError
             | Some x => init X k rest ({[ i ]} ∪ used) (C ++ [x])
             end
    end
  else Ret C.

(** The inner loop of the assignment,
    [for(let j=1;j<k;j++){ const d=dist2(x,C[j]); if(d<bestd){ bestd=d; best=j; } }],
    with [steps] iterations left. *)
Fixpoint scan (x : rgb) (C : list rgb) (steps j best : nat) (bestd : Q)
    : outcome nat :=
  match steps with
  | O => Ret best
  | S s =>
      match C !! j with
      | None => Throw TypeError
      | Some c =>
          let d := dist2 x c in
          if Qltb d bestd then scan x C s (S j) j d
          else scan x C s (S j) best bestd
      end
  end.

(** [let best=0, bestd=dist2(x, C[0]); for(j=1;j<k;j++) ...] *)
Definition nearest (x : rgb) (C : list rgb) (k : nat) : outcome nat :=
  match C !! 0%nat with
  | None => Throw TypeError
  | Some c0 => scan x C (k - 1) 1 0 (dist2 x c0)
  end.

(** The assignment loop over [i], on the points [xs] from index [i] on:
    [if(labels[i]!==best){ labels[i]=best; changed=true; }].
    [labels] is [new Array(n).fill(0)], so [i] is always one of its
    indices (a store past the end, which would grow a JavaScript array,
    does not occur). *)
Fixpoint assign (C : list rgb) (k : nat) (xs : list rgb) (i : nat)
    (labels : list nat) (changed : bool) : outcome (list nat * bool) :=
  match xs with
  | [] => Ret (labels, changed)
  | x :: xs' =>
      run! best := nearest x C k in
      if decide (labels !! i = Some best)
      then assign C k xs' (S i) labels changed
      else assign C k xs' (S i) (<[i := best]> labels) true
  end.

Definition add3 (s x : rgb) : rgb :=
  RGB (ch0 s + ch0 x) (ch1 s + ch1 x) (ch2 s + ch2 x).

Definition ofnat (n : nat) : Q := inject_Z (Z.of_nat n).

Definition div3 (s : rgb) (n : nat) : rgb :=
  RGB (ch0 s / ofnat n) (ch1 s / ofnat n) (ch2 s / ofnat n).

(** [for(i..){ const l=labels[i]; const x=X[i];
               sums[l][0]+=x[0]; ...; counts[l]++; }] *)
Fixpoint accumulate (xs : list rgb) (i : nat) (labels : list nat)
    (sums : list rgb) (counts : list nat) : outcome (list rgb * list nat) :=
  match xs with
  | [] => Ret (sums, counts)
  | x :: xs' =>
      match labels !! i with
      | None => Throw TypeError
      | Some l =>
          match sums !! l with
          | None => Throw TypeError
          | Some s =>
              accumulate xs' (S i) labels
                (<[l := add3 s x]> sums) (alter S l counts)
          end
      end
  end.

(** [for(let j=0;j<k;j++){ if(counts[j]===0) continue;
                           C[j][0]=sums[j][0]/counts[j]; ... }] *)
Fixpoint recompute (steps j : nat) (sums : list rgb) (counts : list nat)
    (C : list rgb) : outcome (list rgb) :=
  match steps with
  | O => Ret C
  | S s =>
      match counts !! j with
      | Some O => recompute s (S j) sums counts C
      | Some cnt =>
          match sums !! j, C !! j with
          | Some sm, Some _ =>
              recompute s (S j) sums counts (<[j := div3 sm cnt]> C)
          | _, _ => Throw TypeError
          end
      | None => Throw TypeError
      end
  end.

(** The update step: fresh [sums] and [counts], then the two loops. *)
Definition update (X : list rgb) (k : nat) (labels : list nat)
    (C : list rgb) : outcome (list rgb) :=
  run! (sums, counts) := accumulate X 0 labels (replicate k zero3) (replicate k 0%nat) in
  recompute k 0 sums counts C.

(** What the iteration loop holds when it exits: the centroids, the labels,
    and whether it left through [if(!changed) break]. *)
Record run : Set := Run { centroids : list rgb; labels : list nat; early : bool }.

(** [for(let iter=0; iter<opts.maxIter; iter++){ ... }] *)
Fixpoint lloyd (X : list rgb) (k : nat) (iters : nat)
    (C : list rgb) (lbl : list nat) : outcome run :=
  match iters with
  | O => Ret (Run C lbl false)
  | S m =>
      run! (lbl', changed) := assign C k X 0 lbl false in
      run! C' := update X k lbl' C in
      if changed then lloyd X k m C' lbl' else Ret (Run C' lbl' true)
  end.

(** [kmeans(X, k, {maxIter})] up to the loop's exit. *)
Definition kmeans_run (draws : list Q) (X : list rgb) (k maxIter : nat)
    : outcome run :=
  run! C := init X k draws ∅ [] in
  lloyd X k maxIter C (replicate (length X) 0%nat).

(** [function kmeans(X, k, opts)]: [return C]. *)
Definition kmeans (draws : list Q) (X : list rgb) (k maxIter : nat)
    : outcome (list rgb) :=
  run! r := kmeans_run draws X k maxIter in Ret (centroids r).

(** *** The words of the specification

    These definitions are not code: they say what "nearest centroid, ties to
    the lowest index" and "channel-wise arithmetic mean of the assigned
    points" mean, for the theorems to compare the code with. *)

(** Equality of colours, channel by channel, as rational numbers. *)
Definition eq3 (a b : rgb) : Prop :=
  ch0 a == ch0 b /\ ch1 a == ch1 b /\ ch2 a == ch2 b.

(** [b] is the index of a centroid at minimal squared distance from [x],
    and the lowest such index. *)
Definition closest (x : rgb) (C : list rgb) (b : nat) : Prop :=
  exists cb, C !! b = Some cb /\
    (forall j c, C !! j = Some c -> dist2 x cb <= dist2 x c) /\
    (forall j c, C !! j = Some c -> (j < b)%nat -> dist2 x cb < dist2 x c).

(** The points that carry label [j]. *)
Definition members (X : list rgb) (lbl : list nat) (j : nat) : list rgb :=
  (filter (fun xl => xl.2 = j) (zip X lbl)).*1.

Fixpoint sum3 (ps : list rgb) : rgb :=
  match ps with
  | [] => zero3
  | p :: ps' => add3 p (sum3 ps')
  end.

Definition mean3 (ps : list rgb) : rgb := div3 (sum3 ps) (length ps).

(** A value that [Math.random()] can return: at least 0, below 1. *)
Definition unit_draw (u : Q) : Prop := 0 <= u /\ u < 1.

(** The indices below [n], as a set. *)
Definition below (n : nat) : gset Z := list_to_set (seqZ 0 (Z.of_nat n)).

End Cluster.

Module Segment.

Import Cluster.
Local Open Scope Q_scope.

(** [imgData]: [{w,h,pixels: Float32Array of [r,g,b,...] in 0..1}] *)
Record ImgData : Set := { w : nat; h : nat; pixels : list Q }.

(** [Math.round]: the nearest integer, a half going up. *)
Definition Math_round (q : Q) : Z := Qfloor (q + (1 # 2)).

(** A store into [out.data], a [Uint8ClampedArray]: an integer is clamped
    to [0 .. 255]. *)
Definition clamp8 (z : Z) : Z := Z.max 0 (Z.min 255 z).

(** [out.data[oi+c] = Math.round(c[c]*255)] *)
Definition quantize (c : Q) : Z := clamp8 (Math_round (c * 255)).

(** [[pixels[i], pixels[i+1], pixels[i+2]]]; a read past the end of the
    typed array is [undefined]. *)
Definition read3 (pixels : list Q) (i : nat) : option rgb :=
  match pixels !! i, pixels !! (i + 1)%nat, pixels !! (i + 2)%nat with
  | Some r, Some g, Some b => Some (RGB r g b)
  | _, _, _ => None
  end.

(** [for(let i=a; i<b; i++) body], over the indices [idx]. *)
Fixpoint for_each {S : Type} (body : S -> nat -> outcome S) (idx : list nat)
    (s : S) : outcome S :=
  match idx with
  | [] => Ret s
  | i :: rest => run! s' := body s i in for_each body rest s'
  end.

(** *** The words of the specification *)

(** [z] is an integer of [0 .. 255] nearest to [q]. *)
Definition nearest_level (q : Q) (z : Z) : Prop :=
  (0 <= z <= 255)%Z /\
  forall t : Z, (0 <= t <= 255)%Z ->
    Qabs (q - inject_Z z) <= Qabs (q - inject_Z t).

End Segment.

Module Camera.

Local Open Scope R_scope.

(** [{x, y}]: a pointer position or a midpoint. *)
Record point2 : Type := P2 { x : R; y : R }.

(** The view state: [rotXVal], [rotYVal], [zoomVal], [panX], [panY]. *)
Record view : Type := View {
  rotXVal : R; rotYVal : R; zoomVal : R; panX : R; panY : R }.

(** The gesture state: the [Map] [pointers], in insertion order, and
    [lastPinchDist], [lastMid], [lastSingle] ([None] is [null]). *)
Record gesture : Type := Gesture {
  pointers : list (Z * point2);
  lastPinchDist : option R;
  lastMid : option point2;
  lastSingle : option point2 }.

Record state : Type := State { cam : view; ges : gesture }.

(** [let rotXVal = 25 * Math.PI/180, rotYVal = -30 * Math.PI/180,
    zoomVal = 1.2; let panX = 0, panY = 0;] and an empty [pointers]. *)
Definition initial : state :=
  State (View (25 * PI / 180) (-30 * PI / 180) (12 / 10) 0 0)
        (Gesture [] None None None).

(** [pointers.has(id)] *)
Definition has (m : list (Z * point2)) (id : Z) : bool :=
  existsb (fun kv => Z.eqb kv.1 id) m.

(** [pointers.set(id, p)]: an existing key keeps its place, a new key goes
    last. *)
Fixpoint set (m : list (Z * point2)) (id : Z) (p : point2) : list (Z * point2) :=
  match m with
  | [] => [(id, p)]
  | (k, v) :: m' => if Z.eqb k id then (k, p) :: m' else (k, v) :: set m' id p
  end.

(** [pointers.delete(id)] *)
Definition delete (m : list (Z * point2)) (id : Z) : list (Z * point2) :=
  filter (fun kv => kv.1 <> id) m.

(** [function distance(a,b)]: [Math.hypot(dx,dy)] *)
Definition distance (a b : point2) : R :=
  let dx := x a - x b in
  let dy := y a - y b in
  sqrt (dx * dx + dy * dy).

(** [function midpoint(a,b)] *)
Definition midpoint (a b : point2) : point2 :=
  P2 ((x a + x b) / 2) ((y a + y b) / 2).

Inductive event : Type :=
| PointerDown (pointerId : Z) (clientX clientY : R)
| PointerMove (pointerId : Z) (clientX clientY : R)
| PointerUp (pointerId : Z)
| PointerCancel (pointerId : Z)
| Wheel (deltaY : R).

(** The [pointerdown] listener. *)
Definition pointerdown (s : state) (id : Z) (cx cy : R) : state :=
  let g := ges s in
  let ps := set (pointers g) id (P2 cx cy) in
  match ps with
  | [_] => State (cam s) (Gesture ps (lastPinchDist g) (lastMid g) (Some (P2 cx cy)))
  | [(_, a); (_, b)] =>
      State (cam s) (Gesture ps (Some (distance a b)) (Some (midpoint a b)) (lastSingle g))
  | _ => State (cam s) (Gesture ps (lastPinchDist g) (lastMid g) (lastSingle g))
  end.

(** The branch [pointers.size===1] of the [pointermove] listener. *)
Definition rotate (v : view) (last : option point2) (p : point2) : view :=
  match last with
  | Some l =>
      let dx := x p - x l in
      let dy := y p - y l in
      View (rotXVal v + dy * (1 / 100)) (rotYVal v + dx * (1 / 100))
           (zoomVal v) (panX v) (panY v)
  | None => v
  end.

(** The branch [pointers.size===2] of the [pointermove] listener:
    [if(lastPinchDist!=null){ zoomVal *= dist / lastPinchDist; }
     if(lastMid!=null){ panX += mid.x - lastMid.x; panY += mid.y - lastMid.y; }] *)
Definition pinch (v : view) (g : gesture) (a b : point2) : view :=
  let dist := distance a b in
  let mid := midpoint a b in
  let zoom' :=
    match lastPinchDist g with
    | Some d => zoomVal v * (dist / d)
    | None => zoomVal v
    end in
  match lastMid g with
  | Some m =>
      View (rotXVal v) (rotYVal v) zoom'
           (panX v + (x mid - x m)) (panY v + (y mid - y m))
  | None => View (rotXVal v) (rotYVal v) zoom' (panX v) (panY v)
  end.

(** The [pointermove] listener. *)
Definition pointermove (s : state) (id : Z) (cx cy : R) : state :=
  let g := ges s in
  if has (pointers g) id then
    let ps := set (pointers g) id (P2 cx cy) in
    match ps with
    | [(_, p)] =>
        State (rotate (cam s) (lastSingle g) p)
              (Gesture ps (lastPinchDist g) (lastMid g) (Some (P2 (x p) (y p))))
    | [(_, a); (_, b)] =>
        State (pinch (cam s) g a b)
              (Gesture ps (Some (distance a b)) (Some (midpoint a b)) None)
    | _ => State (cam s) (Gesture ps (lastPinchDist g) (lastMid g) (lastSingle g))
    end
  else s.

(** The [pointerup] and [pointercancel] listeners. *)
Definition pointerup (s : state) (id : Z) : state :=
  State (cam s) (Gesture (delete (pointers (ges s)) id) None None None).

(** The [wheel] listener: [const delta = -e.deltaY; zoomVal *= (1 + delta*0.001);] *)
Definition wheel (s : state) (deltaY : R) : state :=
  let v := cam s in
  let delta := - deltaY in
  State (View (rotXVal v) (rotYVal v) (zoomVal v * (1 + delta * (1 / 1000)))
              (panX v) (panY v))
        (ges s).

Definition handle (s : state) (e : event) : state :=
  match e with
  | PointerDown id cx cy => pointerdown s id cx cy
  | PointerMove id cx cy => pointermove s id cx cy
  | PointerUp id => pointerup s id
  | PointerCancel id => pointerup s id
  | Wheel dy => wheel s dy
  end.

Definition handle_all (s : state) (evs : list event) : state :=
  fold_left handle evs s.

(** The value that [dist / lastPinchDist] divides by, when the listener of
    [e] evaluates that division in state [s]. *)
Definition pinch_divisor (s : state) (e : event) : option R :=
  match e with
  | PointerMove id cx cy =>
      if has (pointers (ges s)) id then
        match set (pointers (ges s)) id (P2 cx cy) with
        | [_; _] => lastPinchDist (ges s)
        | _ => None
        end
      else None
  | _ => None
  end.

(** *** The projection of [drawPlot] *)

Definition vec3 : Type := R * R * R.
Definition mat3 : Type := vec3 * vec3 * vec3.

(** [function rotationMatrixX(a)] *)
Definition rotationMatrixX (a : R) : mat3 :=
  let ca := cos a in
  let sa := sin a in
  ((1, 0, 0), (0, ca, - sa), (0, sa, ca)).

(** [function rotationMatrixY(a)] *)
Definition rotationMatrixY (a : R) : mat3 :=
  let ca := cos a in
  let sa := sin a in
  ((ca, 0, sa), (0, 1, 0), (- sa, 0, ca)).

(** [function mulMat(M, v)] *)
Definition mulMat (M : mat3) (v : vec3) : vec3 :=
  let '((m00, m01, m02), (m10, m11, m12), (m20, m21, m22)) := M in
  let '(v0, v1, v2) := v in
  (m00 * v0 + m01 * v1 + m02 * v2,
   m10 * v0 + m11 * v1 + m12 * v2,
   m20 * v0 + m21 * v1 + m22 * v2).

(** [plotCanvas.width], [plotCanvas.height] *)
Record canvas : Type := Canvas { width : R; height : R }.

(** The screen position [(sx, sy)] that [drawPlot] computes for a point. *)
Definition project (cv : canvas) (v : view) (p : vec3) : R * R :=
  let cx := width cv / 2 + panX v in
  let cy := height cv / 2 + panY v in
  let scale := Rmin (width cv) (height cv) / 2 * zoomVal v in
  let Rx := rotationMatrixX (rotXVal v) in
  let Ry := rotationMatrixY (rotYVal v) in
  let v1 := mulMat Rx p in
  let v2 := mulMat Ry v1 in
  (cx + v2.1.1 * scale, cy - v2.1.2 * scale).

(** *** The words of the specification *)

(** Rotation about the horizontal (first) axis by the angle [a]. *)
Definition rotate_horizontal (a : R) (p : vec3) : vec3 :=
  let '(px, py, pz) := p in
  (px, py * cos a - pz * sin a, py * sin a + pz * cos a).

(** Rotation about the vertical (second) axis by the angle [a]. *)
Definition rotate_vertical (a : R) (p : vec3) : vec3 :=
  let '(px, py, pz) := p in
  (px * cos a + pz * sin a, py, - px * sin a + pz * cos a).

(** When exactly two pointers are tracked, they are at distinct positions. *)
Definition apart (s : state) : Prop :=
  match pointers (ges s) with
  | [(_, a); (_, b)] => a <> b
  | _ => True
  end.

(** [apart] holds after every event of the sequence. *)
Fixpoint stays_apart (s : state) (evs : list event) : Prop :=
  match evs with
  | [] => True
  | e :: rest => apart (handle s e) /\ stays_apart (handle s e) rest
  end.

(** Every wheel event of the sequence has [deltaY < 1000]. *)
Definition gentle (e : event) : Prop :=
  match e with
  | Wheel dy => dy < 1000
  | _ => True
  end.

(** Every division [dist / lastPinchDist] evaluated along the sequence
    divides by a nonzero value. *)
Fixpoint divisions_defined (s : state) (evs : list event) : Prop :=
  match evs with
  | [] => True
  | e :: rest =>
      (forall d, pinch_divisor s e = Some d -> d <> 0) /\
      divisions_defined (handle s e) rest
  end.

(** The zoom is not negative and the cached pinch distance, if any, is
    positive. *)
Definition zoom_ok (s : state) : Prop :=
  0 <= zoomVal (cam s) /\
  forall d, lastPinchDist (ges s) = Some d -> 0 < d.

(** The cached pinch distance, if any, is not zero. *)
Definition baseline_nonzero (s : state) : Prop :=
  forall d, lastPinchDist (ges s) = Some d -> d <> 0.

End Camera.

Module Pipeline.

Import Cluster Segment.
Local Open Scope Q_scope.

(** The inner loop of [buildPoints], over the columns [xs] of row [y]:
    [points.push([pixels[i], pixels[i+1], pixels[i+2]])] with
    [i = (y*w + x)*3].  A point with an [undefined] channel is [None]. *)
Fixpoint push_row (px : list Q) (cw y : nat) (xs : list nat) (points : list rgb)
    : option (list rgb) :=
  match xs with
  | [] => Some points
  | x :: rest =>
      p ← read3 px ((y * cw + x) * 3);
      push_row px cw y rest (points ++ [p])
  end.

(** The outer loop of [buildPoints], over the rows [ys]. *)
Fixpoint push_rows (px : list Q) (cw : nat) (ys : list nat) (points : list rgb)
    : option (list rgb) :=
  match ys with
  | [] => Some points
  | y :: rest =>
      points' ← push_row px cw y (seq 0 cw) points;
      push_rows px cw rest points'
  end.

(** [function buildPoints()], on the global [imgData]: [points = []], then
    the two loops. *)
Definition buildPoints (img : ImgData) : option (list rgb) :=
  push_rows (pixels img) (w img) (seq 0 (h img)) [].

(** [Math.min(1, q)] *)
Definition min1 (q : Q) : Q := if Qle_bool 1 q then 1 else q.

(** The canvas size that [drawToCanvas(img, canvas)] sets, from
    [img.width] and [img.height]:
    [const scale = Math.min(1, maxW / img.width);
     canvas.width = Math.round(img.width*scale);
     canvas.height = Math.round(img.height*scale);]
    with [maxW = 600].  For [img.width = 0] the quotient is [Infinity] and
    the scale 1. *)
Definition drawToCanvas (iw ih : nat) : Z * Z :=
  let scale := if decide (iw = 0%nat) then 1 else min1 (600 / ofnat iw) in
  (Math_round (ofnat iw * scale), Math_round (ofnat ih * scale)).

(** A JavaScript number, as far as [Number(kInput.value)] goes: [NaN]
    (text that is no number), the two infinities, or a finite number. *)
Inductive number : Type := NaN | Infinity | NegInfinity | Num (q : Q).

(** [v || 3]: [NaN] and 0 are falsy. *)
Definition or3 (v : number) : number :=
  match v with
  | NaN => Num 3
  | Num q => if Qeq_bool q 0 then Num 3 else v
  | _ => v
  end.

(** [Math.floor(v)] *)
Definition Math_floor (v : number) : number :=
  match v with
  | Num q => Num (inject_Z (Qfloor q))
  | _ => v
  end.

(** [Math.max(1, v)] *)
Definition Math_max1 (v : number) : number :=
  match v with
  | NaN => NaN
  | Infinity => Infinity
  | NegInfinity => Num 1
  | Num q => if Qle_bool 1 q then v else Num 1
  end.

(** [const k = Math.max(1, Math.floor(Number(kInput.value) || 3));], on
    the value [v] of [Number(kInput.value)]. *)
Definition chosen_k (v : number) : number := Math_max1 (Math_floor (or3 v)).

(** *** Measures used by the theorems *)

(** Every channel lies in [0 .. 1]. *)
Definition in_unit (p : rgb) : Prop :=
  (0 <= ch0 p /\ ch0 p <= 1) /\ (0 <= ch1 p /\ ch1 p <= 1) /\
  (0 <= ch2 p /\ ch2 p <= 1).

(** The squared distance from a point to the centroid of its label (0 when
    the label names no centroid). *)
Definition term (C : list rgb) (x : rgb) (l : nat) : Q :=
  match C !! l with
  | Some c => dist2 x c
  | None => 0
  end.





End Pipeline.

Module Gestures.

Import Camera.
Local Open Scope R_scope.





End Gestures.

Module Arith.

Import Cluster Segment.

(** ** The arithmetic of the program

    What the clustering and imaging code asks of its numbers.  The code
    over an [arith] (module [Core]) is the code of [script.js] whatever
    the numbers are; [binary64] is the arithmetic of JavaScript, [exact]
    the rationals, where nothing is rounded. *)
Record arith : Type := {
  num : Type;
  zero : num;
  add : num -> num -> num;
  sub : num -> num -> num;
  mul : num -> num -> num;
  div : num -> num -> num;
  (** [a < b] *)
  lt : num -> num -> bool;
  (** an integer as a number *)
  of_int : Z -> num;
  (** a store into a [Float32Array], read back *)
  fround : num -> num;
  (** [out.data[i] = Math.round(x)]: [Math.round], then the store into a
      [Uint8ClampedArray] *)
  to_byte : num -> Z }.

(** Exact rationals: no rounding, no [NaN], no infinity. *)
Definition exact : arith :=
  {| num := Q; zero := 0%Q; add := Qplus; sub := Qminus; mul := Qmult;
     div := Qdiv; lt := Qltb; of_int := inject_Z; fround := fun q => q;
     to_byte := fun q => clamp8 (Math_round q) |}.

(** The value of a finite [(sign, mantissa, exponent)], as a rational. *)
Definition SF2Q (s : bool) (m : positive) (e : Z) : Q :=
  let v := match e with
           | Zneg p => Zpos m # (2 ^ p)
           | _ => inject_Z (Zpos m * 2 ^ e)
           end in
  if s then Qopp v else v.

(** The exact value of a finite binary64 number (0 for the others). *)
Definition F2Q (x : PrimFloat.float) : Q :=
  match FloatOps.Prim2SF x with
  | SpecFloat.S754_finite s m e => SF2Q s m e
  | _ => 0%Q
  end.

(** An integer as a binary64 number (exact below 2^53). *)
Definition b64_of_int (z : Z) : PrimFloat.float :=
  match z with
  | Z0 => PrimFloat.zero
  | Zpos _ => PrimFloat.of_uint63 (Uint63.of_Z z)
  | Zneg p => PrimFloat.opp (PrimFloat.of_uint63 (Uint63.of_Z (Zpos p)))
  end.

(** [Math.fround]: the nearest single-precision number, ties to even, as a
    binary64 number. *)
Definition b64_fround (x : PrimFloat.float) : PrimFloat.float :=
  match FloatOps.Prim2SF x with
  | SpecFloat.S754_finite s m e =>
      FloatOps.SF2Prim
        (SpecFloat.binary_normalize 24 128 (if s then Zneg m else Zpos m) e s)
  | _ => x
  end.

(** [Math.round(x)] stored into a [Uint8ClampedArray]: the nearest integer,
    a half going up, clamped to [0 .. 255]; [NaN] is stored as 0. *)
Definition b64_to_byte (x : PrimFloat.float) : Z :=
  match FloatOps.Prim2SF x with
  | SpecFloat.S754_finite s m e => clamp8 (Math_round (SF2Q s m e))
  | SpecFloat.S754_infinity false => 255
  | _ => 0
  end.

(** A binary64 number that is neither [NaN] nor infinite. *)
Definition finite64 (x : PrimFloat.float) : bool :=
  match FloatOps.Prim2SF x with
  | SpecFloat.S754_zero _ | SpecFloat.S754_finite _ _ _ => true
  | _ => false
  end.

(** A number of the IEEE specification that is not [NaN] and carries the
    sign [s]. *)
Definition signed (s : bool) (r : SpecFloat.spec_float) : Prop :=
  match r with
  | SpecFloat.S754_zero s' | SpecFloat.S754_infinity s'
  | SpecFloat.S754_finite s' _ _ => s' = s
  | SpecFloat.S754_nan => False
  end.

(** IEEE 754 double precision, the numbers of JavaScript. *)
Definition binary64 : arith :=
  {| num := PrimFloat.float; zero := PrimFloat.zero;
     add := PrimFloat.add; sub := PrimFloat.sub; mul := PrimFloat.mul;
     div := PrimFloat.div; lt := PrimFloat.ltb; of_int := b64_of_int;
     fround := b64_fround; to_byte := b64_to_byte |}.

(** [lt] orders the numbers of [P] among all numbers: it is irreflexive
    and transitive, and a number of [P] that is not below [b] is above
    whatever is below [b]. *)
Definition orders (A : arith) (P : num A -> Prop) : Prop :=
  (forall a, lt A a a = false) /\
  (forall a b c, lt A a b = true -> lt A b c = true -> lt A a c = true) /\
  (forall a b c, P c -> lt A a b = true -> lt A c b = false -> lt A a c = true).

End Arith.

Module Core.

Import Cluster Segment Arith.

(** An array [[r,g,b]] of three numbers. *)
Record array3 (T : Type) : Type := Triple { c0 : T; c1 : T; c2 : T }.

Arguments Triple {T} _ _ _.
Arguments c0 {T} _.
Arguments c1 {T} _.
Arguments c2 {T} _.

(** What the iteration loop of [kmeans] holds when it exits. *)
Record exit_of (T : Type) : Type :=
  Exit { centroids : list (array3 T); labels : list nat; early : bool }.

Arguments Exit {T} _ _ _.
Arguments centroids {T} _.
Arguments labels {T} _.
Arguments early {T} _.

(** [imgData]: [{w,h,pixels}] *)
Record image_of (T : Type) : Type := Image { w : nat; h : nat; pixels : list T }.

Arguments Image {T} _ _ _.
Arguments w {T} _.
Arguments h {T} _.
Arguments pixels {T} _.

Section Code.

Variable A : arith.

(** A colour point: three numbers of the arithmetic. *)
Local Abbreviation triple := (array3 (num A)).

(** [function dist2(a,b)]: [dx*dx+dy*dy+dz*dz] *)
Definition dist2 (a b : triple) : num A :=
  let dx := sub A (c0 a) (c0 b) in
  let dy := sub A (c1 a) (c1 b) in
  let dz := sub A (c2 a) (c2 b) in
  add A (add A (mul A dx dx) (mul A dy dy)) (mul A dz dz).

(** The initialisation loop
    [while(C.length<k){ const i=rng(); if(used.has(i)) continue;
                        used.add(i); C.push(X[i].slice()); }]
    on [draws], the values that the successive calls of [rng()] return. *)
Fixpoint init (X : list triple) (k : nat) (draws : list Z)
    (used : gset Z) (C : list triple) : outcome (list triple) :=
  if decide (length C < k)%nat then
    match draws with
    | [] => Starved
    | i :: rest =>
        if decide (i ∈ used) then init X k rest used C
        else match index X i with
             | None => Throw TypeError
             | Some x => init X k rest ({[ i ]} ∪ used) (C ++ [x])
             end
    end
  else Ret C.

(** [for(let j=1;j<k;j++){ const d=dist2(x,C[j]); if(d<bestd){ bestd=d; best=j; } }],
    with [steps] iterations left. *)
Fixpoint scan (x : triple) (C : list triple) (steps j best : nat)
    (bestd : num A) : outcome nat :=
  match steps with
  | O => Ret best
  | S s =>
      match C !! j with
      | None => Throw TypeError
      | Some c =>
          let d := dist2 x c in
          if lt A d bestd then scan x C s (S j) j d
          else scan x C s (S j) best bestd
      end
  end.

(** [let best=0, bestd=dist2(x, C[0]); for(j=1;j<k;j++) ...] *)
Definition nearest (x : triple) (C : list triple) (k : nat) : outcome nat :=
  match C !! 0%nat with
  | None => Throw TypeError
  | Some c => scan x C (k - 1) 1 0 (dist2 x c)
  end.

(** The assignment loop over [i], on the points [xs] from index [i] on:
    [if(labels[i]!==best){ labels[i]=best; changed=true; }] *)
Fixpoint assign (C : list triple) (k : nat) (xs : list triple) (i : nat)
    (labels : list nat) (changed : bool) : outcome (list nat * bool) :=
  match xs with
  | [] => Ret (labels, changed)
  | x :: xs' =>
      run! best := nearest x C k in
      if decide (labels !! i = Some best)
      then assign C k xs' (S i) labels changed
      else assign C k xs' (S i) (<[i := best]> labels) true
  end.

(** [sums[l][0]+=x[0]; sums[l][1]+=x[1]; sums[l][2]+=x[2];] *)
Definition add3 (s x : triple) : triple :=
  Triple (add A (c0 s) (c0 x)) (add A (c1 s) (c1 x)) (add A (c2 s) (c2 x)).

(** [sums[j][0]/counts[j]], ... *)
Definition div3 (s : triple) (n : nat) : triple :=
  let cnt := of_int A (Z.of_nat n) in
  Triple (div A (c0 s) cnt) (div A (c1 s) cnt) (div A (c2 s) cnt).

(** [for(i..){ const l=labels[i]; const x=X[i]; sums[l][..]+=x[..]; counts[l]++; }] *)
Fixpoint accumulate (xs : list triple) (i : nat) (labels : list nat)
    (sums : list triple) (counts : list nat)
    : outcome (list triple * list nat) :=
  match xs with
  | [] => Ret (sums, counts)
  | x :: xs' =>
      match labels !! i with
      | None => Throw TypeError
      | Some l =>
          match sums !! l with
          | None => Throw TypeError
          | Some s =>
              accumulate xs' (S i) labels
                (<[l := add3 s x]> sums) (alter S l counts)
          end
      end
  end.

(** [for(let j=0;j<k;j++){ if(counts[j]===0) continue;
                           C[j][0]=sums[j][0]/counts[j]; ... }] *)
Fixpoint recompute (steps j : nat) (sums : list triple) (counts : list nat)
    (C : list triple) : outcome (list triple) :=
  match steps with
  | O => Ret C
  | S s =>
      match counts !! j with
      | Some O => recompute s (S j) sums counts C
      | Some cnt =>
          match sums !! j, C !! j with
          | Some sm, Some _ =>
              recompute s (S j) sums counts (<[j := div3 sm cnt]> C)
          | _, _ => Throw TypeError
          end
      | None => Throw TypeError
      end
  end.

(** The update step: [sums] of [[0,0,0]], [counts] of 0, the two loops. *)
Definition update (X : list triple) (k : nat) (labels : list nat)
    (C : list triple) : outcome (list triple) :=
  run! (sums, counts) :=
    accumulate X 0 labels (replicate k (Triple (zero A) (zero A) (zero A)))
               (replicate k 0%nat) in
  recompute k 0 sums counts C.

Local Abbreviation exit := (exit_of (num A)).

(** [for(let iter=0; iter<opts.maxIter; iter++){ ... if(!changed) break; }] *)
Fixpoint lloyd (X : list triple) (k : nat) (iters : nat)
    (C : list triple) (lbl : list nat) : outcome exit :=
  match iters with
  | O => Ret (Exit C lbl false)
  | S m =>
      run! (lbl', changed) := assign C k X 0 lbl false in
      run! C' := update X k lbl' C in
      if changed then lloyd X k m C' lbl' else Ret (Exit C' lbl' true)
  end.

(** [kmeans(X, k, {maxIter})] up to the loop's exit;
    [labels = new Array(n).fill(0)]. *)
Definition kmeans_run (draws : list Z) (X : list triple) (k maxIter : nat)
    : outcome exit :=
  run! C := init X k draws ∅ [] in
  lloyd X k maxIter C (replicate (length X) 0%nat).

(** [function kmeans(X, k, opts)]: [return C]. *)
Definition kmeans (draws : list Z) (X : list triple) (k maxIter : nat)
    : outcome (list triple) :=
  run! r := kmeans_run draws X k maxIter in Ret (centroids r).

Local Abbreviation image := (image_of (num A)).

(** [raw[j]/255] stored into [pixels], a [Float32Array]; a read past the
    end of [raw] is [undefined] and the quotient [NaN], which not every
    arithmetic has: [None]. *)
Definition channel (raw : list Z) (j : nat) : option (num A) :=
  (fun z => fround A (div A (of_int A z) (of_int A 255))) <$> raw !! j.

(** [for(let i=0;i<w*h;i++){ pixels[i*3+0] = raw[i*4+0]/255; ... }],
    with [steps] iterations left. *)
Fixpoint fill_pixels (raw : list Z) (steps i : nat) (px : list (num A))
    : option (list (num A)) :=
  match steps with
  | O => Some px
  | S st =>
      r ← channel raw (i * 4 + 0);
      g ← channel raw (i * 4 + 1);
      b ← channel raw (i * 4 + 2);
      fill_pixels raw st (S i)
        (<[(i * 3 + 2)%nat := b]>
        (<[(i * 3 + 1)%nat := g]>
        (<[(i * 3 + 0)%nat := r]> px)))
  end.

(** [function getImageDataFromCanvas(canvas)], on the canvas size and its
    bytes.  [ctx.getImageData(0,0,w,h)] throws an [IndexSizeError] when
    [w] or [h] is 0; [new Float32Array(w*h*3)] is [w*h*3] zeroes. *)
Definition getImageDataFromCanvas (cw ch : nat) (raw : list Z)
    : outcome (option image) :=
  if decide (cw = 0 \/ ch = 0)%nat then Throw IndexSizeError
  else Ret (px ← fill_pixels raw (cw * ch) 0 (replicate (cw * ch * 3) (zero A));
            Some (Image cw ch px)).

(** [[pixels[i], pixels[i+1], pixels[i+2]]] *)
Definition read3 (px : list (num A)) (i : nat) : option triple :=
  match px !! i, px !! (i + 1)%nat, px !! (i + 2)%nat with
  | Some r, Some g, Some b => Some (Triple r g b)
  | _, _, _ => None
  end.

(** The inner loop of [buildPoints], over the columns [xs] of row [y]. *)
Fixpoint push_row (px : list (num A)) (cw y : nat) (xs : list nat)
    (points : list triple) : option (list triple) :=
  match xs with
  | [] => Some points
  | x :: rest =>
      p ← read3 px ((y * cw + x) * 3);
      push_row px cw y rest (points ++ [p])
  end.

(** The outer loop of [buildPoints], over the rows [ys]. *)
Fixpoint push_rows (px : list (num A)) (cw : nat) (ys : list nat)
    (points : list triple) : option (list triple) :=
  match ys with
  | [] => Some points
  | y :: rest =>
      points' ← push_row px cw y (seq 0 cw) points;
      push_rows px cw rest points'
  end.

(** [function buildPoints()] *)
Definition buildPoints (img : image) : option (list triple) :=
  push_rows (pixels img) (w img) (seq 0 (h img)) [].

(** The search of [applySegmentation] for one pixel.  With an [undefined]
    channel every distance is [NaN] and [best] stays 0;
    [dist2(px, centroids[0])] still throws without a centroid. *)
Definition nearest_px (px : option triple) (centroids : list triple)
    : outcome nat :=
  match px with
  | Some p => nearest p centroids (length centroids)
  | None =>
      match centroids !! 0%nat with
      | None => Throw TypeError
      | Some _ => Ret 0%nat
      end
  end.

(** [out.data[oi+c] = Math.round(c[c]*255)] *)
Definition quantize (c : num A) : Z := to_byte A (mul A c (of_int A 255)).

(** The body of the two loops of [applySegmentation], for the pixel [(x, y)]. *)
Definition paint (img : image) (centroids : list triple) (out : list Z)
    (y x : nat) : outcome (list Z) :=
  let i := ((y * w img + x) * 3)%nat in
  run! best := nearest_px (read3 (pixels img) i) centroids in
  match centroids !! best with
  | None => Throw TypeError
  | Some c =>
      let oi := ((y * w img + x) * 4)%nat in
      Ret (<[(oi + 3)%nat := 255%Z]>
          (<[(oi + 2)%nat := quantize (c2 c)]>
          (<[(oi + 1)%nat := quantize (c1 c)]>
          (<[(oi + 0)%nat := quantize (c0 c)]> out))))
  end.

(** [function applySegmentation()], on the globals [imgData] and
    [centroids]; the result is the buffer handed to [putImageData], or
    nothing when [imgData] is [null].  [createImageData(w,h)] throws an
    [IndexSizeError] when [w] or [h] is 0, and is [w*h*4] zeroes
    otherwise. *)
Definition applySegmentation (imgData : option image) (centroids : list triple)
    : outcome (option (list Z)) :=
  match imgData with
  | None => Ret None
  | Some img =>
      if decide (w img = 0 \/ h img = 0)%nat then Throw IndexSizeError
      else
        let out := replicate (w img * h img * 4) 0%Z in
        run! out' :=
          for_each
            (fun out y =>
               for_each (fun out x => paint img centroids out y x)
                        (seq 0 (w img)) out)
            (seq 0 (h img)) out in
        Ret (Some out')
  end.

(** *** The words of the specification

    Written without the functions above, from the operations of the
    arithmetic alone. *)

(** [0 + v1 + v2 + ...], added from the left. *)
Definition lsum (vs : list (num A)) : num A := fold_left (add A) vs (zero A).

(** The mean as the arithmetic computes it: each channel the sum from
    the left of the points' values, divided by their number. *)
Definition mean (ps : list triple) : triple :=
  Triple (div A (lsum (map c0 ps)) (of_int A (Z.of_nat (length ps))))
         (div A (lsum (map c1 ps)) (of_int A (Z.of_nat (length ps))))
         (div A (lsum (map c2 ps)) (of_int A (Z.of_nat (length ps)))).

(** The points that carry label [j], in the order of the points. *)
Definition assigned (X : list triple) (lbl : list nat) (j : nat) : list triple :=
  (filter (fun xl => xl.2 = j) (zip X lbl)).*1.

(** The squared distance as the arithmetic computes it: the three squared
    differences, added from the left. *)
Definition sqdist (x c : triple) : num A :=
  add A
    (add A (mul A (sub A (c0 x) (c0 c)) (sub A (c0 x) (c0 c)))
           (mul A (sub A (c1 x) (c1 c)) (sub A (c1 x) (c1 c))))
    (mul A (sub A (c2 x) (c2 c)) (sub A (c2 x) (c2 c))).

(** No centroid is strictly nearer to [x] than centroid [b], and every
    centroid of a lower index is strictly farther: [b] is the lowest index
    of least distance. *)
Definition nearest_to (x : triple) (C : list triple) (b : nat) : Prop :=
  exists cb, C !! b = Some cb /\
    (forall j c, C !! j = Some c -> lt A (sqdist x c) (sqdist x cb) = false) /\
    (forall j c, C !! j = Some c -> (j < b)%nat ->
       lt A (sqdist x cb) (sqdist x c) = true).

(** Pixel [p] of an image: its three channels. *)
Definition pixel (img : image) (p : nat) : option triple :=
  r ← pixels img !! (3 * p)%nat;
  g ← pixels img !! (3 * p + 1)%nat;
  b ← pixels img !! (3 * p + 2)%nat;
  Some (Triple r g b).

(** A channel as a byte: times 255, [Math.round], clamped. *)
Definition level (c : num A) : Z := to_byte A (mul A c (of_int A 255)).

(** The four bytes of output pixel [p] are the levels of the centroid
    nearest to input pixel [p], and 255. *)
Definition painted (img : image) (C : list triple) (out : list Z) (p : nat)
    : Prop :=
  exists x b c,
    pixel img p = Some x /\ nearest_to x C b /\ C !! b = Some c /\
    out !! (4 * p)%nat = Some (level (c0 c)) /\
    out !! (4 * p + 1)%nat = Some (level (c1 c)) /\
    out !! (4 * p + 2)%nat = Some (level (c2 c)) /\
    out !! (4 * p + 3)%nat = Some 255%Z.

(** Every centroid index that has assigned points holds their mean. *)
Definition settled (X : list triple) (lbl : list nat) (C : list triple) : Prop :=
  forall j, assigned X lbl j <> [] -> C !! j = Some (mean (assigned X lbl j)).

End Code.

(** A colour point, an exit of the loop and an image, on the numbers of
    an arithmetic. *)
Abbreviation triple A := (array3 (num A)).
Abbreviation exit A := (exit_of (num A)).
Abbreviation image A := (image_of (num A)).

End Core.

Module Doubles.

Import Arith Core.

(** [a/b] of two integers in binary64: [ratio 1 10] is the number that
    JavaScript writes [0.1]. *)
Definition ratio (a b : Z) : PrimFloat.float :=
  PrimFloat.div (b64_of_int a) (b64_of_int b).

(** The byte [b] of a canvas as [getImageDataFromCanvas] stores it:
    [b/255] through the [Float32Array]. *)
Definition stored (b : Z) : PrimFloat.float := b64_fround (ratio b 255).

(** The point [[v,v,v]]. *)
Definition grey (v : PrimFloat.float) : triple binary64 := Triple v v v.

(** The point of a pixel of bytes [r], [g], [b]. *)
Definition colour (r g b : Z) : triple binary64 :=
  Triple (stored r) (stored g) (stored b).

(** The squared distance of two points in double precision: the three
    squared differences, added from the left, each operation rounded. *)
Definition sqdist64 (x c : triple binary64) : PrimFloat.float :=
  PrimFloat.add
    (PrimFloat.add
       (PrimFloat.mul (PrimFloat.sub (c0 x) (c0 c)) (PrimFloat.sub (c0 x) (c0 c)))
       (PrimFloat.mul (PrimFloat.sub (c1 x) (c1 c)) (PrimFloat.sub (c1 x) (c1 c))))
    (PrimFloat.mul (PrimFloat.sub (c2 x) (c2 c)) (PrimFloat.sub (c2 x) (c2 c))).

(** In double precision no centroid has a smaller computed distance to [x]
    than centroid [b], and every centroid of a lower index has a greater
    one: [b] is the lowest index of least computed distance. *)
Definition nearest64 (x : triple binary64) (C : list (triple binary64))
    (b : nat) : Prop :=
  exists cb, C !! b = Some cb /\
    (forall j c, C !! j = Some c ->
       PrimFloat.ltb (sqdist64 x c) (sqdist64 x cb) = false) /\
    (forall j c, C !! j = Some c -> (j < b)%nat ->
       PrimFloat.ltb (sqdist64 x cb) (sqdist64 x c) = true).

(** A channel as a byte in double precision: the rounded product with
    255, then [Math.round] and the clamped store. *)
Definition level64 (c : PrimFloat.float) : Z :=
  b64_to_byte (PrimFloat.mul c (b64_of_int 255)).

(** The four bytes of output pixel [p] are the levels of the centroid
    nearest to input pixel [p] in double precision, and 255. *)
Definition painted64 (img : image binary64) (C : list (triple binary64))
    (out : list Z) (p : nat) : Prop :=
  exists x b c,
    pixel binary64 img p = Some x /\ nearest64 x C b /\ C !! b = Some c /\
    out !! (4 * p)%nat = Some (level64 (c0 c)) /\
    out !! (4 * p + 1)%nat = Some (level64 (c1 c)) /\
    out !! (4 * p + 2)%nat = Some (level64 (c2 c)) /\
    out !! (4 * p + 3)%nat = Some 255%Z.

(** A binary64 number that is neither [NaN] nor negative. *)
Definition clean (v : PrimFloat.float) : Prop :=
  signed false (FloatOps.Prim2SF v).

(** A point whose three channels are clean. *)
Definition clean3 (c : triple binary64) : Prop :=
  clean (c0 c) /\ clean (c1 c) /\ clean (c2 c).

(** [clean], decided. *)
Definition cleanb (v : PrimFloat.float) : bool :=
  match FloatOps.Prim2SF v with
  | SpecFloat.S754_zero false | SpecFloat.S754_infinity false
  | SpecFloat.S754_finite false _ _ => true
  | _ => false
  end.

(** A point of binary64 numbers, each replaced by its exact value. *)
Definition valued (t : triple binary64) : triple exact :=
  Triple (F2Q (c0 t)) (F2Q (c1 t)) (F2Q (c2 t)).

End Doubles.

Module Zoom64.

Import Arith Doubles.

(** [(1 + delta*0.001)] with [delta = -e.deltaY], in binary64; [0.001] is
    the double nearest to a thousandth. *)
Definition wheel_by (deltaY : PrimFloat.float) : PrimFloat.float :=
  let delta := PrimFloat.opp deltaY in
  PrimFloat.add (b64_of_int 1) (PrimFloat.mul delta (ratio 1 1000)).

(** [const factor = dist / lastPinchDist;] in binary64. *)
Definition pinch_by (dist lastPinchDist : PrimFloat.float) : PrimFloat.float :=
  PrimFloat.div dist lastPinchDist.

(** An update of the zoom: a wheel event of [deltaY], or a two-pointer
    move at distance [dist] while the cached distance is [lastPinchDist]. *)
Inductive update : Type :=
  | WheelBy (deltaY : PrimFloat.float)
  | PinchBy (dist lastPinchDist : PrimFloat.float).

(** The factor of an update. *)
Definition factor (u : update) : PrimFloat.float :=
  match u with
  | WheelBy deltaY => wheel_by deltaY
  | PinchBy dist last => pinch_by dist last
  end.

(** [zoomVal *= (1 + delta*0.001)] and [zoomVal *= factor], in binary64. *)
Definition zoom_update (zoomVal : PrimFloat.float) (u : update)
    : PrimFloat.float :=
  PrimFloat.mul zoomVal (factor u).

(** The zoom after the updates [us], one after the other. *)
Definition zoom_updates (zoomVal : PrimFloat.float) (us : list update)
    : PrimFloat.float :=
  fold_left zoom_update us zoomVal.

(** *** The words of the specification *)

(** [x < 0] does not hold: [x] is positive, a zero, or [NaN]. *)
Definition not_negative (x : PrimFloat.float) : Prop :=
  PrimFloat.ltb x PrimFloat.zero = false.

(** [0 < x] *)
Definition positive (x : PrimFloat.float) : Prop :=
  PrimFloat.ltb PrimFloat.zero x = true.

End Zoom64.

Module Exact.

(** The code over the rationals ([Cluster], [Segment], [Pipeline]) is the
    code over the arithmetic [exact]: the conversions between their data. *)

Import Cluster Segment Arith.

(** A colour point of rationals as a point of the exact arithmetic. *)
Definition of_rgb (p : rgb) : Core.array3 (num exact) :=
  Core.Triple (ch0 p) (ch1 p) (ch2 p).

(** An exit of the loop, likewise. *)
Definition of_run (r : run) : Core.exit_of (num exact) :=
  Core.Exit (of_rgb <$> centroids r) (labels r) (early r).

(** An image, likewise. *)
Definition of_img (img : ImgData) : Core.image_of (num exact) :=
  Core.Image (w img) (h img) (pixels img).

(** The outcome of a call, its result mapped by [f]. *)
Definition outcome_map {S T : Type} (f : S -> T) (m : outcome S) : outcome T :=
  match m with
  | Ret a => Ret (f a)
  | Throw e => Throw e
  | Starved => Starved
  end.

End Exact.

Import Cluster.

(** * Theorems *)

Section ClusterInit.

Local Open Scope Q_scope.

Lemma rng_bounds (n : nat) (u : Q) :
  unit_draw u -> (0 < n)%nat -> (0 <= rng n u < Z.of_nat n)%Z.
Proof.
  intros [H0 H1] Hn. unfold rng.
  set (m := inject_Z (Z.of_nat n)).
  assert (Hm : 0 < m) by (unfold m; change 0 with (inject_Z 0); rewrite <- Zlt_Qlt; lia).
  split.
  - change 0%Z with (Qfloor 0). apply Qfloor_resp_le.
    apply Qmult_le_0_compat; [exact H0 | apply Qlt_le_weak, Hm].
  - rewrite Zlt_Qlt. apply Qle_lt_trans with (u * m); [apply Qfloor_le |].
    fold m. rewrite <- (Qmult_1_l m) at 2.
    apply Qmult_lt_compat_r; assumption.
Qed.

Lemma index_Some {A} (l : list A) (i : Z) :
  (0 <= i < Z.of_nat (length l))%Z -> is_Some (index l i).
Proof.
  intros H. unfold index. destruct (Z.ltb_spec i 0); [lia |].
  apply lookup_lt_is_Some. lia.
Qed.

Lemma index_Some_inv {A} (l : list A) (i : Z) (x : A) :
  index l i = Some x -> (0 <= i < Z.of_nat (length l))%Z.
Proof.
  unfold index. destruct (Z.ltb_spec i 0); [discriminate |].
  intros Hl%lookup_lt_Some. lia.
Qed.

Lemma elem_of_below (n : nat) (i : Z) : i ∈ below n <-> (0 <= i < Z.of_nat n)%Z.
Proof. unfold below. rewrite elem_of_list_to_set, elem_of_seqZ. lia. Qed.

Lemma size_below (n : nat) : size (below n) = n.
Proof.
  unfold below. rewrite size_list_to_set by apply NoDup_seqZ.
  rewrite length_seqZ. lia.
Qed.

(** The loop never ends with fewer than [k] centroids, and it never picks an
    index twice: with more centroids asked than there are points it cannot
    return. *)
Lemma init_no_return (X : list rgb) (k : nat) (draws : list Q) :
  forall (used : gset Z) (C : list rgb),
    used ⊆ below (length X) -> length C = size used ->
    (length X < k)%nat ->
    forall C', init X k draws used C <> Ret C'.
Proof.
  induction draws as [|u rest IH]; intros used C Hsub Hlen Hk C'.
  - simpl. pose proof (subseteq_size _ _ Hsub) as Hs. rewrite size_below in Hs.
    destruct (decide (length C < k)%nat); [discriminate | lia].
  - simpl. pose proof (subseteq_size _ _ Hsub) as Hs. rewrite size_below in Hs.
    destruct (decide (length C < k)%nat); [| lia].
    destruct (decide (rng (length X) u ∈ used)) as [Hin|Hout]; [by apply IH |].
    destruct (index X (rng (length X) u)) as [x|] eqn:Hx; [| discriminate].
    apply IH; [| | exact Hk].
    + apply index_Some_inv in Hx. apply elem_of_below in Hx. set_solver.
    + rewrite length_app, size_union by set_solver.
      rewrite size_singleton. simpl. lia.
Qed.

Lemma init_starves (X : list rgb) (k : nat) (draws : list Q) :
  forall (used : gset Z) (C : list rgb),
    used ⊆ below (length X) -> length C = size used ->
    (0 < length X < k)%nat -> Forall unit_draw draws ->
    init X k draws used C = Starved.
Proof.
  induction draws as [|u rest IH]; intros used C Hsub Hlen Hk Hd.
  - simpl. pose proof (subseteq_size _ _ Hsub) as Hs. rewrite size_below in Hs.
    destruct (decide (length C < k)%nat); [reflexivity | lia].
  - simpl. pose proof (subseteq_size _ _ Hsub) as Hs. rewrite size_below in Hs.
    apply Forall_cons in Hd as [Hu Hd].
    destruct (decide (length C < k)%nat); [| lia].
    destruct (decide (rng (length X) u ∈ used)) as [Hin|Hout]; [by apply IH |].
    destruct (index_Some X (rng (length X) u)) as [x Hx];
      [apply rng_bounds; [exact Hu | lia] |].
    rewrite Hx. apply IH; [| | exact Hk | exact Hd].
    + apply index_Some_inv in Hx. apply elem_of_below in Hx. set_solver.
    + rewrite length_app, size_union by set_solver.
      rewrite size_singleton. simpl. lia.
Qed.

Lemma init_returns (X : list rgb) (k : nat) (draws : list Q) :
  forall (used : gset Z) (C : list rgb),
    (0 < length X)%nat ->
    used ⊆ below (length X) -> length C = size used -> (length C <= k)%nat ->
    Forall unit_draw draws ->
    (k <= size (used ∪ list_to_set (rng (length X) <$> draws)))%nat ->
    exists C', init X k draws used C = Ret C' /\ length C' = k.
Proof.
  induction draws as [|u rest IH]; intros used C Hn Hsub Hlen Hle Hd Hk.
  - simpl in *. rewrite (right_id_L ∅ (∪)) in Hk.
    destruct (decide (length C < k)%nat); [lia |].
    exists C. split; [reflexivity | lia].
  - simpl. apply Forall_cons in Hd as [Hu Hd].
    destruct (decide (length C < k)%nat); [| exists C; split; [reflexivity | lia]].
    rewrite fmap_cons, list_to_set_cons in Hk.
    destruct (decide (rng (length X) u ∈ used)) as [Hin|Hout].
    + apply IH; try assumption.
      replace (used ∪ list_to_set (rng (length X) <$> rest))
        with (used ∪ ({[rng (length X) u]} ∪ list_to_set (rng (length X) <$> rest)))
        by set_solver.
      exact Hk.
    + destruct (index_Some X (rng (length X) u)) as [x Hx];
        [apply rng_bounds; assumption |].
      rewrite Hx. apply IH; try assumption.
      * apply index_Some_inv in Hx. apply elem_of_below in Hx. set_solver.
      * rewrite length_app, size_union by set_solver.
        rewrite size_singleton. simpl. lia.
      * rewrite length_app. simpl. lia.
      * replace ({[rng (length X) u]} ∪ used ∪ list_to_set (rng (length X) <$> rest))
          with (used ∪ ({[rng (length X) u]} ∪ list_to_set (rng (length X) <$> rest)))
          by set_solver.
        exact Hk.
Qed.

(** The loop reads the random values only through the indices they select. *)
Lemma init_indices (X : list rgb) (k : nat) (d1 : list Q) :
  forall (d2 : list Q) (used : gset Z) (C : list rgb),
    rng (length X) <$> d1 = rng (length X) <$> d2 ->
    init X k d1 used C = init X k d2 used C.
Proof.
  induction d1 as [|u1 r1 IH]; intros [|u2 r2] used C Heq;
    try discriminate; [reflexivity |].
  rewrite !fmap_cons in Heq. injection Heq as Hu Hr.
  simpl. rewrite Hu.
  destruct (decide (length C < k)%nat); [| reflexivity].
  destruct (decide (rng (length X) u2 ∈ used)); [by apply IH |].
  destruct (index X (rng (length X) u2)); [by apply IH | reflexivity].
Qed.

End ClusterInit.

Section ClusterSteps.

Local Open Scope Q_scope.

Lemma Qltb_lt (a b : Q) : Qltb a b = true <-> a < b.
Proof.
  unfold Qltb. rewrite Qlt_alt. destruct (a ?= b); intuition discriminate.
Qed.

Lemma Qltb_ge (a b : Q) : Qltb a b = false <-> b <= a.
Proof.
  split.
  - intros H. apply Qnot_lt_le. intros Hlt%Qltb_lt. congruence.
  - intros H. destruct (Qltb a b) eqn:E; [| reflexivity].
    apply Qltb_lt in E. exfalso. exact (Qlt_not_le _ _ E H).
Qed.

Lemma scan_spec (x : rgb) (C : list rgb) :
  forall (steps j best : nat) (cb : rgb),
    (j + steps = length C)%nat -> C !! best = Some cb ->
    (forall i c, (i < j)%nat -> C !! i = Some c -> dist2 x cb <= dist2 x c) ->
    (forall i c, (i < best)%nat -> C !! i = Some c -> dist2 x cb < dist2 x c) ->
    exists b, scan x C steps j best (dist2 x cb) = Ret b /\ closest x C b.
Proof.
  induction steps as [|s IH]; intros j best cb Hlen Hb Hmin Hlow.
  - exists best. split; [reflexivity |]. exists cb. split; [exact Hb |].
    split; [| intros i c Hc Hi; by eapply Hlow].
    intros i c Hc. apply (Hmin i c); [| exact Hc].
    apply lookup_lt_Some in Hc. lia.
  - simpl. destruct (lookup_lt_is_Some_2 C j) as [c Hc]; [lia |].
    rewrite Hc. destruct (Qltb (dist2 x c) (dist2 x cb)) eqn:E.
    + apply Qltb_lt in E. apply IH; [lia | exact Hc | |].
      * intros i c' Hi Hc'. destruct (decide (i = j)) as [->|Hne].
        -- rewrite Hc in Hc'. injection Hc' as <-. apply Qle_refl.
        -- apply Qlt_le_weak. eapply Qlt_le_trans; [exact E |].
           apply (Hmin i c'); [lia | exact Hc'].
      * intros i c' Hi Hc'. eapply Qlt_le_trans; [exact E |].
        by apply (Hmin i c').
    + apply Qltb_ge in E. apply IH; [lia | exact Hb | | exact Hlow].
      intros i c' Hi Hc'. destruct (decide (i = j)) as [->|Hne].
      * rewrite Hc in Hc'. by injection Hc' as <-.
      * apply (Hmin i c'); [lia | exact Hc'].
Qed.

(** With [k] centroids, [k >= 1], the search returns the nearest centroid,
    the lowest index among equals. *)
Lemma nearest_spec (x : rgb) (C : list rgb) (k : nat) :
  (0 < k)%nat -> length C = k ->
  exists b, nearest x C k = Ret b /\ closest x C b.
Proof.
  intros Hk HC. unfold nearest.
  destruct (lookup_lt_is_Some_2 C 0) as [c0 Hc0]; [lia |].
  rewrite Hc0. apply scan_spec; [lia | exact Hc0 | |].
  - intros i c Hi Hc. replace i with 0%nat in Hc by lia.
    rewrite Hc0 in Hc. injection Hc as <-. apply Qle_refl.
  - intros i c Hi. lia.
Qed.

Lemma closest_lt (x : rgb) (C : list rgb) (b : nat) :
  closest x C b -> (b < length C)%nat.
Proof. intros (cb & Hb & _). by apply lookup_lt_Some in Hb. Qed.

(** The assignment loop: it never throws, it keeps the labels before [i],
    it gives every point from [i] on its nearest centroid, and [changed]
    stays [false] exactly when no label was rewritten. *)
Lemma assign_spec (C : list rgb) (k : nat) :
  (0 < k)%nat -> length C = k ->
  forall (xs : list rgb) (i : nat) (lbl : list nat) (ch : bool),
    length lbl = (i + length xs)%nat ->
    exists lbl' ch',
      assign C k xs i lbl ch = Ret (lbl', ch') /\
      length lbl' = length lbl /\
      (forall p, (p < i)%nat -> lbl' !! p = lbl !! p) /\
      (forall p x, xs !! p = Some x ->
         exists b, nearest x C k = Ret b /\ closest x C b /\
                   lbl' !! (i + p)%nat = Some b) /\
      (ch' = false <-> ch = false /\ lbl' = lbl).
Proof.
  intros Hk HC. induction xs as [|x xs IH]; intros i lbl ch Hlen.
  - exists lbl, ch. simpl. split_and!; try tauto. intros p y Hp. discriminate.
  - simpl in Hlen. destruct (nearest_spec x C k Hk HC) as (b & Hb & Hcl).
    simpl. rewrite Hb. simpl.
    destruct (decide (lbl !! i = Some b)) as [Hi|Hi].
    + destruct (IH (S i) lbl ch) as (lbl' & ch' & Hrun & Hl & Hpre & Hnear & Hch);
        [lia |].
      exists lbl', ch'. split_and!; try tauto.
      * intros p Hp. apply Hpre. lia.
      * intros [|p] y Hy.
        -- injection Hy as <-. exists b. rewrite Nat.add_0_r, Hpre by lia. done.
        -- destruct (Hnear p y Hy) as (b' & ? & ? & Hp). exists b'.
           by replace (i + S p)%nat with (S i + p)%nat by lia.
    + destruct (IH (S i) (<[i := b]> lbl) true)
        as (lbl' & ch' & Hrun & Hl & Hpre & Hnear & Hch);
        [rewrite length_insert; lia |].
      rewrite length_insert in Hl.
      assert (Hat : lbl' !! i = Some b).
      { rewrite Hpre by lia. apply list_lookup_insert_eq. lia. }
      exists lbl', ch'. split_and!; try tauto.
      * intros p Hp. rewrite Hpre by lia. apply list_lookup_insert_ne. lia.
      * intros [|p] y Hy.
        -- injection Hy as <-. exists b. by rewrite Nat.add_0_r.
        -- destruct (Hnear p y Hy) as (b' & ? & ? & Hp). exists b'.
           by replace (i + S p)%nat with (S i + p)%nat by lia.
      * split.
        -- intros E. apply Hch in E as [E _]. discriminate.
        -- intros [_ ->]. congruence.
Qed.

(** After an assignment over all the points, every label is below [k]. *)
Lemma assign_labels_lt (C : list rgb) (k : nat) (X : list rgb)
    (lbl lbl' : list nat) (ch ch' : bool) :
  (0 < k)%nat -> length C = k -> length lbl = length X ->
  assign C k X 0 lbl ch = Ret (lbl', ch') ->
  Forall (fun l => (l < k)%nat) lbl'.
Proof.
  intros Hk HC Hlen Hrun.
  destruct (assign_spec C k Hk HC X 0 lbl ch) as (l2 & c2 & Hrun2 & Hl & _ & Hnear & _);
    [simpl; lia |].
  rewrite Hrun in Hrun2. injection Hrun2 as <- <-.
  apply Forall_lookup. intros p l Hp.
  destruct (lookup_lt_is_Some_2 X p) as [x Hx];
    [apply lookup_lt_Some in Hp; lia |].
  destruct (Hnear p x Hx) as (b & _ & Hcl%closest_lt & Hb).
  simpl in Hb. rewrite Hp in Hb. injection Hb as ->. lia.
Qed.

Lemma members_cons (x : rgb) (xs : list rgb) (l : nat) (ls : list nat) (j : nat) :
  members (x :: xs) (l :: ls) j =
  if decide (l = j) then x :: members xs ls j else members xs ls j.
Proof.
  unfold members. simpl. rewrite filter_cons. simpl.
  destruct (decide (l = j)); reflexivity.
Qed.

Lemma members_nil_l (ls : list nat) (j : nat) : members [] ls j = [].
Proof. reflexivity. Qed.

Lemma eq3_refl (a : rgb) : eq3 a a.
Proof. repeat split; reflexivity. Qed.

Lemma eq3_trans (a b c : rgb) : eq3 a b -> eq3 b c -> eq3 a c.
Proof.
  intros (H0 & H1 & H2) (G0 & G1 & G2).
  repeat split; etransitivity; eassumption.
Qed.

Lemma eq3_div3 (a b : rgb) (n : nat) : eq3 a b -> eq3 (div3 a n) (div3 b n).
Proof.
  intros (H0 & H1 & H2). unfold div3, eq3. simpl.
  rewrite H0, H1, H2. repeat split; reflexivity.
Qed.

Lemma add3_assoc_eq (s x m : rgb) : eq3 (add3 (add3 s x) m) (add3 s (add3 x m)).
Proof. unfold eq3, add3. simpl. repeat split; ring. Qed.

Lemma add3_zero_l (m : rgb) : eq3 (add3 zero3 m) m.
Proof. unfold eq3, add3. simpl. repeat split; ring. Qed.

(** The accumulation loop: it never throws on labels below [k], and it adds
    to each sum and to each count what the points of that label bring. *)
Lemma accumulate_spec (k : nat) (lbl : list nat) :
  Forall (fun l => (l < k)%nat) lbl ->
  forall (xs : list rgb) (i : nat) (sums : list rgb) (counts : list nat),
    length sums = k -> length counts = k ->
    (i + length xs <= length lbl)%nat ->
    exists sums' counts',
      accumulate xs i lbl sums counts = Ret (sums', counts') /\
      length sums' = k /\ length counts' = k /\
      forall j s c, sums !! j = Some s -> counts !! j = Some c ->
        exists s', sums' !! j = Some s' /\
          eq3 s' (add3 s (sum3 (members xs (drop i lbl) j))) /\
          counts' !! j = Some (c + length (members xs (drop i lbl) j))%nat.
Proof.
  intros Hlt. induction xs as [|x xs IH]; intros i sums counts Hs Hc Hlen.
  - exists sums, counts. split_and!; try done.
    intros j s c Hj Hcj. exists s. rewrite members_nil_l. simpl.
    split_and!; [done | | by rewrite Nat.add_0_r].
    unfold eq3, add3. simpl. repeat split; ring.
  - simpl in Hlen. simpl.
    destruct (lookup_lt_is_Some_2 lbl i) as [l Hl]; [lia |].
    rewrite Hl. pose proof (Forall_lookup_1 _ _ _ _ Hlt Hl) as Hlk. simpl in Hlk.
    destruct (lookup_lt_is_Some_2 sums l) as [s0 Hs0]; [lia |].
    rewrite Hs0.
    destruct (IH (S i) (<[l := add3 s0 x]> sums) (alter S l counts))
      as (sums' & counts' & Hrun & Hs' & Hc' & Hall);
      [by rewrite length_insert | by rewrite length_alter | lia |].
    exists sums', counts'. split_and!; try done.
    intros j s c Hj Hcj. rewrite (drop_S _ _ _ Hl), members_cons.
    destruct (decide (l = j)) as [->|Hne].
    + destruct (Hall j (add3 s0 x) (S c)) as (s' & Hs'j & Heq & Hcnt).
      * apply list_lookup_insert_eq. lia.
      * rewrite list_lookup_alter_eq, Hcj. reflexivity.
      * exists s'. split_and!; [done | |].
        -- rewrite Hs0 in Hj. injection Hj as ->.
           eapply eq3_trans; [exact Heq |]. apply add3_assoc_eq.
        -- rewrite Hcnt. f_equal. simpl. lia.
    + destruct (Hall j s c) as (s' & Hs'j & Heq & Hcnt).
      * by rewrite list_lookup_insert_ne.
      * by rewrite list_lookup_alter_ne.
      * exists s'. done.
Qed.

(** The recomputation loop: an index whose count is zero is skipped, the
    others receive sum over count. *)
Lemma recompute_spec (k : nat) (sums : list rgb) (counts : list nat) :
  length sums = k -> length counts = k ->
  forall (steps j : nat) (C : list rgb),
    length C = k -> (j + steps = k)%nat ->
    exists C',
      recompute steps j sums counts C = Ret C' /\ length C' = k /\
      (forall p, (p < j)%nat -> C' !! p = C !! p) /\
      (forall p, (j <= p)%nat -> counts !! p = Some 0%nat -> C' !! p = C !! p) /\
      (forall p c s, (j <= p)%nat -> counts !! p = Some (S c) ->
         sums !! p = Some s -> C' !! p = Some (div3 s (S c))).
Proof.
  intros Hs Hc. induction steps as [|st IH]; intros j C HC Hj.
  - exists C. simpl. split_and!; try done.
    intros p c s Hp Hcp. apply lookup_lt_Some in Hcp. lia.
  - simpl.
    destruct (lookup_lt_is_Some_2 counts j) as [cnt Hcnt]; [lia |].
    rewrite Hcnt. destruct cnt as [|cnt].
    + destruct (IH (S j) C) as (C' & Hrun & HC' & Hpre & Hzero & Hpos); [done | lia |].
      exists C'. split_and!; try done.
      * intros p Hp. apply Hpre. lia.
      * intros p Hp Hz. destruct (decide (p = j)) as [->|Hne];
          [apply Hpre; lia | apply Hzero; [lia | done]].
      * intros p c s Hp Hcp Hsp. destruct (decide (p = j)) as [->|Hne];
          [congruence | apply Hpos; [lia | done | done]].
    + destruct (lookup_lt_is_Some_2 sums j) as [sm Hsm]; [lia |].
      destruct (lookup_lt_is_Some_2 C j) as [cj Hcj]; [lia |].
      rewrite Hsm, Hcj.
      destruct (IH (S j) (<[j := div3 sm (S cnt)]> C))
        as (C' & Hrun & HC' & Hpre & Hzero & Hpos);
        [by rewrite length_insert | lia |].
      exists C'. split_and!; try done.
      * intros p Hp. rewrite Hpre by lia. apply list_lookup_insert_ne. lia.
      * intros p Hp Hz. destruct (decide (p = j)) as [->|Hne]; [congruence |].
        rewrite Hzero by (done || lia). apply list_lookup_insert_ne. lia.
      * intros p c s Hp Hcp Hsp. destruct (decide (p = j)) as [->|Hne].
        -- rewrite Hpre by lia. rewrite list_lookup_insert_eq by lia.
           congruence.
        -- apply Hpos; [lia | done | done].
Qed.

(** The update step on [k] centroids and labels below [k]. *)
Lemma update_spec (X : list rgb) (k : nat) (lbl : list nat) (C : list rgb) :
  length C = k -> length lbl = length X ->
  Forall (fun l => (l < k)%nat) lbl ->
  exists C',
    update X k lbl C = Ret C' /\ length C' = k /\
    forall j, (j < k)%nat ->
      (members X lbl j = [] -> C' !! j = C !! j) /\
      (members X lbl j <> [] ->
         exists c', C' !! j = Some c' /\ eq3 c' (mean3 (members X lbl j))).
Proof.
  intros HC Hlen Hlt. unfold update.
  destruct (accumulate_spec k lbl Hlt X 0 (replicate k zero3) (replicate k 0%nat))
    as (sums & counts & Hacc & Hs & Hc & Hall);
    [apply length_replicate | apply length_replicate | simpl; lia |].
  rewrite Hacc. simpl.
  destruct (recompute_spec k sums counts Hs Hc k 0 C HC)
    as (C' & Hrec & HC' & _ & Hzero & Hpos); [lia |].
  exists C'. split_and!; try done.
  intros j Hj.
  destruct (Hall j zero3 0%nat) as (s' & Hsj & Heq & Hcj);
    [by apply lookup_replicate_2 | by apply lookup_replicate_2 |].
  rewrite drop_0 in Heq, Hcj. simpl in Hcj. split.
  - intros Hnil. rewrite Hnil in Hcj. apply Hzero; [lia | exact Hcj].
  - intros Hne. destruct (members X lbl j) as [|m ms] eqn:Hm; [done |].
    exists (div3 s' (length (m :: ms))). split.
    + apply (Hpos j (length ms) s'); [lia | exact Hcj | exact Hsj].
    + unfold mean3. apply eq3_div3.
      eapply eq3_trans; [exact Heq |]. apply add3_zero_l.
Qed.

(** An update depends on the centroids it is given only at the indices it
    keeps: run again on its own result with the same labels, it returns that
    result. *)
Lemma update_idempotent (X : list rgb) (k : nat) (lbl : list nat) (C C' : list rgb) :
  length C = k -> length lbl = length X ->
  Forall (fun l => (l < k)%nat) lbl ->
  update X k lbl C = Ret C' -> update X k lbl C' = Ret C'.
Proof.
  intros HC Hlen Hlt. unfold update.
  destruct (accumulate_spec k lbl Hlt X 0 (replicate k zero3) (replicate k 0%nat))
    as (sums & counts & Hacc & Hs & Hc & _);
    [apply length_replicate | apply length_replicate | simpl; lia |].
  rewrite Hacc. simpl. intros Hrec.
  destruct (recompute_spec k sums counts Hs Hc k 0 C HC)
    as (C1 & Hrec1 & HC1 & _ & Hzero1 & Hpos1); [lia |].
  rewrite Hrec in Hrec1. injection Hrec1 as <-.
  destruct (recompute_spec k sums counts Hs Hc k 0 C' HC1)
    as (C2 & Hrec2 & HC2 & _ & Hzero2 & Hpos2); [lia |].
  rewrite Hrec2. f_equal. apply list_eq. intros p.
  destruct (decide (p < k)%nat) as [Hp|Hp].
  - destruct (lookup_lt_is_Some_2 counts p) as [[|c] Hcp]; [lia | |].
    + apply Hzero2; [lia | exact Hcp].
    + destruct (lookup_lt_is_Some_2 sums p) as [sm Hsm]; [lia |].
      rewrite (Hpos2 p c sm), (Hpos1 p c sm); (done || lia).
  - rewrite !lookup_ge_None_2 by lia. reflexivity.
Qed.

(** The iteration loop returns, with [k] centroids and one label per point. *)
Lemma lloyd_returns (X : list rgb) (k : nat) :
  (0 < k)%nat ->
  forall (iters : nat) (C : list rgb) (lbl : list nat),
    length C = k -> length lbl = length X ->
    exists r, lloyd X k iters C lbl = Ret r /\
      length (centroids r) = k /\ length (labels r) = length X.
Proof.
  intros Hk. induction iters as [|m IH]; intros C lbl HC Hlen.
  - exists (Run C lbl false). done.
  - simpl.
    destruct (assign_spec C k Hk HC X 0 lbl false) as (lbl' & ch & Hrun & Hl & _);
      [simpl; lia |].
    rewrite Hrun. simpl.
    pose proof (assign_labels_lt C k X lbl lbl' false ch Hk HC Hlen Hrun) as Hlt.
    destruct (update_spec X k lbl' C HC) as (C' & Hup & HC' & _);
      [lia | exact Hlt |].
    rewrite Hup. simpl. destruct ch.
    + apply IH; [exact HC' | lia].
    + exists (Run C' lbl' true). split_and!; [done | done | simpl; lia].
Qed.

(** Once the centroids are the result of an update for the current labels,
    an early exit leaves a fixed point of the assignment step. *)
Lemma lloyd_fixed_point (X : list rgb) (k : nat) :
  (0 < k)%nat ->
  forall (iters : nat) (C : list rgb) (lbl : list nat) (r : run),
    length C = k -> length lbl = length X ->
    Forall (fun l => (l < k)%nat) lbl ->
    update X k lbl C = Ret C ->
    lloyd X k iters C lbl = Ret r -> early r = true ->
    assign (centroids r) k X 0 (labels r) false = Ret (labels r, false).
Proof.
  intros Hk. induction iters as [|m IH]; intros C lbl r HC Hlen Hlt Hset Hrun He.
  - simpl in Hrun. injection Hrun as <-. discriminate.
  - simpl in Hrun.
    destruct (assign_spec C k Hk HC X 0 lbl false)
      as (lbl' & ch & Has & Hl & _ & _ & Hch); [simpl; lia |].
    rewrite Has in Hrun. simpl in Hrun.
    pose proof (assign_labels_lt C k X lbl lbl' false ch Hk HC Hlen Has) as Hlt'.
    destruct (update_spec X k lbl' C HC) as (C' & Hup & HC' & _);
      [lia | exact Hlt' |].
    rewrite Hup in Hrun. simpl in Hrun. destruct ch.
    + apply (IH C' lbl' r); try done; [lia |].
      apply (update_idempotent X k lbl' C C'); (done || lia).
    + destruct Hch as [Hch _]. destruct (Hch eq_refl) as [_ ->].
      rewrite Hset in Hup. injection Hup as <-.
      injection Hrun as <-. simpl. exact Has.
Qed.

Lemma init_done (X : list rgb) (k : nat) (draws : list Q) (used : gset Z)
    (C : list rgb) :
  (k <= length C)%nat -> init X k draws used C = Ret C.
Proof.
  intros H. destruct draws; simpl;
    (destruct (decide (length C < k)%nat); [lia | reflexivity]).
Qed.

End ClusterSteps.

Section ClusterClaims.

Local Open Scope Q_scope.

(** X2.  On an empty point list with [k >= 1], the first pass of the
    initialisation loop throws a [TypeError] at [X[i].slice()]: the index is
    [Math.floor(Math.random()*0) = 0] and [X[0]] is [undefined]. *)
Lemma kmeans_empty_points_throws (u : Q) (rest : list Q) (k maxIter : nat) :
  kmeans (u :: rest) [] (S k) maxIter = Throw TypeError.
Proof.
  unfold kmeans, kmeans_run. simpl init.
  destruct (decide (0 < S k)%nat); [| lia].
  destruct (decide (rng 0 u ∈ (∅ : gset Z))); [set_solver |].
  assert (rng 0 u = 0%Z) as ->; [| reflexivity].
  unfold rng. change (inject_Z (Z.of_nat 0)) with 0.
  rewrite (Qfloor_comp (u * 0) 0) by apply Qmult_0_r. reflexivity.
Qed.

(** C1, as amended.  [kmeans] checks none of its arguments.  On a non-empty
    point list with [1 <= k <= points.length], once the random values have
    selected [k] distinct indices it returns [k] centroids, without any
    exception. *)
Theorem kmeans_valid_arguments_return
    (draws : list Q) (X : list rgb) (k maxIter : nat) :
  (0 < k <= length X)%nat -> Forall unit_draw draws ->
  (k <= size (list_to_set (rng (length X) <$> draws) : gset Z))%nat ->
  exists C, kmeans draws X k maxIter = Ret C /\ length C = k.
Proof.
  intros Hk Hd Hcov. unfold kmeans, kmeans_run.
  destruct (init_returns X k draws ∅ []) as (C0 & Hinit & HC0);
    [lia | set_solver | by rewrite size_empty | simpl; lia | exact Hd
    | by rewrite (left_id_L ∅ (∪)) |].
  rewrite Hinit. simpl.
  destruct (lloyd_returns X k ltac:(lia) maxIter C0 (replicate (length X) 0%nat))
    as (r & Hr & HCr & _); [exact HC0 | apply length_replicate |].
  rewrite Hr. simpl. by exists (centroids r).
Qed.

Lemma kmeans_valid_arguments_return_witness :
  exists C, kmeans [0; 1 # 2] [RGB 0 0 0; RGB 1 1 1] 2 30 = Ret C /\
            length C = 2%nat.
Proof.
  apply kmeans_valid_arguments_return.
  - simpl. lia.
  - repeat constructor; discriminate.
  - vm_compute. lia.
Defined.

(** C1, the claim as stated fails: with [k = 3] on two points no exception is
    ever raised.  Whatever finite supply of values [Math.random] gives, the
    call is still inside its initialisation loop asking for the next one. *)
Lemma kmeans_three_of_two_never_fails :
  ~ exists draws, Forall unit_draw draws /\
      kmeans draws [RGB 0 0 0; RGB 1 1 1] 3 30 <> Starved.
Proof.
  intros (draws & Hd & Hne). apply Hne. unfold kmeans, kmeans_run.
  rewrite init_starves; [reflexivity | set_solver | by rewrite size_empty
                        | simpl; lia | exact Hd].
Qed.

(** C2, as amended.  [kmeans] has no seed parameter: it reads [Math.random].
    Two runs on the same points, [k] and [maxIter] whose random values select
    the same sequence of indices end with the same centroids and the same
    labels. *)
Theorem kmeans_same_indices_same_run
    (d1 d2 : list Q) (X : list rgb) (k maxIter : nat) :
  rng (length X) <$> d1 = rng (length X) <$> d2 ->
  kmeans_run d1 X k maxIter = kmeans_run d2 X k maxIter /\
  kmeans d1 X k maxIter = kmeans d2 X k maxIter.
Proof.
  intros H. unfold kmeans, kmeans_run.
  by rewrite (init_indices X k d1 d2 ∅ [] H).
Qed.

Lemma kmeans_same_indices_same_run_witness :
  kmeans_run [0; 1 # 2] [RGB 0 0 0; RGB 1 1 1] 2 30 =
  kmeans_run [1 # 4; 3 # 4] [RGB 0 0 0; RGB 1 1 1] 2 30 /\
  kmeans [0; 1 # 2] [RGB 0 0 0; RGB 1 1 1] 2 30 =
  kmeans [1 # 4; 3 # 4] [RGB 0 0 0; RGB 1 1 1] 2 30.
Proof. apply kmeans_same_indices_same_run. reflexivity. Defined.

(** C2, the claim as stated fails: the same points, [k] and [maxIter] give
    different centroid lists under different values of [Math.random]. *)
Lemma kmeans_depends_on_random_draws :
  kmeans [0; 1 # 2] [RGB 0 0 0; RGB 1 1 1] 2 30
    = Ret [RGB 0 0 0; RGB 1 1 1] /\
  kmeans [1 # 2; 0] [RGB 0 0 0; RGB 1 1 1] 2 30
    = Ret [RGB 1 1 1; RGB 0 0 0].
Proof. split; vm_compute; reflexivity. Qed.

(** C5, on the failing input.  Points [[0,0,0],[0,0,0],[1,1,1]], [k = 2],
    random indices 0 and 1: the first iteration finds every point nearest
    to centroid 0, which is what the initial labels say, so [changed] stays
    [false]; the update still moves centroid 0 to the mean, and the loop
    breaks.  One more assignment step against the returned centroids
    rewrites two labels. *)
Theorem kmeans_early_exit_not_fixed_point :
  exists r,
    kmeans_run [0; 1 # 2] [RGB 0 0 0; RGB 0 0 0; RGB 1 1 1] 2 30 = Ret r /\
    early r = true /\
    labels r = [0; 0; 0]%nat /\
    centroids r = [RGB (1 # 3) (1 # 3) (1 # 3); RGB 0 0 0] /\
    assign (centroids r) 2 [RGB 0 0 0; RGB 0 0 0; RGB 1 1 1] 0 (labels r) false
      = Ret ([1; 1; 0]%nat, true).
Proof.
  eexists. split; [vm_compute; reflexivity |].
  repeat split; vm_compute; reflexivity.
Qed.

End ClusterClaims.

Section SegmentFacts.

Import Segment.
Local Open Scope Q_scope.

Lemma Qabs_le_cases (a b : Q) :
  (a <= b /\ - a <= b) \/ (a <= - b /\ - a <= - b) -> Qabs a <= Qabs b.
Proof.
  intros [[H1 H2]|[H1 H2]];
    apply (Qabs_case a); intros Ha; apply (Qabs_case b); intros Hb; lra.
Qed.

(** [Math.round] and the clamped store give a nearest integer of
    [0 .. 255]. *)
Lemma clamp8_round_nearest (q : Q) : nearest_level q (clamp8 (Math_round q)).
Proof.
  unfold Math_round. set (r := Qfloor (q + (1 # 2))).
  pose proof (Qfloor_le (q + (1 # 2))) as H1. fold r in H1.
  pose proof (Qlt_floor (q + (1 # 2))) as H2. fold r in H2.
  rewrite inject_Z_plus in H2. change (inject_Z 1) with 1 in H2.
  unfold nearest_level, clamp8. split; [lia |].
  intros t Ht.
  assert (Hcases : (r < 0 /\ Z.max 0 (Z.min 255 r) = 0)%Z \/
                   (255 < r /\ Z.max 0 (Z.min 255 r) = 255)%Z \/
                   (0 <= r <= 255 /\ Z.max 0 (Z.min 255 r) = r)%Z) by lia.
  destruct Ht as [Ht0 Ht1]. rewrite Zle_Qle in Ht0, Ht1.
  change (inject_Z 0) with 0 in Ht0. change (inject_Z 255) with 255 in Ht1.
  destruct Hcases as [[Hr ->]|[[Hr ->]|[Hr ->]]].
  - assert (Hr' : (r + 1 <= 0)%Z) by lia. rewrite Zle_Qle, inject_Z_plus in Hr'.
    change (inject_Z 1) with 1 in Hr'. change (inject_Z 0) with 0 in *.
    apply Qabs_le_cases. lra.
  - assert (Hr' : (255 + 1 <= r)%Z) by lia. rewrite Zle_Qle in Hr'.
    change (inject_Z (255 + 1)) with 256 in Hr'. change (inject_Z 255) with 255.
    apply Qabs_le_cases. lra.
  - destruct (Z.lt_trichotomy t r) as [Hlt|[->|Hgt]].
    + assert (Hr' : (t + 1 <= r)%Z) by lia. rewrite Zle_Qle, inject_Z_plus in Hr'.
      change (inject_Z 1) with 1 in Hr'.
      apply Qabs_le_cases. lra.
    + apply Qle_refl.
    + assert (Hr' : (r + 1 <= t)%Z) by lia. rewrite Zle_Qle, inject_Z_plus in Hr'.
      change (inject_Z 1) with 1 in Hr'.
      apply Qabs_le_cases. lra.
Qed.

Lemma read3_in_range (px : list Q) (p : nat) :
  (p * 3 + 2 < length px)%nat -> is_Some (read3 px (p * 3)).
Proof.
  intros H. unfold read3.
  destruct (lookup_lt_is_Some_2 px (p * 3)) as [r ->]; [lia |].
  destruct (lookup_lt_is_Some_2 px (p * 3 + 1)) as [g ->]; [lia |].
  destruct (lookup_lt_is_Some_2 px (p * 3 + 2)) as [b ->]; [lia |].
  by eexists.
Qed.

(** A loop whose body keeps [I], only extends what holds ([ext]) and
    establishes [E i] at index [i]. *)
Lemma for_each_spec {S : Type} (body : S -> nat -> outcome S)
    (I : S -> Prop) (ext : S -> S -> Prop) (E : nat -> S -> Prop) :
  (forall s, ext s s) ->
  (forall s1 s2 s3, ext s1 s2 -> ext s2 s3 -> ext s1 s3) ->
  (forall i s s', E i s -> ext s s' -> E i s') ->
  forall idx : list nat,
    (forall i s, i ∈ idx -> I s ->
       exists s', body s i = Ret s' /\ I s' /\ ext s s' /\ E i s') ->
    forall s, I s ->
      exists s', for_each body idx s = Ret s' /\ I s' /\ ext s s' /\
                 forall i, i ∈ idx -> E i s'.
Proof.
  intros Hrefl Htrans Hmono.
  induction idx as [|i rest IH]; intros Hbody s Hs.
  - exists s. simpl. split_and!; try done. intros i Hi. by apply elem_of_nil in Hi.
  - destruct (Hbody i s) as (s1 & Hrun & Hs1 & Hext & Hi); [left | done |].
    destruct (IH (fun j t Hj => Hbody j t (list_elem_of_further _ _ _ Hj)) s1 Hs1)
      as (s2 & Hrun2 & Hs2 & Hext2 & Hall).
    exists s2. simpl. rewrite Hrun. simpl. split_and!; try done.
    + by eapply Htrans.
    + intros j [->|Hj]%elem_of_cons; [by eapply Hmono | by apply Hall].
Qed.

End SegmentFacts.

Section CameraFacts.

Import Camera.
Local Open Scope R_scope.

(** C8.  The screen position that [drawPlot] computes is: rotate the point
    about the horizontal axis by [rotXVal], rotate the result about the
    vertical axis by [rotYVal], then
    [sx = width/2 + panX + rotated.x * scale] and
    [sy = height/2 + panY - rotated.y * scale], with
    [scale = min(width, height)/2 * zoomVal].  It is a function of the
    point, the view and the canvas size alone. *)
Theorem project_rotates_x_then_y (cv : canvas) (v : view) (p : vec3) :
  project cv v p =
  let rotated := rotate_vertical (rotYVal v) (rotate_horizontal (rotXVal v) p) in
  let scale := Rmin (width cv) (height cv) / 2 * zoomVal v in
  (width cv / 2 + panX v + rotated.1.1 * scale,
   height cv / 2 + panY v - rotated.1.2 * scale).
Proof.
  destruct p as [[p0 p1] p2].
  unfold project, rotationMatrixX, rotationMatrixY, mulMat,
    rotate_vertical, rotate_horizontal. simpl.
  f_equal; ring.
Qed.

Lemma point2_neq (a b : point2) : a <> b -> x a <> x b \/ y a <> y b.
Proof.
  destruct a as [ax ay], b as [bx by']. simpl. intros Hne.
  destruct (Req_dec ax bx) as [->|Hx]; [| left; exact Hx].
  destruct (Req_dec ay by') as [->|Hy]; [| right; exact Hy].
  exfalso. apply Hne. reflexivity.
Qed.

Lemma distance_pos (a b : point2) : a <> b -> 0 < distance a b.
Proof.
  intros Hne. unfold distance. apply sqrt_lt_R0.
  pose proof (Rle_0_sqr (x a - x b)) as Hx.
  pose proof (Rle_0_sqr (y a - y b)) as Hy.
  destruct (point2_neq a b Hne) as [H|H].
  - assert (H' : x a - x b <> 0) by lra.
    apply Rsqr_pos_lt in H'. unfold Rsqr in *. lra.
  - assert (H' : y a - y b <> 0) by lra.
    apply Rsqr_pos_lt in H'. unfold Rsqr in *. lra.
Qed.

Lemma distance_same (a : point2) : distance a a = 0.
Proof.
  unfold distance.
  replace ((x a - x a) * (x a - x a) + (y a - y a) * (y a - y a)) with 0 by ring.
  apply sqrt_0.
Qed.

Lemma rotate_zoom (v : view) (l : option point2) (p : point2) :
  zoomVal (rotate v l p) = zoomVal v.
Proof. by destruct l. Qed.

Lemma pinch_zoom_nonneg (v : view) (g : gesture) (a b : point2) :
  0 <= zoomVal v -> (forall d, lastPinchDist g = Some d -> 0 < d) -> a <> b ->
  0 <= zoomVal (pinch v g a b).
Proof.
  intros Hz Hd Hne. pose proof (distance_pos a b Hne) as Hdist.
  unfold pinch.
  assert (0 <= match lastPinchDist g with
               | Some d => zoomVal v * (distance a b / d)
               | None => zoomVal v
               end) as Hpos.
  { destruct (lastPinchDist g) as [d|]; [| exact Hz].
    apply Rmult_le_pos; [exact Hz |].
    apply Rlt_le, Rdiv_lt_0_compat; [exact Hdist | by apply Hd]. }
  by destruct (lastMid g).
Qed.

Lemma handle_zoom_ok (s : state) (e : event) :
  zoom_ok s -> gentle e -> apart (handle s e) -> zoom_ok (handle s e).
Proof.
  intros [Hz Hd] Hg. destruct e as [id cx cy|id cx cy|id|id|dy];
    cbn [handle].
  - unfold pointerdown, apart, zoom_ok.
    destruct (set (pointers (ges s)) id (P2 cx cy))
      as [|[k1 a] [|[k2 b] [|? ?]]]; cbn [cam ges pointers lastPinchDist];
      intros Hap; (split; [exact Hz |]); try exact Hd.
    intros d [= <-]. by apply distance_pos.
  - unfold pointermove, apart, zoom_ok.
    destruct (has (pointers (ges s)) id); [| intros _; by split].
    destruct (set (pointers (ges s)) id (P2 cx cy))
      as [|[k1 a] [|[k2 b] [|? ?]]]; cbn [cam ges pointers lastPinchDist];
      intros Hap.
    + by split.
    + split; [by rewrite rotate_zoom | exact Hd].
    + split; [by apply pinch_zoom_nonneg |].
      intros d [= <-]. by apply distance_pos.
    + by split.
  - intros _. split; [exact Hz | discriminate].
  - intros _. split; [exact Hz | discriminate].
  - intros _. cbn [gentle] in Hg. split; [| exact Hd].
    unfold wheel. cbn [cam zoomVal].
    apply Rmult_le_pos; [exact Hz | lra].
Qed.

Lemma handle_all_zoom_ok (evs : list event) :
  forall s, zoom_ok s -> Forall gentle evs -> stays_apart s evs ->
    zoom_ok (handle_all s evs).
Proof.
  induction evs as [|e rest IH]; intros s Hs Hg Hap; [exact Hs |].
  apply Forall_cons in Hg as [Hge Hg]. destruct Hap as [Hape Hap].
  simpl. apply IH; [by apply handle_zoom_ok | exact Hg | exact Hap].
Qed.

Lemma stays_apart_take (evs : list event) :
  forall s n, stays_apart s evs -> stays_apart s (take n evs).
Proof.
  induction evs as [|e rest IH]; intros s [|n] H; simpl; try done.
  destruct H as [H1 H2]. split; [exact H1 | by apply IH].
Qed.

Lemma distance_on_row (a b c : R) :
  a <= b -> distance (P2 a c) (P2 b c) = b - a.
Proof.
  intros Hab. unfold distance. cbn [x y].
  replace ((a - b) * (a - b) + (c - c) * (c - c)) with ((b - a) * (b - a)) by ring.
  apply sqrt_square. lra.
Qed.

Lemma distance_nonzero (a b : point2) : a <> b -> distance a b <> 0.
Proof. intros H%distance_pos. lra. Qed.

Lemma handle_baseline_nonzero (s : state) (e : event) :
  baseline_nonzero s -> apart (handle s e) -> baseline_nonzero (handle s e).
Proof.
  intros Hd. destruct e as [id cx cy|id cx cy|id|id|dy]; cbn [handle].
  - unfold pointerdown, apart, baseline_nonzero.
    destruct (set (pointers (ges s)) id (P2 cx cy))
      as [|[k1 a] [|[k2 b] [|? ?]]]; cbn [cam ges pointers lastPinchDist];
      intros Hap; try exact Hd.
    intros d [= <-]. by apply distance_nonzero.
  - unfold pointermove, apart, baseline_nonzero.
    destruct (has (pointers (ges s)) id); [| intros _; exact Hd].
    destruct (set (pointers (ges s)) id (P2 cx cy))
      as [|[k1 a] [|[k2 b] [|? ?]]]; cbn [cam ges pointers lastPinchDist];
      intros Hap; try exact Hd.
    intros d [= <-]. by apply distance_nonzero.
  - intros _ d. discriminate.
  - intros _ d. discriminate.
  - intros _. exact Hd.
Qed.

Lemma pinch_divisor_baseline (s : state) (e : event) (d : R) :
  pinch_divisor s e = Some d -> lastPinchDist (ges s) = Some d.
Proof.
  destruct e as [id cx cy|id cx cy|id|id|dy]; try discriminate.
  unfold pinch_divisor. destruct (has (pointers (ges s)) id); [| discriminate].
  by destruct (set (pointers (ges s)) id (P2 cx cy)) as [|? [|? [|? ?]]].
Qed.

Lemma divisions_defined_from (evs : list event) :
  forall s, baseline_nonzero s -> stays_apart s evs -> divisions_defined s evs.
Proof.
  induction evs as [|e rest IH]; intros s Hs Hap; [exact I |].
  destruct Hap as [Hape Hap]. split.
  - intros d Hd%pinch_divisor_baseline. by apply Hs.
  - apply IH; [by apply handle_baseline_nonzero | exact Hap].
Qed.

Lemma set_length_has (m : list (Z * point2)) (id : Z) (p : point2) :
  has m id = true -> length (set m id p) = length m.
Proof.
  induction m as [|[k v] m IH]; [discriminate |].
  unfold has. cbn [existsb set fst]. destruct (Z.eqb k id); [reflexivity |].
  cbn [orb]. intros H. cbn [length]. f_equal. by apply IH.
Qed.

(** C3, as amended.  Nothing clamps the zoom, and it does not stay
    strictly positive: a product of factors below 1 comes as close to 0 as
    one likes, and in binary64 reaches 0.  What the listeners keep is the
    sign: starting from a zoom that is not negative (and a positive or
    absent cached pinch distance), the zoom is not negative after any event
    of a sequence in which every wheel event has [deltaY < 1000] and,
    whenever exactly two pointers are tracked, they are at distinct
    positions. *)
Theorem zoom_never_negative (s : state) (evs : list event) :
  0 <= zoomVal (cam s) ->
  (forall d, lastPinchDist (ges s) = Some d -> 0 < d) ->
  Forall gentle evs -> stays_apart s evs ->
  forall n : nat, ~ zoomVal (cam (handle_all s (take n evs))) < 0.
Proof.
  intros Hz Hd Hg Hap n.
  destruct (handle_all_zoom_ok (take n evs) s) as [H _]; [by split | | | lra].
  - by apply Forall_take.
  - by apply stays_apart_take.
Qed.

Lemma zoom_never_negative_witness :
  ~ zoomVal (cam (handle_all initial
        (take 5 [PointerDown 1 0 0; PointerDown 2 3 4; PointerMove 2 6 8;
                 Wheel 100; PointerUp 1]))) < 0.
Proof.
  apply (zoom_never_negative initial
           [PointerDown 1 0 0; PointerDown 2 3 4; PointerMove 2 6 8;
            Wheel 100; PointerUp 1]).
  - cbn. lra.
  - intros d. discriminate.
  - repeat constructor. cbn. lra.
  - cbn. repeat split; intros [= H1 H2]; lra.
Defined.

(** C3, the claim as stated fails: one wheel event with [deltaY = 2000]
    takes the zoom from 1.2 to -1.2. *)
Lemma wheel_drives_zoom_negative :
  0 < zoomVal (cam initial) /\
  zoomVal (cam (handle initial (Wheel 2000))) < 0.
Proof. cbn. lra. Qed.

(** C9, as amended.  While more than two pointers are tracked, a move event
    records the position of its pointer, if tracked, and changes nothing
    else: the view and the cached pinch distance, midpoint and single
    position stay as they were. *)
Theorem extra_pointers_suppress_camera (s : state) (id : Z) (cx cy : R) :
  (2 < length (pointers (ges s)))%nat ->
  cam (handle s (PointerMove id cx cy)) = cam s /\
  lastPinchDist (ges (handle s (PointerMove id cx cy))) = lastPinchDist (ges s) /\
  lastMid (ges (handle s (PointerMove id cx cy))) = lastMid (ges s) /\
  lastSingle (ges (handle s (PointerMove id cx cy))) = lastSingle (ges s) /\
  pointers (ges (handle s (PointerMove id cx cy))) =
    if has (pointers (ges s)) id then set (pointers (ges s)) id (P2 cx cy)
    else pointers (ges s).
Proof.
  intros Hlen. cbn [handle]. unfold pointermove.
  destruct (has (pointers (ges s)) id) eqn:Hhas; [| done].
  pose proof (set_length_has (pointers (ges s)) id (P2 cx cy) Hhas) as Hset.
  destruct (set (pointers (ges s)) id (P2 cx cy))
    as [|[k1 a] [|[k2 b] [|? ?]]]; cbn [length] in Hset; try lia.
  done.
Qed.

Lemma extra_pointers_suppress_camera_witness :
  cam (handle (handle_all initial
                 [PointerDown 1 0 0; PointerDown 2 1 0; PointerDown 3 5 5])
              (PointerMove 2 2 0)) =
  cam (handle_all initial
         [PointerDown 1 0 0; PointerDown 2 1 0; PointerDown 3 5 5]).
Proof.
  apply (extra_pointers_suppress_camera
           (handle_all initial
              [PointerDown 1 0 0; PointerDown 2 1 0; PointerDown 3 5 5])
           2 2 0).
  cbn. lia.
Defined.

(** C9, the claim as stated fails: with three pointers down, moving the
    second one from (1,0) to (2,0) doubles the distance between the first
    two, but the zoom stays 1.2; the two-pointer update computed from the
    first two pointers would have made it 2.4. *)
Lemma third_pointer_suppresses_pinch :
  pointers (ges (handle_all initial
      [PointerDown 1 0 0; PointerDown 2 1 0; PointerDown 3 5 5;
       PointerMove 2 2 0]))
    = [(1%Z, P2 0 0); (2%Z, P2 2 0); (3%Z, P2 5 5)] /\
  zoomVal (cam (handle_all initial
      [PointerDown 1 0 0; PointerDown 2 1 0; PointerDown 3 5 5])) = 12 / 10 /\
  zoomVal (cam (handle_all initial
      [PointerDown 1 0 0; PointerDown 2 1 0; PointerDown 3 5 5;
       PointerMove 2 2 0])) = 12 / 10 /\
  zoomVal (pinch
      (cam (handle_all initial
         [PointerDown 1 0 0; PointerDown 2 1 0; PointerDown 3 5 5]))
      (ges (handle_all initial
         [PointerDown 1 0 0; PointerDown 2 1 0; PointerDown 3 5 5]))
      (P2 0 0) (P2 2 0)) = 24 / 10.
Proof.
  split_and!; try reflexivity.
  cbn -[distance]. rewrite !distance_on_row by lra. field.
Qed.

(** C10, as amended.  After a pointer-down that leaves exactly two tracked
    pointers at distinct positions, every division [dist / lastPinchDist] of
    the following events divides by a nonzero value, provided that the two
    tracked pointers are at distinct positions after each of those events
    too: every move replaces the cached distance with the current one. *)
Theorem pinch_divisions_defined (s : state) (id : Z) (cx cy : R) (evs : list event) :
  length (pointers (ges (handle s (PointerDown id cx cy)))) = 2%nat ->
  apart (handle s (PointerDown id cx cy)) ->
  stays_apart (handle s (PointerDown id cx cy)) evs ->
  divisions_defined (handle s (PointerDown id cx cy)) evs.
Proof.
  intros Hlen Hap Hstay. apply divisions_defined_from; [| exact Hstay].
  revert Hlen Hap. cbn [handle]. unfold pointerdown, apart, baseline_nonzero.
  destruct (set (pointers (ges s)) id (P2 cx cy))
    as [|[k1 a] [|[k2 b] [|? ?]]]; cbn [cam ges pointers lastPinchDist length];
    intros Hlen Hap; try discriminate.
  intros d [= <-]. by apply distance_nonzero.
Qed.

Lemma pinch_divisions_defined_witness :
  divisions_defined
    (handle (handle initial (PointerDown 1 0 0)) (PointerDown 2 3 4))
    [PointerMove 2 6 8; PointerMove 1 1 1].
Proof.
  apply (pinch_divisions_defined (handle initial (PointerDown 1 0 0)) 2 3 4).
  - reflexivity.
  - cbn. intros [= H1 H2]. lra.
  - cbn. repeat split; intros [= H1 H2]; lra.
Defined.

(** C10, the claim as stated fails: two pointers go down at (0,0) and
    (1,0), distinct, and the cached distance is 1; the second pointer moves
    onto the first, which caches the distance 0; its next move divides
    by 0. *)
Lemma pinch_baseline_collapses :
  apart (handle_all initial [PointerDown 1 0 0; PointerDown 2 1 0]) /\
  lastPinchDist (ges (handle_all initial [PointerDown 1 0 0; PointerDown 2 1 0]))
    = Some 1 /\
  pinch_divisor
    (handle_all initial [PointerDown 1 0 0; PointerDown 2 1 0; PointerMove 2 0 0])
    (PointerMove 2 1 0) = Some 0.
Proof.
  split_and!.
  - cbn. intros [= H1]. lra.
  - cbn -[distance]. f_equal. rewrite distance_on_row by lra. lra.
  - cbn -[distance]. f_equal. apply distance_same.
Qed.

End CameraFacts.

Section ClusterMore.

Import Pipeline.
Local Open Scope Q_scope.

(** X1.  With more clusters asked than there are points, [kmeans] never returns
    a centroid list, whatever [Math.random] gives: the call throws or stays
    in its initialisation loop. *)
Theorem kmeans_too_many_clusters_never_returns
    (draws : list Q) (X : list rgb) (k maxIter : nat) (C : list rgb) :
  (length X < k)%nat -> kmeans draws X k maxIter <> Ret C.
Proof.
  intros Hk. unfold kmeans, kmeans_run.
  destruct (init X k draws ∅ []) as [C0| |] eqn:Hinit; try discriminate.
  exfalso. revert Hinit. apply init_no_return; [set_solver | | exact Hk].
  by rewrite size_empty.
Qed.

Lemma kmeans_too_many_clusters_never_returns_witness :
  kmeans [0; 1 # 2; 3 # 4] [RGB 0 0 0; RGB 1 1 1] 3 30 <> Ret [RGB 0 0 0].
Proof.
  apply kmeans_too_many_clusters_never_returns. simpl. lia.
Defined.

(** X3.  With [k = 0] and at least one point, the first iteration throws a
    [TypeError] at [dist2(x, C[0])]; with no iteration allowed, or with no
    point, the result is the empty centroid list. *)
Theorem kmeans_zero_clusters
    (draws : list Q) (x : rgb) (X : list rgb) (m : nat) :
  kmeans draws (x :: X) 0 (S m) = Throw TypeError /\
  kmeans draws (x :: X) 0 0 = Ret [] /\
  kmeans draws [] 0 m = Ret [].
Proof.
  unfold kmeans, kmeans_run. rewrite !init_done by (simpl; lia).
  split_and!; try reflexivity. destruct m; reflexivity.
Qed.

(** The initialisation loop, started on [used] and [C] that list the same
    picks, ends with [k] centroids that are the points of [X] at pairwise
    distinct indices. *)
Lemma init_picks (X : list rgb) (k : nat) (draws : list Q) :
  forall (used : gset Z) (idx : list Z) (C C' : list rgb),
    used = list_to_set idx -> NoDup idx ->
    Forall2 (fun i c => index X i = Some c) idx C -> (length C <= k)%nat ->
    init X k draws used C = Ret C' ->
    exists idx', NoDup idx' /\ length C' = k /\
      Forall2 (fun i c => index X i = Some c) idx' C'.
Proof.
  induction draws as [|u rest IH]; intros used idx C C' Hused Hnd Hall Hle.
  - simpl. destruct (decide (length C < k)%nat); [discriminate |].
    intros [= <-]. exists idx. split_and!; [done | lia | done].
  - simpl. destruct (decide (length C < k)%nat);
      [| intros [= <-]; exists idx; split_and!; [done | lia | done]].
    destruct (decide (rng (length X) u ∈ used)) as [Hin|Hout];
      [by apply (IH used idx) |].
    destruct (index X (rng (length X) u)) as [p|] eqn:Hp; [| discriminate].
    apply (IH _ (idx ++ [rng (length X) u])).
    + rewrite list_to_set_app_L, Hused. simpl. set_solver.
    + apply NoDup_app. split_and!; [done | | apply NoDup_singleton].
      intros i Hi [->|[]%elem_of_nil]%elem_of_cons.
      apply Hout. rewrite Hused. by apply elem_of_list_to_set.
    + apply Forall2_app; [done |]. by constructor.
    + rewrite length_app. simpl. lia.
Qed.

(** X4.  With no iteration allowed, [kmeans] returns [k] points of [X], taken at
    pairwise distinct indices, unchanged. *)
Theorem kmeans_no_iteration_returns_picks
    (draws : list Q) (X : list rgb) (k : nat) (C : list rgb) :
  kmeans draws X k 0 = Ret C ->
  exists idx, NoDup idx /\ length C = k /\
    Forall2 (fun i c => index X i = Some c) idx C.
Proof.
  unfold kmeans, kmeans_run.
  destruct (init X k draws ∅ []) as [C0| |] eqn:Hinit; try discriminate.
  simpl. intros [= <-].
  apply (init_picks X k draws ∅ [] [] C0); try done.
  - apply NoDup_nil_2.
  - simpl. lia.
Qed.

Lemma kmeans_no_iteration_returns_picks_witness :
  exists idx, NoDup idx /\ length [RGB 1 1 1; RGB 0 0 0] = 2%nat /\
    Forall2 (fun i c => index [RGB 0 0 0; RGB 1 1 1; RGB 0 1 0] i = Some c)
            idx [RGB 1 1 1; RGB 0 0 0].
Proof.
  apply (kmeans_no_iteration_returns_picks [1 # 2; 1 # 3; 0]
           [RGB 0 0 0; RGB 1 1 1; RGB 0 1 0] 2).
  vm_compute. reflexivity.
Defined.

Lemma members_Forall (P : rgb -> Prop) (X : list rgb) :
  Forall P X -> forall lbl j, Forall P (members X lbl j).
Proof.
  induction 1 as [|x X Hx HX IH]; intros [|l lbl] j; try by constructor.
  rewrite members_cons. destruct (decide (l = j)); [constructor |]; auto.
Qed.

Lemma sum3_bounds (ps : list rgb) :
  Forall in_unit ps ->
  (0 <= ch0 (sum3 ps) /\ ch0 (sum3 ps) <= ofnat (length ps)) /\
  (0 <= ch1 (sum3 ps) /\ ch1 (sum3 ps) <= ofnat (length ps)) /\
  (0 <= ch2 (sum3 ps) /\ ch2 (sum3 ps) <= ofnat (length ps)).
Proof.
  induction 1 as [|p ps Hp Hps IH].
  - cbn. unfold Qle. simpl. lia.
  - assert (Hn : ofnat (length (p :: ps)) == 1 + ofnat (length ps)).
    { unfold ofnat. cbn [length]. rewrite Nat2Z.inj_succ, <- Z.add_1_l.
      rewrite inject_Z_plus. reflexivity. }
    rewrite Hn. cbn [sum3 add3 ch0 ch1 ch2].
    destruct Hp as ((?&?)&(?&?)&(?&?)). destruct IH as ((?&?)&(?&?)&(?&?)).
    repeat split; lra.
Qed.

Lemma ofnat_pos (n : nat) : (0 < n)%nat -> 0 < ofnat n.
Proof.
  intros H. unfold ofnat. change 0 with (inject_Z 0). rewrite <- Zlt_Qlt. lia.
Qed.

Lemma mean3_in_unit (ps : list rgb) :
  ps <> [] -> Forall in_unit ps -> in_unit (mean3 ps).
Proof.
  intros Hne Hall.
  assert (Hn : 0 < ofnat (length ps))
    by (apply ofnat_pos; destruct ps; [done | simpl; lia]).
  destruct (sum3_bounds ps Hall) as ((?&?)&(?&?)&(?&?)).
  unfold mean3, div3, in_unit. cbn [ch0 ch1 ch2].
  repeat split;
    (apply Qle_shift_div_l; [exact Hn | lra]) ||
    (apply Qle_shift_div_r; [exact Hn | lra]).
Qed.

Lemma in_unit_eq3 (a b : rgb) : eq3 a b -> in_unit b -> in_unit a.
Proof.
  intros (H0 & H1 & H2). unfold in_unit. rewrite H0, H1, H2. tauto.
Qed.

(** An update keeps the centroids in the unit cube when the points are. *)
Lemma update_in_unit (X : list rgb) (k : nat) (lbl : list nat) (C C' : list rgb) :
  length C = k -> length lbl = length X ->
  Forall (fun l => (l < k)%nat) lbl ->
  Forall in_unit X -> Forall in_unit C ->
  update X k lbl C = Ret C' -> Forall in_unit C'.
Proof.
  intros HC Hlen Hlt HX HCu Hup.
  destruct (update_spec X k lbl C HC Hlen Hlt) as (C2 & Hup2 & HC2 & Hmean).
  rewrite Hup in Hup2. injection Hup2 as <-.
  apply Forall_lookup. intros j c Hj.
  assert (Hjk : (j < k)%nat) by (apply lookup_lt_Some in Hj; lia).
  destruct (Hmean j Hjk) as [Hkeep Hnew].
  destruct (members X lbl j) as [|p ps] eqn:Hm.
  - rewrite Hkeep in Hj by done. by eapply Forall_lookup_1.
  - destruct Hnew as (c' & Hc' & Heq); [done |].
    rewrite Hj in Hc'. injection Hc' as <-.
    eapply in_unit_eq3; [exact Heq |].
    apply mean3_in_unit; [done |]. rewrite <- Hm. by apply members_Forall.
Qed.

Lemma lloyd_in_unit (X : list rgb) (k : nat) :
  (0 < k)%nat -> Forall in_unit X ->
  forall (iters : nat) (C : list rgb) (lbl : list nat) (r : run),
    length C = k -> length lbl = length X -> Forall in_unit C ->
    lloyd X k iters C lbl = Ret r -> Forall in_unit (centroids r).
Proof.
  intros Hk HX. induction iters as [|m IH]; intros C lbl r HC Hlen HCu Hrun.
  - simpl in Hrun. by injection Hrun as <-.
  - simpl in Hrun.
    destruct (assign_spec C k Hk HC X 0 lbl false) as (lbl' & ch & Has & Hl & _);
      [simpl; lia |].
    rewrite Has in Hrun. simpl in Hrun.
    pose proof (assign_labels_lt C k X lbl lbl' false ch Hk HC Hlen Has) as Hlt.
    destruct (update_spec X k lbl' C HC) as (C' & Hup & HC' & _);
      [lia | exact Hlt |].
    rewrite Hup in Hrun. simpl in Hrun.
    assert (HCu' : Forall in_unit C')
      by (apply (update_in_unit X k lbl' C C'); (done || lia)).
    destruct ch.
    + apply (IH C' lbl' r); (done || lia).
    + by injection Hrun as <-.
Qed.

Lemma lloyd_zero_clusters (X : list rgb) (iters : nat) (lbl : list nat) (r : run) :
  lloyd X 0 iters [] lbl = Ret r -> centroids r = [].
Proof.
  destruct iters as [|m]; simpl; [by intros [= <-] |].
  destruct X as [|x X]; simpl; [by intros [= <-] | discriminate].
Qed.

Lemma index_elem_of {A} (l : list A) (i : Z) (a : A) :
  index l i = Some a -> a ∈ l.
Proof.
  unfold index. destruct (i <? 0)%Z; [discriminate |].
  apply list_elem_of_lookup_2.
Qed.

(** X5.  Points in the unit cube give centroids in the unit cube: a returned
    centroid is one of the points or a mean of some of them. *)
Theorem kmeans_centroids_in_unit_cube
    (draws : list Q) (X : list rgb) (k maxIter : nat) (C : list rgb) :
  Forall in_unit X -> kmeans draws X k maxIter = Ret C -> Forall in_unit C.
Proof.
  intros HX. unfold kmeans, kmeans_run.
  destruct (init X k draws ∅ []) as [C0| |] eqn:Hinit; try discriminate.
  cbn [obind].
  destruct (lloyd X k maxIter C0 (replicate (length X) 0%nat)) as [r| |] eqn:Hr;
    try discriminate.
  cbn [obind]. intros [= <-].
  destruct (init_picks X k draws ∅ [] [] C0 eq_refl NoDup_nil_2)
    as (idx & _ & HC0 & Hidx); [constructor | simpl; lia | exact Hinit |].
  destruct (decide (k = 0)%nat) as [->|Hk].
  - destruct C0; [| discriminate].
    rewrite (lloyd_zero_clusters X maxIter _ r Hr). constructor.
  - apply (lloyd_in_unit X k ltac:(lia) HX maxIter C0
             (replicate (length X) 0%nat) r HC0);
      [apply length_replicate | | exact Hr].
    apply Forall_forall. intros c Hc.
    apply list_elem_of_lookup in Hc as [j Hj].
    destruct (Forall2_lookup_r _ _ _ _ _ Hidx Hj) as (i & _ & Hi).
    apply index_elem_of in Hi. by eapply Forall_forall in HX.
Qed.

Lemma kmeans_centroids_in_unit_cube_witness :
  Forall in_unit [RGB (1 # 3) (1 # 3) (1 # 3); RGB 0 0 0].
Proof.
  apply (kmeans_centroids_in_unit_cube [0; 1 # 2]
           [RGB 0 0 0; RGB 0 0 0; RGB 1 1 1] 2 30).
  - repeat constructor; discriminate.
  - vm_compute. reflexivity.
Defined.

(** X6.  An early exit after a first iteration that rewrote at least one label is
    a fixed point of the assignment step. *)
Theorem kmeans_early_exit_fixed_point
    (draws : list Q) (X : list rgb) (k maxIter : nat)
    (C0 : list rgb) (lbl1 : list nat) (r : run) :
  (0 < k)%nat ->
  init X k draws ∅ [] = Ret C0 ->
  assign C0 k X 0 (replicate (length X) 0%nat) false = Ret (lbl1, true) ->
  kmeans_run draws X k maxIter = Ret r -> early r = true ->
  assign (centroids r) k X 0 (labels r) false = Ret (labels r, false).
Proof.
  intros Hk Hinit Has. unfold kmeans_run. rewrite Hinit. cbn [obind].
  destruct (init_picks X k draws ∅ [] [] C0 eq_refl NoDup_nil_2)
    as (idx & _ & HC0 & _); [constructor | simpl; lia | exact Hinit |].
  destruct maxIter as [|m]; [intros [= <-]; discriminate |].
  cbn [lloyd]. rewrite Has. cbn [obind].
  assert (Hlen : length (replicate (length X) 0%nat) = length X)
    by apply length_replicate.
  pose proof (assign_labels_lt C0 k X _ lbl1 false true Hk HC0 Hlen Has) as Hlt.
  destruct (assign_spec C0 k Hk HC0 X 0 (replicate (length X) 0%nat) false)
    as (l2 & c2 & Has2 & Hl & _); [simpl; lia |].
  rewrite Has in Has2. injection Has2 as <- <-.
  destruct (update_spec X k lbl1 C0 HC0) as (C1 & Hup & HC1 & _);
    [lia | exact Hlt |].
  rewrite Hup. cbn [obind]. intros Hrun He.
  apply (lloyd_fixed_point X k Hk m C1 lbl1 r); try done; [lia |].
  apply (update_idempotent X k lbl1 C0 C1); (done || lia).
Qed.

Lemma kmeans_early_exit_fixed_point_witness :
  assign [RGB 0 0 0; RGB 1 1 1] 2 [RGB 0 0 0; RGB 1 1 1] 0 [0; 1]%nat false
    = Ret ([0; 1]%nat, false).
Proof.
  apply (kmeans_early_exit_fixed_point [0; 1 # 2] [RGB 0 0 0; RGB 1 1 1] 2 30
           [RGB 0 0 0; RGB 1 1 1] [0; 1]%nat
           (Run [RGB 0 0 0; RGB 1 1 1] [0; 1]%nat true)).
  - lia.
  - vm_compute. reflexivity.
  - vm_compute. reflexivity.
  - vm_compute. reflexivity.
  - reflexivity.
Defined.

End ClusterMore.

Section ClusterCost.

Import Pipeline.
Local Open Scope Q_scope.

Lemma Qsquare_nonneg (a : Q) : 0 <= a * a.
Proof. destruct a as [n d]. unfold Qle. simpl. nia. Qed.

Lemma dist2_nonneg (a b : rgb) : 0 <= dist2 a b.
Proof.
  unfold dist2. cbv zeta.
  pose proof (Qsquare_nonneg (ch0 a - ch0 b)).
  pose proof (Qsquare_nonneg (ch1 a - ch1 b)).
  pose proof (Qsquare_nonneg (ch2 a - ch2 b)). lra.
Qed.


Lemma term_nonneg (C : list rgb) (x : rgb) (l : nat) : 0 <= term C x l.
Proof.
  unfold term. destruct (C !! l); [apply dist2_nonneg | apply Qle_refl].
Qed.














End ClusterCost.

Section PipelineFacts.

Import Segment Pipeline.
Local Open Scope Q_scope.

Lemma Math_round_inject (q : Q) (z : Z) : q == inject_Z z -> Math_round q = z.
Proof.
  intros Hq. unfold Math_round.
  rewrite (Qfloor_comp (q + (1 # 2)) (inject_Z z + (1 # 2)))
    by (rewrite Hq; reflexivity).
  set (f := Qfloor (inject_Z z + (1 # 2))).
  pose proof (Qfloor_le (inject_Z z + (1 # 2))) as H1. fold f in H1.
  pose proof (Qlt_floor (inject_Z z + (1 # 2))) as H2. fold f in H2.
  rewrite inject_Z_plus in H2. change (inject_Z 1) with 1 in H2.
  assert (Ha : (f < z + 1)%Z).
  { rewrite Zlt_Qlt, inject_Z_plus. change (inject_Z 1) with 1. lra. }
  assert (Hb : (z < f + 1)%Z).
  { rewrite Zlt_Qlt, inject_Z_plus. change (inject_Z 1) with 1. lra. }
  lia.
Qed.

(** X9.  A byte, normalised by [getImageDataFromCanvas] ([raw/255]) and
    quantised by [applySegmentation] ([Math.round(c*255)] into a clamped
    byte array), comes back unchanged. *)
Theorem quantize_normalised_byte (z : Z) :
  (0 <= z <= 255)%Z -> quantize (inject_Z z / 255) = z.
Proof.
  intros Hz. unfold quantize.
  rewrite (Math_round_inject (inject_Z z / 255 * 255) z) by (field; lra).
  unfold clamp8. lia.
Qed.

Lemma quantize_normalised_byte_witness : quantize (inject_Z 200 / 255) = 200%Z.
Proof. apply quantize_normalised_byte. lia. Defined.

Lemma push_row_spec (px : list Q) (cw y : nat) :
  forall (len x0 : nat) (points : list rgb),
    (((y * cw + x0 + len) * 3) <= length px)%nat ->
    exists points',
      push_row px cw y (seq x0 len) points = Some points' /\
      length points' = (length points + len)%nat /\
      (forall q, (q < length points)%nat -> points' !! q = points !! q) /\
      (forall t, (t < len)%nat ->
         is_Some (points' !! (length points + t)%nat) /\
         points' !! (length points + t)%nat = read3 px ((y * cw + x0 + t) * 3)).
Proof.
  induction len as [|len IH]; intros x0 points Hpx.
  - exists points. split_and!; [done | lia | done | intros t Ht; lia].
  - cbn [seq push_row].
    destruct (read3_in_range px (y * cw + x0)) as [p Hp]; [lia |].
    rewrite Hp. cbn [mbind option_bind].
    destruct (IH (S x0) (points ++ [p])) as (pts & Hrun & Hl & Hpre & Hall); [lia |].
    rewrite length_app in Hl, Hpre, Hall. cbn [length] in Hl, Hpre, Hall.
    exists pts. split_and!; [done | lia | |].
    + intros q Hq. rewrite Hpre by lia. by apply lookup_app_l.
    + intros [|t] Ht.
      * rewrite !Nat.add_0_r, Hpre by lia.
        rewrite list_lookup_middle by done. rewrite Hp. by split; [eexists |].
      * replace (length points + S t)%nat with (length points + 1 + t)%nat by lia.
        replace (y * cw + x0 + S t)%nat with (y * cw + S x0 + t)%nat by lia.
        apply Hall. lia.
Qed.

Lemma push_rows_spec (px : list Q) (cw : nat) :
  forall (len y0 : nat) (points : list rgb),
    length points = (y0 * cw)%nat ->
    (((y0 + len) * cw * 3) <= length px)%nat ->
    exists points',
      push_rows px cw (seq y0 len) points = Some points' /\
      length points' = ((y0 + len) * cw)%nat /\
      (forall q, (q < length points)%nat -> points' !! q = points !! q) /\
      (forall q, (y0 * cw <= q < (y0 + len) * cw)%nat ->
         is_Some (points' !! q) /\ points' !! q = read3 px (q * 3)).
Proof.
  induction len as [|len IH]; intros y0 points Hlen Hpx.
  - exists points. split_and!; [done | lia | done | intros q Hq; lia].
  - cbn [seq push_rows].
    destruct (push_row_spec px cw y0 cw 0 points) as (p1 & Hrow & Hl1 & Hpre1 & Hall1);
      [nia |].
    rewrite Hrow. cbn [mbind option_bind].
    destruct (IH (S y0) p1) as (pts & Hrun & Hl & Hpre & Hall); [lia | nia |].
    exists pts. split_and!; [done | lia | |].
    + intros q Hq. rewrite Hpre by lia. by apply Hpre1.
    + intros q Hq. destruct (decide (q < S y0 * cw)%nat) as [Hlt|Hge].
      * rewrite Hpre by lia.
        replace q with (length points + (q - y0 * cw))%nat by lia.
        replace ((length points + (q - y0 * cw)) * 3)%nat
          with ((y0 * cw + 0 + (q - y0 * cw)) * 3)%nat by lia.
        apply Hall1. lia.
      * apply Hall. lia.
Qed.

(** X11.  On an image of [w*h*3] channel values, [buildPoints] gives [w*h]
    points in row-major order: point [p] is the three channels that
    [applySegmentation] reads for pixel [p]. *)
Theorem buildPoints_row_major (img : ImgData) :
  length (pixels img) = (w img * h img * 3)%nat ->
  exists points,
    buildPoints img = Some points /\ length points = (w img * h img)%nat /\
    forall p, (p < w img * h img)%nat ->
      is_Some (points !! p) /\ points !! p = read3 (pixels img) (p * 3).
Proof.
  intros Hpx. unfold buildPoints.
  destruct (push_rows_spec (pixels img) (w img) (h img) 0 [])
    as (points & Hrun & Hl & _ & Hall); [reflexivity | lia |].
  exists points. split_and!; [done | lia |].
  intros p Hp. apply Hall. lia.
Qed.

Lemma buildPoints_row_major_witness :
  exists points,
    buildPoints {| w := 2; h := 1; pixels := [0; 0; 0; 1; 1; (9 # 10)] |}
      = Some points /\ length points = (2 * 1)%nat /\
    forall p, (p < 2 * 1)%nat ->
      is_Some (points !! p) /\
      points !! p = read3 [0; 0; 0; 1; 1; (9 # 10)] (p * 3).
Proof.
  apply (buildPoints_row_major
           {| w := 2; h := 1; pixels := [0; 0; 0; 1; 1; (9 # 10)] |}).
  reflexivity.
Defined.

Lemma min1_spec (q : Q) : (1 <= q -> min1 q = 1) /\ (q < 1 -> min1 q = q).
Proof.
  unfold min1. destruct (Qle_bool 1 q) eqn:E.
  - apply Qle_bool_iff in E. split; [done | lra].
  - split; [| done]. intros H%Qle_bool_iff. congruence.
Qed.

(** X14.  An image at most 600 wide keeps its size on the canvas. *)
Theorem drawToCanvas_small_unchanged (iw ih : nat) :
  (iw <= 600)%nat -> drawToCanvas iw ih = (Z.of_nat iw, Z.of_nat ih).
Proof.
  intros Hw. unfold drawToCanvas.
  assert (Hs : (if decide (iw = 0%nat) then 1 else min1 (600 / ofnat iw)) = 1).
  { destruct (decide (iw = 0%nat)); [done |].
    apply min1_spec. pose proof (ofnat_pos iw ltac:(lia)) as Hp.
    apply Qle_shift_div_l; [exact Hp |].
    unfold ofnat. change 600 with (inject_Z 600). rewrite Qmult_1_l, <- Zle_Qle. lia. }
  rewrite Hs. f_equal; apply Math_round_inject; unfold ofnat; ring.
Qed.

Lemma drawToCanvas_small_unchanged_witness :
  drawToCanvas 320 240 = (Z.of_nat 320, Z.of_nat 240).
Proof. apply drawToCanvas_small_unchanged. lia. Defined.

(** X15.  An image wider than 600 gets a canvas exactly 600 wide, and a height
    that is a nearest integer to the height scaled by [600 / width]. *)
Theorem drawToCanvas_large_scaled (iw ih : nat) :
  (600 < iw)%nat ->
  (drawToCanvas iw ih).1 = 600%Z /\
  Qabs (inject_Z (drawToCanvas iw ih).2 - ofnat ih * (600 / ofnat iw)) <= 1 # 2.
Proof.
  intros Hw. unfold drawToCanvas.
  pose proof (ofnat_pos iw ltac:(lia)) as Hp.
  destruct (decide (iw = 0%nat)); [lia |].
  assert (Hs : min1 (600 / ofnat iw) = 600 / ofnat iw).
  { apply min1_spec. apply Qlt_shift_div_r; [exact Hp |].
    unfold ofnat. change 600 with (inject_Z 600). rewrite Qmult_1_l, <- Zlt_Qlt. lia. }
  rewrite Hs. cbn [fst snd]. split.
  - apply Math_round_inject. change (inject_Z 600) with 600. field. lra.
  - unfold Math_round. set (q := ofnat ih * (600 / ofnat iw)).
    pose proof (Qfloor_le (q + (1 # 2))) as H1.
    pose proof (Qlt_floor (q + (1 # 2))) as H2.
    rewrite inject_Z_plus in H2. change (inject_Z 1) with 1 in H2.
    apply Qabs_case; intros; lra.
Qed.

Lemma drawToCanvas_large_scaled_witness :
  (drawToCanvas 1200 900).1 = 600%Z /\
  Qabs (inject_Z (drawToCanvas 1200 900).2 - ofnat 900 * (600 / ofnat 1200)) <= 1 # 2.
Proof. apply drawToCanvas_large_scaled. lia. Defined.

End PipelineFacts.

Section CameraMore.

Import Camera Gestures.
Local Open Scope R_scope.

Lemma sin_cos_one (a : R) : sin a * sin a + cos a * cos a = 1.
Proof. pose proof (sin2_cos2 a) as H. unfold Rsqr in H. exact H. Qed.

(** X18.  Each rotation matrix is undone by the matrix of the opposite angle. *)
Theorem rotation_by_opposite_angle_is_inverse (a : R) (v : vec3) :
  mulMat (rotationMatrixX (- a)) (mulMat (rotationMatrixX a) v) = v /\
  mulMat (rotationMatrixY (- a)) (mulMat (rotationMatrixY a) v) = v.
Proof.
  destruct v as [[v0 v1] v2].
  unfold rotationMatrixX, rotationMatrixY, mulMat. cbv zeta.
  rewrite cos_neg, sin_neg. pose proof (sin_cos_one a) as H.
  split; repeat f_equal.
  - ring.
  - transitivity ((sin a * sin a + cos a * cos a) * v1); [ring | rewrite H; ring].
  - transitivity ((sin a * sin a + cos a * cos a) * v2); [ring | rewrite H; ring].
  - transitivity ((sin a * sin a + cos a * cos a) * v0); [ring | rewrite H; ring].
  - ring.
  - transitivity ((sin a * sin a + cos a * cos a) * v2); [ring | rewrite H; ring].
Qed.




Lemma view_eta (v : view) :
  View (rotXVal v) (rotYVal v) (zoomVal v) (panX v) (panY v) = v.
Proof. by destruct v. Qed.

(** X20.  After a pointer is released or cancelled, the next move event leaves the
    view as it was, however many pointers are still tracked: every cached
    position, distance and midpoint was cleared, so the move only records
    new ones. *)
Theorem move_after_release_keeps_view (s : state) (id id' : Z) (cx cy : R) :
  cam (handle (handle s (PointerUp id)) (PointerMove id' cx cy)) = cam s /\
  cam (handle (handle s (PointerCancel id)) (PointerMove id' cx cy)) = cam s.
Proof.
  cbn [handle]. unfold pointermove, pointerup. cbn [ges cam pointers lastSingle
    lastPinchDist lastMid].
  destruct (has (delete (pointers (ges s)) id) id'); [| done].
  destruct (set (delete (pointers (ges s)) id) id' (P2 cx cy))
    as [|[k1 a] [|[k2 b] [|? ?]]]; cbn [cam]; try done.
  unfold pinch. cbn [lastPinchDist lastMid]. by rewrite view_eta.
Qed.







End CameraMore.

Section CoreCluster.

Import Arith Core.

Variable A : arith.

Lemma assigned_cons (x : triple A) (xs : list (triple A)) (l : nat)
    (ls : list nat) (j : nat) :
  assigned A (x :: xs) (l :: ls) j =
  if decide (l = j) then x :: assigned A xs ls j else assigned A xs ls j.
Proof.
  unfold assigned. simpl. rewrite filter_cons. simpl.
  destruct (decide (l = j)); reflexivity.
Qed.

Lemma assigned_none (xs : list (triple A)) (ls : list nat) (k j : nat) :
  Forall (fun l => (l < k)%nat) ls -> (k <= j)%nat -> assigned A xs ls j = [].
Proof.
  intros Hlt Hj. revert xs.
  induction Hlt as [|l ls Hl Hls IH]; intros [|x xs]; try done.
  rewrite assigned_cons. destruct (decide (l = j)); [lia | apply IH].
Qed.

Lemma assigned_all_zero (X : list (triple A)) :
  assigned A X (replicate (length X) 0%nat) 0 = X.
Proof.
  induction X as [|x X IH]; [reflexivity |].
  simpl. rewrite assigned_cons. destruct (decide (0%nat = 0%nat)); [| done].
  by rewrite IH.
Qed.

(** The search never throws on [k >= 1] centroids, whatever the arithmetic,
    and its result is one of their indices. *)
Lemma scan_total (x : triple A) (C : list (triple A)) :
  forall (steps j best : nat) (bestd : num A),
    (j + steps = length C)%nat -> (best < length C)%nat ->
    exists b, scan A x C steps j best bestd = Ret b /\ (b < length C)%nat.
Proof.
  induction steps as [|s IH]; intros j best bestd Hlen Hb.
  - by exists best.
  - simpl. destruct (lookup_lt_is_Some_2 C j) as [c Hc]; [lia |].
    rewrite Hc. destruct (lt A (dist2 A x c) bestd); apply IH; lia.
Qed.

Lemma nearest_total (x : triple A) (C : list (triple A)) (k : nat) :
  (0 < k)%nat -> length C = k ->
  exists b, nearest A x C k = Ret b /\ (b < k)%nat.
Proof.
  intros Hk HC. unfold nearest.
  destruct (lookup_lt_is_Some_2 C 0) as [c Hc]; [lia |].
  rewrite Hc, <- HC. apply scan_total; lia.
Qed.

(** Where [lt] orders the computed distances, the search ends on the lowest
    index of least computed distance. *)
Lemma scan_least (P : num A -> Prop) (x : triple A) (C : list (triple A)) :
  orders A P -> (forall j c, C !! j = Some c -> P (sqdist A x c)) ->
  forall (steps j best : nat) (cb : triple A),
    (j + steps = length C)%nat -> C !! best = Some cb ->
    (forall i c, (i < j)%nat -> C !! i = Some c ->
       lt A (sqdist A x c) (sqdist A x cb) = false) ->
    (forall i c, (i < best)%nat -> C !! i = Some c ->
       lt A (sqdist A x cb) (sqdist A x c) = true) ->
    exists b, scan A x C steps j best (sqdist A x cb) = Ret b /\
              nearest_to A x C b.
Proof.
  intros (Hirr & Htrans & Htot) HP.
  induction steps as [|s IH]; intros j best cb Hlen Hb Hmin Hlow.
  - exists best. split; [reflexivity |]. exists cb. split; [exact Hb |].
    split; [| intros i c Hc Hi; by eapply Hlow].
    intros i c Hc. apply (Hmin i c); [| exact Hc].
    apply lookup_lt_Some in Hc. lia.
  - simpl. destruct (lookup_lt_is_Some_2 C j) as [c Hc]; [lia |].
    rewrite Hc. change (dist2 A x c) with (sqdist A x c).
    destruct (lt A (sqdist A x c) (sqdist A x cb)) eqn:E.
    + apply IH; [lia | exact Hc | |].
      * intros i c' Hi Hc'. destruct (decide (i = j)) as [->|Hne].
        -- rewrite Hc in Hc'. injection Hc' as <-. apply Hirr.
        -- destruct (lt A (sqdist A x c') (sqdist A x c)) eqn:E'; [| done].
           rewrite <- (Hmin i c'); [| lia | exact Hc'].
           symmetry. by eapply Htrans.
      * intros i c' Hi Hc'. apply (Htot _ (sqdist A x cb));
          [by eapply HP | exact E |].
        apply (Hmin i c'); [lia | exact Hc'].
    + apply IH; [lia | exact Hb | | exact Hlow].
      intros i c' Hi Hc'. destruct (decide (i = j)) as [->|Hne].
      * rewrite Hc in Hc'. by injection Hc' as <-.
      * apply (Hmin i c'); [lia | exact Hc'].
Qed.

Lemma nearest_least (P : num A -> Prop) (x : triple A) (C : list (triple A)) :
  orders A P -> (forall j c, C !! j = Some c -> P (sqdist A x c)) ->
  C <> [] ->
  exists b, nearest A x C (length C) = Ret b /\ nearest_to A x C b.
Proof.
  intros Hord HP HC. unfold nearest.
  destruct C as [|c0 C'] eqn:EC; [done |]. rewrite <- EC in *.
  assert (Hc0 : C !! 0%nat = Some c0) by (by rewrite EC).
  rewrite Hc0. change (dist2 A x c0) with (sqdist A x c0).
  apply (scan_least P); try done.
  - rewrite EC. simpl. lia.
  - intros i c Hi Hc. replace i with 0%nat in Hc by lia.
    rewrite Hc0 in Hc. injection Hc as <-. by destruct Hord as [Hirr _].
  - intros i c Hi. lia.
Qed.

(** The assignment loop, whatever the arithmetic: it never throws, it keeps
    the labels before [i], it gives every point from [i] on the result of
    the search, below [k], and [changed] stays [false] exactly when no
    label was rewritten. *)
Lemma assign_any (C : list (triple A)) (k : nat) :
  (0 < k)%nat -> length C = k ->
  forall (xs : list (triple A)) (i : nat) (lbl : list nat) (ch : bool),
    length lbl = (i + length xs)%nat ->
    exists lbl' ch',
      assign A C k xs i lbl ch = Ret (lbl', ch') /\
      length lbl' = length lbl /\
      (forall p, (p < i)%nat -> lbl' !! p = lbl !! p) /\
      (forall p x, xs !! p = Some x ->
         exists b, nearest A x C k = Ret b /\ (b < k)%nat /\
                   lbl' !! (i + p)%nat = Some b) /\
      (ch' = false <-> ch = false /\ lbl' = lbl).
Proof.
  intros Hk HC. induction xs as [|x xs IH]; intros i lbl ch Hlen.
  - exists lbl, ch. simpl. split_and!; try tauto. intros p y Hp. discriminate.
  - simpl in Hlen. destruct (nearest_total x C k Hk HC) as (b & Hb & Hbk).
    simpl. rewrite Hb. simpl.
    destruct (decide (lbl !! i = Some b)) as [Hi|Hi].
    + destruct (IH (S i) lbl ch) as (lbl' & ch' & Hrun & Hl & Hpre & Hnear & Hch);
        [lia |].
      exists lbl', ch'. split_and!; try tauto.
      * intros p Hp. apply Hpre. lia.
      * intros [|p] y Hy.
        -- injection Hy as <-. exists b. rewrite Nat.add_0_r, Hpre by lia. done.
        -- destruct (Hnear p y Hy) as (b' & ? & ? & Hp). exists b'.
           by replace (i + S p)%nat with (S i + p)%nat by lia.
    + destruct (IH (S i) (<[i := b]> lbl) true)
        as (lbl' & ch' & Hrun & Hl & Hpre & Hnear & Hch);
        [rewrite length_insert; lia |].
      rewrite length_insert in Hl.
      assert (Hat : lbl' !! i = Some b).
      { rewrite Hpre by lia. apply list_lookup_insert_eq. lia. }
      exists lbl', ch'. split_and!; try tauto.
      * intros p Hp. rewrite Hpre by lia. apply list_lookup_insert_ne. lia.
      * intros [|p] y Hy.
        -- injection Hy as <-. exists b. by rewrite Nat.add_0_r.
        -- destruct (Hnear p y Hy) as (b' & ? & ? & Hp). exists b'.
           by replace (i + S p)%nat with (S i + p)%nat by lia.
      * split.
        -- intros E. apply Hch in E as [E _]. discriminate.
        -- intros [_ ->]. congruence.
Qed.

Lemma assign_any_lt (C : list (triple A)) (k : nat) (X : list (triple A))
    (lbl lbl' : list nat) (ch ch' : bool) :
  (0 < k)%nat -> length C = k -> length lbl = length X ->
  assign A C k X 0 lbl ch = Ret (lbl', ch') ->
  Forall (fun l => (l < k)%nat) lbl' /\ length lbl' = length X.
Proof.
  intros Hk HC Hlen Hrun.
  destruct (assign_any C k Hk HC X 0 lbl ch) as (l2 & c2 & Hrun2 & Hl & _ & Hnear & _);
    [simpl; lia |].
  rewrite Hrun in Hrun2. injection Hrun2 as <- <-. split; [| lia].
  apply Forall_lookup. intros p l Hp.
  destruct (lookup_lt_is_Some_2 X p) as [x Hx];
    [apply lookup_lt_Some in Hp; lia |].
  destruct (Hnear p x Hx) as (b & _ & Hbk & Hb).
  simpl in Hb. rewrite Hp in Hb. by injection Hb as ->.
Qed.

(** The accumulation loop, whatever the arithmetic: each sum receives, from
    the left and in the order of the points, the points of its label, and
    each count their number. *)
Lemma accumulate_any (k : nat) (lbl : list nat) :
  Forall (fun l => (l < k)%nat) lbl ->
  forall (xs : list (triple A)) (i : nat) (sums : list (triple A))
         (counts : list nat),
    length sums = k -> length counts = k ->
    (i + length xs <= length lbl)%nat ->
    exists sums' counts',
      accumulate A xs i lbl sums counts = Ret (sums', counts') /\
      length sums' = k /\ length counts' = k /\
      forall j s c, sums !! j = Some s -> counts !! j = Some c ->
        sums' !! j = Some (fold_left (add3 A) (assigned A xs (drop i lbl) j) s) /\
        counts' !! j = Some (c + length (assigned A xs (drop i lbl) j))%nat.
Proof.
  intros Hlt. induction xs as [|x xs IH]; intros i sums counts Hs Hc Hlen.
  - exists sums, counts. split_and!; try done.
    intros j s c Hj Hcj. split; [done |]. by rewrite Nat.add_0_r.
  - simpl in Hlen. simpl.
    destruct (lookup_lt_is_Some_2 lbl i) as [l Hl]; [lia |].
    rewrite Hl. pose proof (Forall_lookup_1 _ _ _ _ Hlt Hl) as Hlk. simpl in Hlk.
    destruct (lookup_lt_is_Some_2 sums l) as [s0 Hs0]; [lia |].
    rewrite Hs0.
    destruct (IH (S i) (<[l := add3 A s0 x]> sums) (alter S l counts))
      as (sums' & counts' & Hrun & Hs' & Hc' & Hall);
      [by rewrite length_insert | by rewrite length_alter | lia |].
    exists sums', counts'. split_and!; try done.
    intros j s c Hj Hcj. rewrite (drop_S _ _ _ Hl), assigned_cons.
    destruct (decide (l = j)) as [->|Hne].
    + rewrite Hs0 in Hj. injection Hj as ->.
      destruct (Hall j (add3 A s x) (S c)) as [Hsj Hcnt].
      * apply list_lookup_insert_eq. lia.
      * rewrite list_lookup_alter_eq, Hcj. reflexivity.
      * split; [exact Hsj |]. rewrite Hcnt. f_equal. simpl. lia.
    + apply Hall; [by rewrite list_lookup_insert_ne | by rewrite list_lookup_alter_ne].
Qed.

Lemma recompute_any (k : nat) (sums : list (triple A)) (counts : list nat) :
  length sums = k -> length counts = k ->
  forall (steps j : nat) (C : list (triple A)),
    length C = k -> (j + steps = k)%nat ->
    exists C',
      recompute A steps j sums counts C = Ret C' /\ length C' = k /\
      (forall p, (p < j)%nat -> C' !! p = C !! p) /\
      (forall p, (j <= p)%nat -> counts !! p = Some 0%nat -> C' !! p = C !! p) /\
      (forall p c s, (j <= p)%nat -> counts !! p = Some (S c) ->
         sums !! p = Some s -> C' !! p = Some (div3 A s (S c))).
Proof.
  intros Hs Hc. induction steps as [|st IH]; intros j C HC Hj.
  - exists C. simpl. split_and!; try done.
    intros p c s Hp Hcp. apply lookup_lt_Some in Hcp. lia.
  - simpl.
    destruct (lookup_lt_is_Some_2 counts j) as [cnt Hcnt]; [lia |].
    rewrite Hcnt. destruct cnt as [|cnt].
    + destruct (IH (S j) C) as (C' & Hrun & HC' & Hpre & Hzero & Hpos); [done | lia |].
      exists C'. split_and!; try done.
      * intros p Hp. apply Hpre. lia.
      * intros p Hp Hz. destruct (decide (p = j)) as [->|Hne];
          [apply Hpre; lia | apply Hzero; [lia | done]].
      * intros p c s Hp Hcp Hsp. destruct (decide (p = j)) as [->|Hne];
          [congruence | apply Hpos; [lia | done | done]].
    + destruct (lookup_lt_is_Some_2 sums j) as [sm Hsm]; [lia |].
      destruct (lookup_lt_is_Some_2 C j) as [cj Hcj]; [lia |].
      rewrite Hsm, Hcj.
      destruct (IH (S j) (<[j := div3 A sm (S cnt)]> C))
        as (C' & Hrun & HC' & Hpre & Hzero & Hpos);
        [by rewrite length_insert | lia |].
      exists C'. split_and!; try done.
      * intros p Hp. rewrite Hpre by lia. apply list_lookup_insert_ne. lia.
      * intros p Hp Hz. destruct (decide (p = j)) as [->|Hne]; [congruence |].
        rewrite Hzero by (done || lia). apply list_lookup_insert_ne. lia.
      * intros p c s Hp Hcp Hsp. destruct (decide (p = j)) as [->|Hne].
        -- rewrite Hpre by lia. rewrite list_lookup_insert_eq by lia.
           congruence.
        -- apply Hpos; [lia | done | done].
Qed.

Lemma fold_add3 (ps : list (triple A)) :
  forall s : triple A,
    fold_left (add3 A) ps s =
    Triple (fold_left (add A) (map c0 ps) (c0 s))
           (fold_left (add A) (map c1 ps) (c1 s))
           (fold_left (add A) (map c2 ps) (c2 s)).
Proof.
  induction ps as [|p ps IH]; intros s; [by destruct s |].
  cbn [fold_left map]. rewrite IH. reflexivity.
Qed.

(** What the two loops of the update compute for a group of points, from
    sums of zero, is the mean as written from the arithmetic. *)
Lemma div3_sum_mean (ps : list (triple A)) :
  div3 A (fold_left (add3 A) ps (Triple (zero A) (zero A) (zero A))) (length ps)
  = mean A ps.
Proof. rewrite fold_add3. reflexivity. Qed.

(** The update step on [k] centroids and labels below [k], whatever the
    arithmetic. *)
Lemma update_any (X : list (triple A)) (k : nat) (lbl : list nat)
    (C : list (triple A)) :
  length C = k -> length lbl = length X ->
  Forall (fun l => (l < k)%nat) lbl ->
  exists C',
    update A X k lbl C = Ret C' /\ length C' = k /\
    forall j, (j < k)%nat ->
      (assigned A X lbl j = [] -> C' !! j = C !! j) /\
      (assigned A X lbl j <> [] ->
         C' !! j = Some (mean A (assigned A X lbl j))).
Proof.
  intros HC Hlen Hlt. unfold update.
  destruct (accumulate_any k lbl Hlt X 0
              (replicate k (Triple (zero A) (zero A) (zero A)))
              (replicate k 0%nat))
    as (sums & counts & Hacc & Hs & Hc & Hall);
    [apply length_replicate | apply length_replicate | simpl; lia |].
  rewrite Hacc. simpl.
  destruct (recompute_any k sums counts Hs Hc k 0 C HC)
    as (C' & Hrec & HC' & _ & Hzero & Hpos); [lia |].
  exists C'. split_and!; try done.
  intros j Hj.
  destruct (Hall j (Triple (zero A) (zero A) (zero A)) 0%nat) as [Hsj Hcj];
    [by apply lookup_replicate_2 | by apply lookup_replicate_2 |].
  rewrite drop_0 in Hsj, Hcj. simpl in Hcj. split.
  - intros Hnil. rewrite Hnil in Hcj. apply Hzero; [lia | exact Hcj].
  - intros Hne. destruct (assigned A X lbl j) as [|m ms] eqn:Hm; [done |].
    rewrite (Hpos j (length ms) _ ltac:(lia) Hcj Hsj).
    f_equal. apply (div3_sum_mean (m :: ms)).
Qed.

Lemma settled_after_update (X : list (triple A)) (k : nat) (lbl : list nat)
    (C C' : list (triple A)) :
  length C = k -> length lbl = length X ->
  Forall (fun l => (l < k)%nat) lbl ->
  update A X k lbl C = Ret C' -> settled A X lbl C' /\ length C' = k.
Proof.
  intros HC Hlen Hlt Hup.
  destruct (update_any X k lbl C HC Hlen Hlt) as (C2 & Hup2 & HC2 & Hmean).
  rewrite Hup in Hup2. injection Hup2 as <-. split; [| done].
  intros j Hj. destruct (decide (j < k)%nat) as [Hjk|Hjk]; [by apply Hmean |].
  exfalso. apply Hj. apply (assigned_none X lbl k); [done | lia].
Qed.

Lemma lloyd_any (X : list (triple A)) (k : nat) :
  (0 < k)%nat ->
  forall (iters : nat) (C : list (triple A)) (lbl : list nat),
    length C = k -> length lbl = length X ->
    exists r, lloyd A X k iters C lbl = Ret r /\
      length (centroids r) = k /\ length (labels r) = length X /\
      (iters <> 0%nat ->
       settled A X (labels r) (centroids r) /\
       Forall (fun l => (l < k)%nat) (labels r)).
Proof.
  intros Hk. induction iters as [|m IH]; intros C lbl HC Hlen.
  - exists (Exit C lbl false). done.
  - simpl.
    destruct (assign_any C k Hk HC X 0 lbl false) as (lbl' & ch & Hrun & Hl & _);
      [simpl; lia |].
    rewrite Hrun. simpl.
    destruct (assign_any_lt C k X lbl lbl' false ch Hk HC Hlen Hrun) as [Hlt Hl'].
    destruct (update_any X k lbl' C HC Hl' Hlt) as (C' & Hup & HC' & _).
    rewrite Hup. simpl.
    destruct (settled_after_update X k lbl' C C' HC Hl' Hlt Hup) as [Hset _].
    destruct ch.
    + destruct (IH C' lbl' HC' Hl') as (r & Hr & HCr & Hlr & Hs).
      exists r. split_and!; try done. intros _.
      destruct m as [|m]; [| by apply Hs].
      simpl in Hr. by injection Hr as <-.
    + exists (Exit C' lbl' true). by split_and!.
Qed.

Lemma init_any_done (X : list (triple A)) (k : nat) (draws : list Z)
    (used : gset Z) (C : list (triple A)) :
  (k <= length C)%nat -> init A X k draws used C = Ret C.
Proof.
  intros H. destruct draws; simpl;
    (destruct (decide (length C < k)%nat); [lia | reflexivity]).
Qed.

(** The initialisation loop ends with exactly [k] centroids. *)
Lemma init_any_length (X : list (triple A)) (k : nat) (draws : list Z) :
  forall (used : gset Z) (C C' : list (triple A)),
    (length C <= k)%nat -> init A X k draws used C = Ret C' -> length C' = k.
Proof.
  induction draws as [|i rest IH]; intros used C C' Hle; simpl.
  - destruct (decide (length C < k)%nat); [discriminate |]. intros [= <-]. lia.
  - destruct (decide (length C < k)%nat); [| intros [= <-]; lia].
    destruct (decide (i ∈ used)); [by apply IH |].
    destruct (index X i); [| discriminate].
    apply IH. rewrite length_app. simpl. lia.
Qed.

Lemma init_any_returns (X : list (triple A)) (k : nat) (draws : list Z) :
  forall (used : gset Z) (C : list (triple A)),
    used ⊆ below (length X) -> length C = size used -> (length C <= k)%nat ->
    Forall (fun i => (0 <= i < Z.of_nat (length X))%Z) draws ->
    (k <= size (used ∪ list_to_set draws))%nat ->
    exists C', init A X k draws used C = Ret C' /\ length C' = k.
Proof.
  induction draws as [|i rest IH]; intros used C Hsub Hlen Hle Hd Hk.
  - simpl in *. rewrite (right_id_L ∅ (∪)) in Hk.
    destruct (decide (length C < k)%nat); [lia |].
    exists C. split; [reflexivity | lia].
  - simpl. apply Forall_cons in Hd as [Hi Hd].
    destruct (decide (length C < k)%nat); [| exists C; split; [reflexivity | lia]].
    rewrite list_to_set_cons in Hk.
    destruct (decide (i ∈ used)) as [Hin|Hout].
    + apply IH; try assumption.
      replace (used ∪ list_to_set rest)
        with (used ∪ ({[i]} ∪ list_to_set rest)) by set_solver.
      exact Hk.
    + destruct (index_Some X i Hi) as [x Hx].
      rewrite Hx. apply IH; try assumption.
      * apply elem_of_below in Hi. set_solver.
      * rewrite length_app, size_union by set_solver.
        rewrite size_singleton. simpl. lia.
      * rewrite length_app. simpl. lia.
      * replace ({[i]} ∪ used ∪ list_to_set rest)
          with (used ∪ ({[i]} ∪ list_to_set rest)) by set_solver.
        exact Hk.
Qed.

Lemma labels_below_one (lbl : list nat) :
  Forall (fun l => (l < 1)%nat) lbl -> lbl = replicate (length lbl) 0%nat.
Proof.
  induction 1 as [|l lbl Hl _ IH]; [reflexivity |].
  simpl. rewrite <- IH. f_equal. lia.
Qed.

(** With one centroid every iteration recomputes it from all the points. *)
Lemma lloyd_single (X : list (triple A)) :
  X <> [] ->
  forall (m : nat) (C : list (triple A)) (lbl : list nat),
    length C = 1%nat -> length lbl = length X ->
    exists r, lloyd A X 1 (S m) C lbl = Ret r /\ centroids r = [mean A X].
Proof.
  intros HX. induction m as [|m IH]; intros C lbl HC Hlen;
    cbn [lloyd];
    (destruct (assign_any C 1 ltac:(lia) HC X 0 lbl false)
       as (lbl' & ch & Hrun & _); [simpl; lia |]);
    rewrite Hrun; cbn [obind];
    destruct (assign_any_lt C 1 X lbl lbl' false ch ltac:(lia) HC Hlen Hrun)
      as [Hlt Hl'];
    (destruct (update_any X 1 lbl' C HC Hl' Hlt) as (C' & Hup & HC' & Hmean));
    rewrite Hup; cbn [obind];
    destruct (Hmean 0%nat ltac:(lia)) as [_ Hm];
    rewrite (labels_below_one lbl' Hlt), Hl', assigned_all_zero in Hm;
    specialize (Hm HX);
    (assert (HC1 : C' = [mean A X])
       by (destruct C' as [|c [|? ?]]; try discriminate;
           simpl in Hm; by injection Hm as ->)).
  - destruct ch; eexists; (split; [reflexivity | exact HC1]).
  - destruct ch; [apply IH; [by rewrite HC1 | done] |].
    eexists; (split; [reflexivity | exact HC1]).
Qed.

End CoreCluster.


Section FloatOrder.

Import Arith SpecFloat.

Ltac cmp_cases :=
  repeat match goal with
  | H : context [Z.compare ?a ?b] |- _ => destruct (Z.compare_spec a b)
  | |- context [Z.compare ?a ?b] => destruct (Z.compare_spec a b)
  | H : context [Pos.compare_cont Eq ?a ?b] |- _ =>
      change (Pos.compare_cont Eq a b) with (Pos.compare a b) in H
  | |- context [Pos.compare_cont Eq ?a ?b] =>
      change (Pos.compare_cont Eq a b) with (Pos.compare a b)
  | H : context [Pos.compare ?a ?b] |- _ => destruct (Pos.compare_spec a b)
  | |- context [Pos.compare ?a ?b] => destruct (Pos.compare_spec a b)
  end.

Lemma SFltb_irrefl (f : spec_float) : SFltb f f = false.
Proof.
  unfold SFltb. destruct f as [s|s| |s m e]; try destruct s; simpl;
    try reflexivity; cmp_cases; simpl; try reflexivity; lia.
Qed.

Lemma SFltb_trans (f g h : spec_float) :
  SFltb f g = true -> SFltb g h = true -> SFltb f h = true.
Proof.
  unfold SFltb.
  destruct f as [s1|s1| |s1 m1 e1]; destruct g as [s2|s2| |s2 m2 e2];
    destruct h as [s3|s3| |s3 m3 e3];
    try destruct s1; try destruct s2; try destruct s3; simpl;
    try congruence; cmp_cases; simpl; subst; try congruence; try lia.
Qed.

Lemma SFltb_above (f g h : spec_float) :
  h <> S754_nan -> SFltb f g = true -> SFltb h g = false -> SFltb f h = true.
Proof.
  unfold SFltb.
  destruct f as [s1|s1| |s1 m1 e1]; destruct g as [s2|s2| |s2 m2 e2];
    destruct h as [s3|s3| |s3 m3 e3];
    try destruct s1; try destruct s2; try destruct s3; simpl;
    try congruence; cmp_cases; simpl; subst; try congruence; try lia.
Qed.

Lemma is_nan_Prim2SF (x : PrimFloat.float) :
  PrimFloat.is_nan x = false -> FloatOps.Prim2SF x <> S754_nan.
Proof.
  unfold PrimFloat.is_nan. rewrite FloatAxioms.eqb_spec. intros H E.
  rewrite E in H. discriminate.
Qed.

(** [<] of binary64 orders the numbers that are not [NaN]. *)
Lemma orders_binary64 : orders binary64 (fun x => PrimFloat.is_nan x = false).
Proof.
  split_and!; cbn [lt binary64 num].
  - intros a. rewrite FloatAxioms.ltb_spec. apply SFltb_irrefl.
  - intros a b c. rewrite !FloatAxioms.ltb_spec. apply SFltb_trans.
  - intros a b c Hc%is_nan_Prim2SF. rewrite !FloatAxioms.ltb_spec.
    by apply SFltb_above.
Qed.

(** [<] of the rationals orders all of them. *)
Lemma orders_exact : orders exact (fun _ => True).
Proof.
  split_and!; cbn [lt exact num].
  - intros a. apply Qltb_ge. apply Qle_refl.
  - intros a b c Hab%Qltb_lt Hbc%Qltb_lt. apply Qltb_lt. by eapply Qlt_trans.
  - intros a b c _ Hab%Qltb_lt Hcb%Qltb_ge. apply Qltb_lt.
    by eapply Qlt_le_trans.
Qed.

(** The bytes: what holds of each of [0 .. 255] by evaluation holds of
    every byte. *)
Lemma bytes_all (T : Z -> bool) :
  forallb T (map Z.of_nat (seq 0 256)) = true ->
  forall z, (0 <= z <= 255)%Z -> T z = true.
Proof.
  intros H z Hz. rewrite forallb_forall in H. apply H.
  apply in_map_iff. exists (Z.to_nat z). split; [lia |].
  apply in_seq. lia.
Qed.

(** [Math.round] and the clamped store on a finite binary64 number give a
    nearest integer of [0 .. 255] to its value. *)
Lemma b64_to_byte_nearest (x : PrimFloat.float) :
  finite64 x = true -> Segment.nearest_level (F2Q x) (b64_to_byte x).
Proof.
  unfold finite64, F2Q, b64_to_byte.
  destruct (FloatOps.Prim2SF x) as [s|s| |s m e]; try discriminate; intros _.
  - split; [lia |]. intros t Ht.
    replace (Qabs (0 - inject_Z 0)) with 0%Q by reflexivity.
    apply Qabs_nonneg.
  - apply clamp8_round_nearest.
Qed.

End FloatOrder.

Section FloatClass.

Import Arith Core Doubles SpecFloat.

Lemma iter_pos_invariant {T : Type} (f : T -> T) (I : T -> Prop) :
  (forall x, I x -> I (f x)) -> forall p x, I x -> I (iter_pos f p x).
Proof.
  intros Hf. induction p as [p IH|p IH|]; intros x Hx; cbn [iter_pos].
  - apply IH, IH, Hf, Hx.
  - apply IH, IH, Hx.
  - apply Hf, Hx.
Qed.

Lemma shr_1_nonneg (mrs : shr_record) :
  (0 <= shr_m mrs)%Z -> (0 <= shr_m (shr_1 mrs))%Z.
Proof.
  destruct mrs as [m r s]. cbn [shr_m shr_1].
  destruct m as [|[p|p|]|[p|p|]]; cbn [shr_m]; lia.
Qed.

Lemma shr_fexp_nonneg (prec emax m e : Z) (l : location) :
  (0 <= m)%Z -> (0 <= shr_m (shr_fexp prec emax m e l).1)%Z.
Proof.
  intros Hm. unfold shr_fexp, shr.
  assert (H0 : (0 <= shr_m (shr_record_of_loc m l))%Z)
    by (destruct l as [|[| |]]; exact Hm).
  destruct (_ - e)%Z; cbn [fst]; try exact H0.
  by apply (iter_pos_invariant shr_1 (fun r => 0 <= shr_m r)%Z shr_1_nonneg).
Qed.

(** Rounding a mantissa that is not negative gives the sign asked for,
    and never [NaN]. *)
Lemma round_aux_signed (prec emax : Z) (sx : bool) (mx ex : Z) (lx : location) :
  (0 <= mx)%Z -> signed sx (binary_round_aux prec emax sx mx ex lx).
Proof.
  intros Hm. unfold binary_round_aux.
  pose proof (shr_fexp_nonneg prec emax mx ex lx Hm) as H1.
  destruct (shr_fexp prec emax mx ex lx) as [mrs' e']. cbn [fst] in H1.
  set (m1 := round_nearest_even (shr_m mrs') (loc_of_shr_record mrs')).
  assert (Hm1 : (0 <= m1)%Z).
  { unfold m1, round_nearest_even.
    destruct (loc_of_shr_record mrs') as [|[| |]]; try lia.
    destruct (Z.even (shr_m mrs')); lia. }
  pose proof (shr_fexp_nonneg prec emax m1 e' loc_Exact Hm1) as H2.
  destruct (shr_fexp prec emax m1 e' loc_Exact) as [mrs'' e'']. cbn [fst] in H2.
  destruct (shr_m mrs''); [reflexivity | | lia].
  by destruct (Z.leb e'' (emax - prec)).
Qed.

Lemma round_signed (prec emax : Z) (sx : bool) (mx : positive) (ex : Z) :
  signed sx (binary_round prec emax sx mx ex).
Proof.
  unfold binary_round. destruct (shl_align _ _ _) as [mz ez].
  apply round_aux_signed. lia.
Qed.

Lemma normalize_defined (prec emax m e : Z) (sz : bool) :
  binary_normalize prec emax m e sz <> S754_nan.
Proof.
  unfold binary_normalize. destruct m as [|p|p]; [discriminate | |].
  - pose proof (round_signed prec emax false p e) as H.
    by destruct (binary_round prec emax false p e).
  - pose proof (round_signed prec emax true p e) as H.
    by destruct (binary_round prec emax true p e).
Qed.

(** A difference is [NaN] only from a [NaN] or from two infinities. *)
Lemma SFsub_defined (prec emax : Z) (x y : spec_float) :
  match x with S754_zero _ | S754_finite _ _ _ => True | _ => False end ->
  y <> S754_nan -> SFsub prec emax x y <> S754_nan.
Proof.
  unfold SFsub.
  destruct x as [sx|sx| |sx mx ex]; destruct y as [sy|sy| |sy my ey];
    try destruct sx; try destruct sy; try done.
  all: intros _ _; apply normalize_defined.
Qed.

(** A square is not negative, and [NaN] only from [NaN]. *)
Lemma SFmul_square (prec emax : Z) (x : spec_float) :
  x <> S754_nan -> signed false (SFmul prec emax x x).
Proof.
  unfold SFmul. destruct x as [s|s| |s m e]; try destruct s; try done.
  all: intros _; cbn [xorb]; apply round_aux_signed; lia.
Qed.

(** A sum of numbers that are not negative is not negative, and no [NaN]. *)
Lemma SFadd_signed (prec emax : Z) (x y : spec_float) :
  signed false x -> signed false y -> signed false (SFadd prec emax x y).
Proof.
  unfold SFadd.
  destruct x as [sx|sx| |sx mx ex]; destruct y as [sy|sy| |sy my ey];
    cbn [signed]; try done; intros -> ->; try done.
  cbn [cond_Zopp].
  destruct (shl_align mx ex (Z.min ex ey)) as [a ?].
  destruct (shl_align my ey (Z.min ex ey)) as [b ?]. cbn [fst].
  change (Z.pos a + Z.pos b)%Z with (Z.pos (a + b)).
  cbn [binary_normalize]. apply round_signed.
Qed.

Lemma Prim2SF_is_nan (x : PrimFloat.float) :
  FloatOps.Prim2SF x <> S754_nan -> PrimFloat.is_nan x = false.
Proof.
  unfold PrimFloat.is_nan. rewrite FloatAxioms.eqb_spec. unfold SFeqb.
  destruct (FloatOps.Prim2SF x) as [s|s| |s m e]; try destruct s; try done;
    intros _; cbn [SFcompare]; rewrite Z.compare_refl;
    change (Pos.compare_cont Eq m m) with (Pos.compare m m);
    by rewrite Pos.compare_refl.
Qed.

Lemma finite64_cases (x : PrimFloat.float) :
  finite64 x = true ->
  match FloatOps.Prim2SF x with
  | S754_zero _ | S754_finite _ _ _ => True
  | _ => False
  end.
Proof. unfold finite64. by destruct (FloatOps.Prim2SF x). Qed.

Lemma square_diff_signed (a b : PrimFloat.float) :
  finite64 a = true -> PrimFloat.is_nan b = false ->
  signed false
    (FloatOps.Prim2SF (PrimFloat.mul (PrimFloat.sub a b) (PrimFloat.sub a b))).
Proof.
  intros Ha%finite64_cases Hb%is_nan_Prim2SF.
  rewrite FloatAxioms.mul_spec. apply SFmul_square.
  rewrite FloatAxioms.sub_spec. by apply SFsub_defined.
Qed.

(** In binary64 the squared distance from a point of finite channels to a
    point without [NaN] is not [NaN]. *)
Lemma sqdist64_not_nan (x c : triple binary64) :
  finite64 (c0 x) = true -> finite64 (c1 x) = true -> finite64 (c2 x) = true ->
  PrimFloat.is_nan (c0 c) = false -> PrimFloat.is_nan (c1 c) = false ->
  PrimFloat.is_nan (c2 c) = false ->
  PrimFloat.is_nan (sqdist binary64 x c) = false.
Proof.
  intros Hx0 Hx1 Hx2 Hc0 Hc1 Hc2. apply Prim2SF_is_nan.
  unfold sqdist. cbn [add sub mul binary64].
  pose proof (square_diff_signed _ _ Hx0 Hc0) as H0.
  pose proof (square_diff_signed _ _ Hx1 Hc1) as H1.
  pose proof (square_diff_signed _ _ Hx2 Hc2) as H2.
  rewrite !FloatAxioms.add_spec.
  pose proof (SFadd_signed FloatOps.prec FloatOps.emax _ _
                (SFadd_signed FloatOps.prec FloatOps.emax _ _ H0 H1) H2) as H.
  intros E. unfold FloatAxioms.SF64add in E. rewrite E in H. exact H.
Qed.

End FloatClass.

Section FloatCount.

Import Arith Core Doubles SpecFloat.

Lemma digits2_pos_iter (p : positive) (k : positive) :
  digits2_pos (Pos.iter xO p k) = (digits2_pos p + k)%positive.
Proof.
  induction k as [|k IH] using Pos.peano_ind.
  - cbn. lia.
  - rewrite Pos.iter_succ. cbn [digits2_pos]. rewrite IH. lia.
Qed.

(** A positive integer of at most 53 binary digits is a finite positive
    binary64 number. *)
Lemma binary_round_small (p : positive) :
  (Zpos (digits2_pos p) <= 53)%Z ->
  exists m e, binary_round 53 1024 false p 0 = S754_finite false m e.
Proof.
  intros Hd. unfold binary_round.
  assert (Hf : fexp 53 1024 (Zpos (digits2_pos p) + 0) = (Zpos (digits2_pos p) - 53)%Z)
    by (unfold fexp, emin; lia).
  rewrite Hf.
  assert (Hal : exists mz ez,
            shl_align p 0 (Zpos (digits2_pos p) - 53) = (mz, ez) /\
            Zpos (digits2_pos mz) = 53%Z /\ (-52 <= ez <= 0)%Z).
  { unfold shl_align.
    destruct (Zpos (digits2_pos p) - 53 - 0)%Z as [|k|k] eqn:E; [| lia |].
    - exists p, 0%Z. split_and!; [done | lia | lia | lia].
    - exists (Pos.iter xO p k), (Zpos (digits2_pos p) - 53)%Z.
      split_and!; [done | | lia | lia].
      rewrite digits2_pos_iter. lia. }
  destruct Hal as (mz & ez & -> & Hdz & Hez).
  exists mz, ez. unfold binary_round_aux.
  assert (Hs : shr_fexp 53 1024 (Zpos mz) ez loc_Exact
               = ({| shr_m := Zpos mz; shr_r := false; shr_s := false |}, ez)).
  { unfold shr_fexp. cbn [Zdigits2]. rewrite Hdz.
    replace (fexp 53 1024 (53 + ez) - ez)%Z with 0%Z by (unfold fexp, emin; lia).
    reflexivity. }
  rewrite Hs. cbn [shr_m loc_of_shr_record round_nearest_even]. rewrite Hs.
  cbn [shr_m].
  destruct (Z.leb ez (1024 - 53)) eqn:E; [reflexivity |].
  apply Z.leb_gt in E. lia.
Qed.

Lemma digits2_pos_le (p : positive) (n : nat) :
  (Zpos p < 2 ^ Z.of_nat n)%Z -> (Zpos (digits2_pos p) <= Z.of_nat n)%Z.
Proof.
  revert p. induction n as [|n IH]; intros p Hp.
  - cbn in Hp. lia.
  - rewrite Nat2Z.inj_succ, Z.pow_succ_r in Hp by lia.
    destruct p as [q|q|]; cbn [digits2_pos].
    + specialize (IH q ltac:(lia)). lia.
    + specialize (IH q ltac:(lia)). lia.
    + rewrite Nat2Z.inj_succ. lia.
Qed.

(** The number of points of a cluster, below [2^53], is a finite positive
    binary64 number. *)
Lemma b64_of_int_count (n : nat) :
  (0 < n)%nat -> (Z.of_nat n < 2 ^ 53)%Z ->
  exists m e, FloatOps.Prim2SF (b64_of_int (Z.of_nat n)) = S754_finite false m e.
Proof.
  intros Hn Hlt. destruct (Z.of_nat n) as [|p|p] eqn:E; [lia | | lia].
  unfold b64_of_int. rewrite FloatAxioms.of_uint63_spec, Uint63.of_Z_spec.
  change (2 ^ 53)%Z with 9007199254740992%Z in Hlt.
  change Uint63.wB with 9223372036854775808%Z.
  rewrite Z.mod_small by lia.
  cbn [binary_normalize]. apply binary_round_small.
  apply (digits2_pos_le p 53). exact Hlt.
Qed.

(** A quotient of a number that is not negative by a finite positive one is
    not negative, and no [NaN]. *)
Lemma SFdiv_signed (x : spec_float) (m : positive) (e : Z) :
  signed false x ->
  signed false (SFdiv 53 1024 x (S754_finite false m e)).
Proof.
  unfold SFdiv. destruct x as [sx|sx| |sx mx ex]; cbn [signed]; try done;
    intros ->; try done.
  cbn [xorb].
  destruct (SFdiv_core_binary 53 1024 (Zpos mx) ex (Zpos m) e) as [[q e'] l] eqn:E.
  apply round_aux_signed.
  unfold SFdiv_core_binary in E.
  set (s := (ex - e - _)%Z) in E.
  set (m' := match s with Zpos _ => Z.shiftl (Zpos mx) s | Z0 => Zpos mx | Zneg _ => 0%Z end) in E.
  assert (Hm' : (0 <= m')%Z).
  { unfold m'. destruct s; try lia. apply Z.shiftl_nonneg. lia. }
  pose proof (Z_div_mod m' (Zpos m) ltac:(lia)) as Hdm.
  destruct (Z.div_eucl m' (Zpos m)) as [q' r'].
  injection E as <- _ _. nia.
Qed.

End FloatCount.

Section CoreSegment.

Import Arith Core.

Variable A : arith.
Variable P : num A -> Prop.

Lemma read3_pixel (img : image A) (p : nat) :
  read3 A (pixels img) (p * 3) = pixel A img p.
Proof.
  unfold read3, pixel. replace (3 * p)%nat with (p * 3)%nat by lia.
  destruct (pixels img !! (p * 3)%nat); [| reflexivity].
  destruct (pixels img !! (p * 3 + 1)%nat); [| reflexivity].
  destruct (pixels img !! (p * 3 + 2)%nat); reflexivity.
Qed.

Lemma pixel_in_range (img : image A) (p : nat) :
  (3 * p + 2 < length (pixels img))%nat -> is_Some (pixel A img p).
Proof.
  intros H. unfold pixel.
  destruct (lookup_lt_is_Some_2 (pixels img) (3 * p)) as [r ->]; [lia |].
  destruct (lookup_lt_is_Some_2 (pixels img) (3 * p + 1)) as [g ->]; [lia |].
  destruct (lookup_lt_is_Some_2 (pixels img) (3 * p + 2)) as [b ->]; [lia |].
  by eexists.
Qed.

Lemma pixel_Some_lt (img : image A) (p : nat) (x : triple A) :
  pixel A img p = Some x -> (3 * p + 2 < length (pixels img))%nat.
Proof.
  unfold pixel. intros H.
  destruct (pixels img !! (3 * p)%nat); [| discriminate].
  destruct (pixels img !! (3 * p + 1)%nat); [| discriminate].
  destruct (pixels img !! (3 * p + 2)%nat) eqn:E; [| discriminate].
  by apply lookup_lt_Some in E.
Qed.

Lemma painted_kept (img : image A) (C : list (triple A)) (out out' : list Z)
    (q : nat) :
  (forall t, (4 * q <= t < 4 * q + 4)%nat -> out' !! t = out !! t) ->
  painted A img C out q -> painted A img C out' q.
Proof.
  intros Hsame (px & b & c & Hpx & Hcl & Hc & H0 & H1 & H2 & H3).
  exists px, b, c. rewrite !Hsame by lia. done.
Qed.

(** One pass of the loop body paints its pixel and leaves the others. *)
Lemma paint_any (img : image A) (C : list (triple A)) (out : list Z)
    (y x : nat) :
  orders A P -> length (pixels img) = (w img * h img * 3)%nat -> C <> [] ->
  (forall p px j c, pixel A img p = Some px -> C !! j = Some c ->
     P (sqdist A px c)) ->
  length out = (w img * h img * 4)%nat ->
  (y < h img)%nat -> (x < w img)%nat ->
  exists out',
    paint A img C out y x = Ret out' /\ length out' = length out /\
    painted A img C out' (y * w img + x) /\
    forall q, painted A img C out q -> painted A img C out' q.
Proof.
  intros Hord Hpx HC HP Hout Hy Hx. unfold paint.
  set (p := (y * w img + x)%nat).
  assert (Hp : (p < w img * h img)%nat) by (unfold p; nia).
  rewrite read3_pixel.
  destruct (pixel_in_range img p) as [px Hread]; [lia |].
  rewrite Hread. cbn [nearest_px].
  destruct (nearest_least A P px C Hord (fun j c => HP p px j c Hread) HC)
    as (b & Hb & Hnear).
  rewrite Hb. cbn [obind].
  pose proof Hnear as (c & Hc & _). rewrite Hc.
  set (out' := <[(p * 4 + 3)%nat:=255%Z]> _).
  assert (Hlen : length out' = length out)
    by (unfold out'; by rewrite !length_insert).
  assert (Hat : painted A img C out' p).
  { exists px, b, c. split_and!; try done; unfold out', level, quantize.
    - replace (4 * p)%nat with (p * 4 + 0)%nat by lia.
      rewrite !list_lookup_insert_ne by lia.
      apply list_lookup_insert_eq. lia.
    - replace (4 * p + 1)%nat with (p * 4 + 1)%nat by lia.
      rewrite !list_lookup_insert_ne by lia.
      apply list_lookup_insert_eq. rewrite !length_insert. lia.
    - replace (4 * p + 2)%nat with (p * 4 + 2)%nat by lia.
      rewrite !list_lookup_insert_ne by lia.
      apply list_lookup_insert_eq. rewrite !length_insert. lia.
    - replace (4 * p + 3)%nat with (p * 4 + 3)%nat by lia.
      apply list_lookup_insert_eq. rewrite !length_insert. lia. }
  exists out'. split_and!; try done.
  intros q Hq. destruct (decide (q = p)) as [->|Hne]; [exact Hat |].
  revert Hq. apply painted_kept. intros t Ht. unfold out'.
  rewrite !list_lookup_insert_ne by lia. reflexivity.
Qed.

Lemma applySegmentation_any (img : image A) (C : list (triple A)) :
  orders A P -> (0 < w img)%nat -> (0 < h img)%nat ->
  length (pixels img) = (w img * h img * 3)%nat -> C <> [] ->
  (forall p px j c, pixel A img p = Some px -> C !! j = Some c ->
     P (sqdist A px c)) ->
  exists out,
    applySegmentation A (Some img) C = Ret (Some out) /\
    length out = (w img * h img * 4)%nat /\
    forall p, (p < w img * h img)%nat -> painted A img C out p.
Proof.
  intros Hord Hw Hh Hpx HC HP. unfold applySegmentation.
  destruct (decide (w img = 0 \/ h img = 0)%nat) as [[?|?]|_]; [lia | lia |].
  set (I := fun out : list Z => length out = (w img * h img * 4)%nat).
  set (ext := fun out out' : list Z =>
                forall q, painted A img C out q -> painted A img C out' q).
  assert (Hrefl : forall s, ext s s) by (intros s q Hq; exact Hq).
  assert (Htrans : forall s1 s2 s3, ext s1 s2 -> ext s2 s3 -> ext s1 s3)
    by (intros s1 s2 s3 H12 H23 q Hq; apply H23, H12, Hq).
  destruct (for_each_spec
              (fun out y =>
                 Segment.for_each (fun out x => paint A img C out y x)
                                  (seq 0 (w img)) out)
              I ext
              (fun y out => forall x, (x < w img)%nat ->
                              painted A img C out (y * w img + x))
              Hrefl Htrans) with (idx := seq 0 (h img))
                                 (s := replicate (w img * h img * 4) 0%Z)
    as (out & Hrun & Hlen & _ & Hall).
  - intros y s s' Hrow Hext x Hx. apply Hext, Hrow, Hx.
  - intros y s Hy%elem_of_seq Hs.
    destruct (for_each_spec (fun out x => paint A img C out y x)
                I ext (fun x out => painted A img C out (y * w img + x))
                Hrefl Htrans) with (idx := seq 0 (w img)) (s := s)
      as (s' & Hrun & Hs' & Hext & Hall); [| | exact Hs |].
    + intros x s1 s2 Hp Hext. apply Hext, Hp.
    + intros x s1 Hx%elem_of_seq Hs1.
      destruct (paint_any img C s1 y x) as (s2 & Hrun & Hl & Hp & Hext);
        [done | done | done | done | exact Hs1 | lia | lia |].
      exists s2. split_and!; try done. unfold I in *. lia.
    + exists s'. split_and!; try done.
      intros x Hx. apply Hall, elem_of_seq. lia.
  - apply length_replicate.
  - rewrite Hrun. cbn [obind]. exists out. split_and!; try done.
    intros p Hp.
    replace p with (p / w img * w img + p mod w img)%nat
      by (pose proof (Nat.div_mod_eq p (w img)); lia).
    apply Hall.
    + apply elem_of_seq. split; [lia |]. simpl.
      apply Nat.Div0.div_lt_upper_bound. lia.
    + apply Nat.mod_upper_bound. lia.
Qed.

End CoreSegment.

Section CorePipeline.

Import Arith Core.

Variable A : arith.

Lemma channel_any (raw : list Z) (j : nat) :
  (j < length raw)%nat ->
  exists z, raw !! j = Some z /\
            channel A raw j = Some (fround A (div A (of_int A z) (of_int A 255))).
Proof.
  intros Hj. destruct (lookup_lt_is_Some_2 raw j Hj) as [z Hz].
  exists z. unfold channel. by rewrite Hz.
Qed.

Lemma fill_pixels_any (raw : list Z) :
  forall (steps i : nat) (px : list (num A)),
    ((i + steps) * 4 <= length raw)%nat -> ((i + steps) * 3 <= length px)%nat ->
    exists px',
      fill_pixels A raw steps i px = Some px' /\ length px' = length px /\
      (forall j, (j < i * 3)%nat -> px' !! j = px !! j) /\
      (forall p c, (i <= p < i + steps)%nat -> (c < 3)%nat ->
         exists z, raw !! (p * 4 + c)%nat = Some z /\
                   px' !! (p * 3 + c)%nat =
                   Some (fround A (div A (of_int A z) (of_int A 255)))).
Proof.
  induction steps as [|st IH]; intros i px Hraw Hpx.
  - exists px. split_and!; try done. intros p c Hp. lia.
  - cbn [fill_pixels].
    destruct (channel_any raw (i * 4 + 0)) as (r & Hr & ->); [lia |].
    destruct (channel_any raw (i * 4 + 1)) as (g & Hg & ->); [lia |].
    destruct (channel_any raw (i * 4 + 2)) as (b & Hb & ->); [lia |].
    cbn [mbind option_bind].
    set (px1 := <[(i * 3 + 2)%nat:=_]> _).
    assert (Hl1 : length px1 = length px)
      by (unfold px1; by rewrite !length_insert).
    destruct (IH (S i) px1) as (px' & Hrun & Hl & Hpre & Hall); [lia | lia |].
    exists px'. split_and!; [done | lia | |].
    + intros j Hj. rewrite Hpre by lia. unfold px1.
      rewrite !list_lookup_insert_ne by lia. reflexivity.
    + intros p c Hp Hc. destruct (decide (p = i)) as [->|Hne];
        [| apply Hall; lia].
      rewrite Hpre by lia. unfold px1.
      assert (c = 0 \/ c = 1 \/ c = 2)%nat as [->|[->| ->]] by lia.
      * exists r. split; [done |]. rewrite !list_lookup_insert_ne by lia.
        apply list_lookup_insert_eq. lia.
      * exists g. split; [done |]. rewrite !list_lookup_insert_ne by lia.
        apply list_lookup_insert_eq. rewrite !length_insert. lia.
      * exists b. split; [done |].
        apply list_lookup_insert_eq. rewrite !length_insert. lia.
Qed.

Lemma getImageDataFromCanvas_any (cw ch : nat) (raw : list Z) :
  (0 < cw)%nat -> (0 < ch)%nat -> length raw = (cw * ch * 4)%nat ->
  exists img,
    getImageDataFromCanvas A cw ch raw = Ret (Some img) /\
    w img = cw /\ h img = ch /\ length (pixels img) = (cw * ch * 3)%nat /\
    (forall p c, (p < cw * ch)%nat -> (c < 3)%nat ->
       exists z, raw !! (p * 4 + c)%nat = Some z /\
                 pixels img !! (p * 3 + c)%nat =
                 Some (fround A (div A (of_int A z) (of_int A 255)))).
Proof.
  intros Hw Hh Hraw. unfold getImageDataFromCanvas.
  destruct (decide (cw = 0 \/ ch = 0)%nat) as [[?|?]|_]; [lia | lia |].
  destruct (fill_pixels_any raw (cw * ch) 0 (replicate (cw * ch * 3) (zero A)))
    as (px & Hrun & Hl & _ & Hall);
    [lia | rewrite length_replicate; lia |].
  rewrite length_replicate in Hl.
  rewrite Hrun. cbn [mbind option_bind].
  eexists. split_and!; try reflexivity; cbn [w h pixels]; try done.
  intros p c Hp Hc. apply Hall; lia.
Qed.

Lemma read3_any_in_range (px : list (num A)) (p : nat) :
  (p * 3 + 2 < length px)%nat -> is_Some (read3 A px (p * 3)).
Proof.
  intros H. unfold read3.
  destruct (lookup_lt_is_Some_2 px (p * 3)) as [r ->]; [lia |].
  destruct (lookup_lt_is_Some_2 px (p * 3 + 1)) as [g ->]; [lia |].
  destruct (lookup_lt_is_Some_2 px (p * 3 + 2)) as [b ->]; [lia |].
  by eexists.
Qed.

Lemma push_row_any (px : list (num A)) (cw y : nat) :
  forall (len x0 : nat) (points : list (triple A)),
    (((y * cw + x0 + len) * 3) <= length px)%nat ->
    exists points',
      push_row A px cw y (seq x0 len) points = Some points' /\
      length points' = (length points + len)%nat /\
      (forall q, (q < length points)%nat -> points' !! q = points !! q) /\
      (forall t, (t < len)%nat ->
         is_Some (points' !! (length points + t)%nat) /\
         points' !! (length points + t)%nat = read3 A px ((y * cw + x0 + t) * 3)).
Proof.
  induction len as [|len IH]; intros x0 points Hpx.
  - exists points. split_and!; [done | lia | done | intros t Ht; lia].
  - cbn [seq push_row].
    destruct (read3_any_in_range px (y * cw + x0)) as [p Hp]; [lia |].
    rewrite Hp. cbn [mbind option_bind].
    destruct (IH (S x0) (points ++ [p])) as (pts & Hrun & Hl & Hpre & Hall); [lia |].
    rewrite length_app in Hl, Hpre, Hall. cbn [length] in Hl, Hpre, Hall.
    exists pts. split_and!; [done | lia | |].
    + intros q Hq. rewrite Hpre by lia. by apply lookup_app_l.
    + intros [|t] Ht.
      * rewrite !Nat.add_0_r, Hpre by lia.
        rewrite list_lookup_middle by done. rewrite Hp. by split; [eexists |].
      * replace (length points + S t)%nat with (length points + 1 + t)%nat by lia.
        replace (y * cw + x0 + S t)%nat with (y * cw + S x0 + t)%nat by lia.
        apply Hall. lia.
Qed.

Lemma push_rows_any (px : list (num A)) (cw : nat) :
  forall (len y0 : nat) (points : list (triple A)),
    length points = (y0 * cw)%nat ->
    (((y0 + len) * cw * 3) <= length px)%nat ->
    exists points',
      push_rows A px cw (seq y0 len) points = Some points' /\
      length points' = ((y0 + len) * cw)%nat /\
      (forall q, (q < length points)%nat -> points' !! q = points !! q) /\
      (forall q, (y0 * cw <= q < (y0 + len) * cw)%nat ->
         is_Some (points' !! q) /\ points' !! q = read3 A px (q * 3)).
Proof.
  induction len as [|len IH]; intros y0 points Hlen Hpx.
  - exists points. split_and!; [done | lia | done | intros q Hq; lia].
  - cbn [seq push_rows].
    destruct (push_row_any px cw y0 cw 0 points) as (p1 & Hrow & Hl1 & Hpre1 & Hall1);
      [nia |].
    rewrite Hrow. cbn [mbind option_bind].
    destruct (IH (S y0) p1) as (pts & Hrun & Hl & Hpre & Hall); [lia | nia |].
    exists pts. split_and!; [done | lia | |].
    + intros q Hq. rewrite Hpre by lia. by apply Hpre1.
    + intros q Hq. destruct (decide (q < S y0 * cw)%nat) as [Hlt|Hge].
      * rewrite Hpre by lia.
        replace q with (length points + (q - y0 * cw))%nat by lia.
        replace ((length points + (q - y0 * cw)) * 3)%nat
          with ((y0 * cw + 0 + (q - y0 * cw)) * 3)%nat by lia.
        apply Hall1. lia.
      * apply Hall. lia.
Qed.

(** [buildPoints] gives one point per pixel, in row-major order. *)
Lemma buildPoints_any (img : image A) :
  length (pixels img) = (w img * h img * 3)%nat ->
  exists points,
    buildPoints A img = Some points /\ length points = (w img * h img)%nat /\
    forall p, (p < w img * h img)%nat ->
      is_Some (points !! p) /\ points !! p = pixel A img p.
Proof.
  intros Hpx. unfold buildPoints.
  destruct (push_rows_any (pixels img) (w img) (h img) 0 [])
    as (points & Hrun & Hl & _ & Hall); [reflexivity | lia |].
  exists points. split_and!; [done | lia |].
  intros p Hp. rewrite <- read3_pixel. apply Hall. lia.
Qed.

End CorePipeline.

Section CoreInvariant.

Import Arith Core.

Variable A : arith.

Lemma assigned_Forall (G : triple A -> Prop) (X : list (triple A)) :
  Forall G X -> forall lbl j, Forall G (assigned A X lbl j).
Proof.
  induction 1 as [|x X Hx HX IH]; intros [|l lbl] j; try by constructor.
  rewrite assigned_cons. destruct (decide (l = j)); [constructor |]; auto.
Qed.

Lemma assigned_length (X : list (triple A)) :
  forall lbl j, (length (assigned A X lbl j) <= length X)%nat.
Proof.
  induction X as [|x X IH]; intros [|l lbl] j; cbn [length]; try (cbn; lia).
  rewrite assigned_cons. specialize (IH lbl j).
  destruct (decide (l = j)); cbn [length]; lia.
Qed.

Lemma init_any_elements (X : list (triple A)) (k : nat) (draws : list Z) :
  forall (used : gset Z) (C C' : list (triple A)),
    Forall (fun c => c ∈ X) C -> init A X k draws used C = Ret C' ->
    Forall (fun c => c ∈ X) C'.
Proof.
  induction draws as [|i rest IH]; intros used C C' HC; simpl.
  - destruct (decide (length C < k)%nat); [discriminate |]. by intros [= <-].
  - destruct (decide (length C < k)%nat); [| by intros [= <-]].
    destruct (decide (i ∈ used)); [by apply IH |].
    destruct (Cluster.index X i) as [x|] eqn:Hx; [| discriminate].
    apply IH. apply Forall_app. split; [exact HC |].
    constructor; [| constructor]. by eapply index_elem_of.
Qed.

(** What holds of the starting centroids and of every mean of assigned
    points holds of the centroids at the exit of the loop. *)
Lemma lloyd_keeps (G : triple A -> Prop) (X : list (triple A)) (k : nat) :
  (0 < k)%nat ->
  (forall lbl j, assigned A X lbl j <> [] -> G (mean A (assigned A X lbl j))) ->
  forall (iters : nat) (C : list (triple A)) (lbl : list nat) (r : exit A),
    length C = k -> length lbl = length X -> Forall G C ->
    lloyd A X k iters C lbl = Ret r -> Forall G (centroids r).
Proof.
  intros Hk Hmean. induction iters as [|m IH]; intros C lbl r HC Hlen HG.
  - cbn [lloyd]. by intros [= <-].
  - cbn [lloyd].
    destruct (assign_any A C k Hk HC X 0 lbl false) as (lbl' & ch & Has & _);
      [simpl; lia |].
    rewrite Has. cbn [obind].
    destruct (assign_any_lt A C k X lbl lbl' false ch Hk HC Hlen Has) as [Hlt Hl'].
    destruct (update_any A X k lbl' C HC Hl' Hlt) as (C' & Hup & HC' & Hnew).
    rewrite Hup. cbn [obind].
    assert (HG' : Forall G C').
    { apply Forall_lookup. intros j c Hj.
      assert (Hjk : (j < k)%nat) by (apply lookup_lt_Some in Hj; lia).
      destruct (Hnew j Hjk) as [Hkeep Hset].
      destruct (assigned A X lbl' j) as [|p ps] eqn:E.
      - rewrite Hkeep in Hj by done. exact (Forall_lookup_1 _ _ _ _ HG Hj).
      - rewrite Hset in Hj by done. injection Hj as <-.
        rewrite <- E. apply Hmean. by rewrite E. }
    destruct ch; [by apply (IH C' lbl') | by intros [= <-]].
Qed.

End CoreInvariant.

Section CleanFacts.

Import Arith Core Doubles SpecFloat.

Lemma cleanb_clean (v : PrimFloat.float) : cleanb v = true -> clean v.
Proof.
  unfold cleanb, clean.
  by destruct (FloatOps.Prim2SF v) as [[|]|[|]| |[|] m e].
Qed.

Lemma clean_not_nan (v : PrimFloat.float) :
  clean v -> PrimFloat.is_nan v = false.
Proof.
  unfold clean. intros H. apply Prim2SF_is_nan. intros E. by rewrite E in H.
Qed.

Lemma add_clean (a b : PrimFloat.float) :
  clean a -> clean b -> clean (PrimFloat.add a b).
Proof.
  unfold clean. rewrite FloatAxioms.add_spec. apply SFadd_signed.
Qed.

Lemma lsum_clean (vs : list PrimFloat.float) :
  Forall clean vs -> clean (lsum binary64 vs).
Proof.
  unfold lsum. cbn [add zero binary64].
  assert (H0 : clean PrimFloat.zero) by reflexivity. revert H0.
  generalize PrimFloat.zero.
  induction vs as [|v vs IH]; intros acc Hacc Hvs; [exact Hacc |].
  apply Forall_cons in Hvs as [Hv Hvs]. cbn [fold_left].
  apply IH; [by apply add_clean | exact Hvs].
Qed.

Lemma div_count_clean (a : PrimFloat.float) (n : nat) :
  (0 < n)%nat -> (Z.of_nat n < 2 ^ 53)%Z -> clean a ->
  clean (PrimFloat.div a (b64_of_int (Z.of_nat n))).
Proof.
  intros Hn Hlt Ha. unfold clean. rewrite FloatAxioms.div_spec.
  destruct (b64_of_int_count n Hn Hlt) as (m & e & ->).
  by apply SFdiv_signed.
Qed.

(** In double precision the mean of fewer than [2^53] clean points is
    clean. *)
Lemma mean_clean (ps : list (triple binary64)) :
  ps <> [] -> (Z.of_nat (length ps) < 2 ^ 53)%Z -> Forall clean3 ps ->
  clean3 (mean binary64 ps).
Proof.
  intros Hne Hlt Hps.
  assert (Hn : (0 < length ps)%nat) by (destruct ps; [done | cbn; lia]).
  unfold mean, clean3. cbn [c0 c1 c2 div of_int binary64].
  split_and!; apply div_count_clean; try done; apply lsum_clean;
    apply Forall_fmap; eapply Forall_impl; try exact Hps;
    by intros c (H0 & H1 & H2).
Qed.

Lemma kmeans64_clean (draws : list Z) (X : list (triple binary64))
    (k maxIter : nat) (C : list (triple binary64)) :
  (0 < k)%nat -> (Z.of_nat (length X) < 2 ^ 53)%Z -> Forall clean3 X ->
  kmeans binary64 draws X k maxIter = Ret C -> Forall clean3 C.
Proof.
  intros Hk Hlt HX. unfold kmeans, kmeans_run.
  destruct (init binary64 X k draws ∅ []) as [C0| |] eqn:Hinit; try discriminate.
  cbn [obind].
  destruct (lloyd binary64 X k maxIter C0 (replicate (length X) 0%nat))
    as [r| |] eqn:Hr; try discriminate.
  cbn [obind]. intros [= <-].
  assert (HC0 : length C0 = k).
  { apply (init_any_length binary64 X k draws ∅ [] C0); [simpl; lia | exact Hinit]. }
  apply (lloyd_keeps binary64 clean3 X k Hk) with (iters := maxIter) (C := C0)
    (lbl := replicate (length X) 0%nat); try done.
  - intros lbl j Hne. apply mean_clean; [exact Hne | | by apply assigned_Forall].
    pose proof (assigned_length binary64 X lbl j). lia.
  - apply length_replicate.
  - pose proof (init_any_elements binary64 X k draws ∅ [] C0 (Forall_nil_2 _) Hinit)
      as Hin.
    rewrite Forall_forall in HX. eapply Forall_impl; [exact Hin |].
    intros c Hc. by apply HX.
Qed.

(** Every byte is stored as a finite number that is not negative. *)
Lemma stored_byte (z : Z) :
  (0 <= z <= 255)%Z -> finite64 (stored z) = true /\ clean (stored z).
Proof.
  intros Hz.
  pose proof (bytes_all (fun z => finite64 (stored z) && cleanb (stored z))
                ltac:(vm_compute; reflexivity) z Hz) as H.
  cbv beta in H. apply andb_prop in H as [H1 H2].
  split; [exact H1 | by apply cleanb_clean].
Qed.

(** The pixels of an image that [getImageDataFromCanvas] makes of bytes
    are finite and not negative. *)
Lemma image64_pixels (cw ch : nat) (raw : list Z) (img : image binary64) :
  (0 < cw)%nat -> (0 < ch)%nat -> length raw = (cw * ch * 4)%nat ->
  Forall (fun z => (0 <= z <= 255)%Z) raw ->
  getImageDataFromCanvas binary64 cw ch raw = Ret (Some img) ->
  Forall (fun v => finite64 v = true /\ clean v) (pixels img).
Proof.
  intros Hw Hh Hraw Hbytes Himg.
  destruct (getImageDataFromCanvas_any binary64 cw ch raw Hw Hh Hraw)
    as (img' & Himg' & _ & _ & Hlen & Hall).
  rewrite Himg in Himg'. injection Himg' as <-.
  apply Forall_lookup. intros j v Hj.
  assert (Hjl : (j < cw * ch * 3)%nat)
    by (rewrite <- Hlen; exact (lookup_lt_Some _ _ _ Hj)).
  destruct (Hall (j / 3)%nat (j mod 3)%nat) as (z & Hz & Hv).
  { apply Nat.Div0.div_lt_upper_bound. lia. }
  { apply Nat.mod_upper_bound. lia. }
  replace (j / 3 * 3 + j mod 3)%nat with j in Hv
    by (pose proof (Nat.div_mod_eq j 3); lia).
  assert (E : Some v = Some (stored z)) by (rewrite <- Hj; exact Hv).
  injection E as ->.
  apply (stored_byte z). exact (Forall_lookup_1 _ _ _ _ Hbytes Hz).
Qed.

Lemma pixel_channels (G : PrimFloat.float -> Prop) (img : image binary64)
    (p : nat) (x : triple binary64) :
  Forall G (pixels img) -> pixel binary64 img p = Some x ->
  G (c0 x) /\ G (c1 x) /\ G (c2 x).
Proof.
  intros HG Hx. unfold pixel in Hx.
  destruct (pixels img !! (3 * p)%nat) as [r|] eqn:Er; [| discriminate].
  destruct (pixels img !! (3 * p + 1)%nat) as [g|] eqn:Eg; [| discriminate].
  destruct (pixels img !! (3 * p + 2)%nat) as [b|] eqn:Eb; [| discriminate].
  injection Hx as <-. cbn [c0 c1 c2].
  split_and!; eapply Forall_lookup_1; eauto.
Qed.

End CleanFacts.

Section CountFacts.

Import Pipeline.
Local Open Scope Q_scope.

(** A finite cluster count of the click handler is at least 1. *)
Lemma chosen_k_finite (v : number) (z : Z) :
  chosen_k v = Num (inject_Z z) -> (1 <= z)%Z.
Proof.
  unfold chosen_k. destruct v as [| | |q]; cbn [or3 Math_floor Math_max1].
  - change (Qfloor 3) with 3%Z. cbn. intros [= <-]. lia.
  - discriminate.
  - intros [= <-]. lia.
  - destruct (Qeq_bool q 0); cbn [Math_floor Math_max1].
    + change (Qfloor 3) with 3%Z. cbn. intros [= <-]. lia.
    + destruct (Qle_bool 1 (inject_Z (Qfloor q))) eqn:E.
      * intros [= <-]. apply Qle_bool_iff in E.
        change 1 with (inject_Z 1) in E. by rewrite <- Zle_Qle in E.
      * intros [= <-]. lia.
Qed.

End CountFacts.

Section CoreClaims.

Import Arith Core Doubles.

(** C4.  In every iteration of the loop of [kmeans], on [k >= 1] centroids
    and one label per point, whatever the arithmetic, the assignment and
    then the update step run without any exception; the update gives each
    centroid index with at least one assigned point the mean of its
    assigned points, channel by channel: the sum of their values, added
    in the order of the points, divided by their number; it leaves each
    index with no assigned point at its previous value; and the loop goes
    on, or ends, with those centroids. *)
Theorem update_mean_or_keep (A : arith) (X : list (triple A)) (k m : nat)
    (lbl : list nat) (C : list (triple A)) :
  (0 < k)%nat -> length C = k -> length lbl = length X ->
  exists lbl' changed C',
    assign A C k X 0 lbl false = Ret (lbl', changed) /\
    update A X k lbl' C = Ret C' /\ length C' = k /\
    (forall j, (j < k)%nat ->
       (assigned A X lbl' j = [] -> C' !! j = C !! j) /\
       (assigned A X lbl' j <> [] ->
          C' !! j = Some (mean A (assigned A X lbl' j)))) /\
    lloyd A X k (S m) C lbl =
      if changed then lloyd A X k m C' lbl' else Ret (Exit C' lbl' true).
Proof.
  intros Hk HC Hlen.
  destruct (assign_any A C k Hk HC X 0 lbl false) as (lbl' & ch & Has & _);
    [simpl; lia |].
  destruct (assign_any_lt A C k X lbl lbl' false ch Hk HC Hlen Has) as [Hlt Hl'].
  destruct (update_any A X k lbl' C HC Hl' Hlt) as (C' & Hup & HC' & Hmean).
  exists lbl', ch, C'. split_and!; try done.
  cbn [lloyd]. rewrite Has. cbn [obind]. rewrite Hup. reflexivity.
Qed.

Lemma update_mean_or_keep_witness :
  exists lbl' changed C',
    assign binary64 [grey (ratio 1 10); grey (ratio 1 10)] 2
           [grey (ratio 1 10); grey (ratio 2 10); grey (ratio 3 10)] 0
           [0; 0; 0]%nat false = Ret (lbl', changed) /\
    update binary64 [grey (ratio 1 10); grey (ratio 2 10); grey (ratio 3 10)] 2
           lbl' [grey (ratio 1 10); grey (ratio 1 10)] = Ret C' /\
    length C' = 2%nat /\
    (forall j, (j < 2)%nat ->
       (assigned binary64 [grey (ratio 1 10); grey (ratio 2 10); grey (ratio 3 10)]
                 lbl' j = [] ->
          C' !! j = [grey (ratio 1 10); grey (ratio 1 10)] !! j) /\
       (assigned binary64 [grey (ratio 1 10); grey (ratio 2 10); grey (ratio 3 10)]
                 lbl' j <> [] ->
          C' !! j =
          Some (mean binary64
                  (assigned binary64
                     [grey (ratio 1 10); grey (ratio 2 10); grey (ratio 3 10)]
                     lbl' j)))) /\
    lloyd binary64 [grey (ratio 1 10); grey (ratio 2 10); grey (ratio 3 10)] 2 30
          [grey (ratio 1 10); grey (ratio 1 10)] [0; 0; 0]%nat =
      if changed
      then lloyd binary64 [grey (ratio 1 10); grey (ratio 2 10); grey (ratio 3 10)]
                 2 29 C' lbl'
      else Ret (Exit C' lbl' true).
Proof.
  apply (update_mean_or_keep binary64
           [grey (ratio 1 10); grey (ratio 2 10); grey (ratio 3 10)] 2 29
           [0; 0; 0]%nat [grey (ratio 1 10); grey (ratio 1 10)]).
  - lia.
  - reflexivity.
  - reflexivity.
Defined.

(** C6, as the code has it.  With [k = 1], a non-empty point list, a
    random index of the list and at least one iteration, [kmeans] returns
    one centroid: each channel is the sum of the points' values, added in
    the order of the points, divided by their number, every operation
    being one of the arithmetic. *)
Theorem kmeans_single_cluster_mean (A : arith) (i : Z) (rest : list Z)
    (X : list (triple A)) (m : nat) :
  X <> [] -> (0 <= i < Z.of_nat (length X))%Z ->
  kmeans A (i :: rest) X 1 (S m) = Ret [mean A X].
Proof.
  intros HX Hi. unfold kmeans, kmeans_run. simpl init.
  destruct (decide (0 < 1)%nat); [| lia].
  destruct (decide (i ∈ (∅ : gset Z))); [set_solver |].
  destruct (index_Some X i Hi) as [x Hx].
  rewrite Hx, init_any_done by (simpl; lia). cbn [obind].
  destruct (lloyd_single A X HX m [x] (replicate (length X) 0%nat) eq_refl)
    as (r & Hr & HCr); [apply length_replicate |].
  rewrite Hr. cbn [obind]. rewrite HCr. reflexivity.
Qed.

Lemma kmeans_single_cluster_mean_witness :
  kmeans binary64 [2%Z] [grey (ratio 1 10); grey (ratio 2 10); grey (ratio 3 10)]
         1 30 =
  Ret [mean binary64 [grey (ratio 1 10); grey (ratio 2 10); grey (ratio 3 10)]].
Proof.
  apply (kmeans_single_cluster_mean binary64 2 []
           [grey (ratio 1 10); grey (ratio 2 10); grey (ratio 3 10)] 29).
  - discriminate.
  - simpl. lia.
Defined.

(** C6, against the claim.  In binary64 the points [0.1], [0.2], [0.3]
    (grey) with [k = 1] give the centroid 0.20000000000000004, and the
    same points in the opposite order 0.19999999999999998: neither is a
    third of the exact sum of the three numbers, and the result depends
    on the order of the points, which the exact mean does not. *)
Lemma kmeans_single_cluster_rounded :
  exists c c',
    kmeans binary64 [0%Z]
           [grey (ratio 1 10); grey (ratio 2 10); grey (ratio 3 10)] 1 30
      = Ret [c] /\
    kmeans binary64 [0%Z]
           [grey (ratio 3 10); grey (ratio 2 10); grey (ratio 1 10)] 1 30
      = Ret [c'] /\
    (F2Q (c0 c') < F2Q (c0 c))%Q /\
    ~ (F2Q (c0 c) * 3
       == F2Q (ratio 1 10) + F2Q (ratio 2 10) + F2Q (ratio 3 10))%Q /\
    ~ (F2Q (c0 c') * 3
       == F2Q (ratio 1 10) + F2Q (ratio 2 10) + F2Q (ratio 3 10))%Q.
Proof.
  eexists. eexists. split; [vm_compute; reflexivity |].
  split; [vm_compute; reflexivity |].
  split_and!.
  - vm_compute. reflexivity.
  - intros H. vm_compute in H. discriminate.
  - intros H. vm_compute in H. discriminate.
Qed.

(** X7.  After at least one iteration, whatever the arithmetic, the
    returned centroids and labels agree: there is one label below [k] per
    point, and every centroid index that has assigned points holds their
    mean, each channel the sum of their values in the order of the points
    divided by their number. *)
Theorem kmeans_run_centroids_are_means (A : arith) (draws : list Z)
    (X : list (triple A)) (k m : nat) (r : exit A) :
  (0 < k)%nat -> kmeans_run A draws X k (S m) = Ret r ->
  (forall j, assigned A X (labels r) j <> [] ->
     centroids r !! j = Some (mean A (assigned A X (labels r) j))) /\
  Forall (fun l => (l < k)%nat) (labels r) /\
  length (labels r) = length X /\ length (centroids r) = k.
Proof.
  intros Hk. unfold kmeans_run.
  destruct (init A X k draws ∅ []) as [C0| |] eqn:Hinit; try discriminate.
  cbn [obind]. intros Hrun.
  assert (HC0 : length C0 = k).
  { apply (init_any_length A X k draws ∅ [] C0); [simpl; lia | exact Hinit]. }
  destruct (lloyd_any A X k Hk (S m) C0 (replicate (length X) 0%nat) HC0)
    as (r' & Hr & HCr & Hlr & Hs); [apply length_replicate |].
  rewrite Hrun in Hr. injection Hr as <-.
  destruct (Hs ltac:(lia)) as [Hset Hlt]. done.
Qed.

Lemma kmeans_run_centroids_are_means_witness :
  (forall j,
     assigned binary64 [grey (ratio 1 10); grey (ratio 2 10); grey (ratio 3 10)]
              [0; 1; 1]%nat j <> [] ->
     [grey (PrimFloat.div (PrimFloat.add PrimFloat.zero (ratio 1 10))
                          (b64_of_int 1));
      grey (PrimFloat.div (PrimFloat.add (PrimFloat.add PrimFloat.zero (ratio 2 10))
                                         (ratio 3 10))
                          (b64_of_int 2))] !! j =
     Some (mean binary64
             (assigned binary64
                [grey (ratio 1 10); grey (ratio 2 10); grey (ratio 3 10)]
                [0; 1; 1]%nat j))) /\
  Forall (fun l => (l < 2)%nat) [0; 1; 1]%nat /\
  length [0; 1; 1]%nat =
    length [grey (ratio 1 10); grey (ratio 2 10); grey (ratio 3 10)] /\
  length [grey (PrimFloat.div (PrimFloat.add PrimFloat.zero (ratio 1 10))
                              (b64_of_int 1));
          grey (PrimFloat.div (PrimFloat.add (PrimFloat.add PrimFloat.zero (ratio 2 10))
                                             (ratio 3 10))
                              (b64_of_int 2))] = 2%nat.
Proof.
  apply (kmeans_run_centroids_are_means binary64 [0; 2]%Z
           [grey (ratio 1 10); grey (ratio 2 10); grey (ratio 3 10)] 2 29
           (Exit [grey (PrimFloat.div (PrimFloat.add PrimFloat.zero (ratio 1 10))
                                      (b64_of_int 1));
                  grey (PrimFloat.div
                          (PrimFloat.add (PrimFloat.add PrimFloat.zero (ratio 2 10))
                                         (ratio 3 10))
                          (b64_of_int 2))]
                 [0; 1; 1]%nat true)).
  - lia.
  - vm_compute. reflexivity.
Defined.

End CoreClaims.

Section CoreImaging.

Import Pipeline Arith Core Doubles.

(** C7, as the code has it.  In double precision, on an image of
    [w*h >= 1] pixels whose [w*h*3] channel values are finite and a
    non-empty list of centroids without [NaN], [applySegmentation] produces
    an output buffer of the same [w*h] pixels (four bytes each); each
    output pixel carries the colour of the centroid of least computed
    squared distance to the input pixel, the lowest index among those whose
    computed distances are equal; each channel is multiplied by 255 and
    stored as a byte, which [Math.round] and the clamped store make a
    nearest integer of [0 .. 255] to the product; alpha is 255. *)
Theorem applySegmentation_nearest_centroid (img : image binary64)
    (C : list (triple binary64)) :
  (0 < w img)%nat -> (0 < h img)%nat ->
  length (pixels img) = (w img * h img * 3)%nat -> C <> [] ->
  Forall (fun v => finite64 v = true) (pixels img) ->
  Forall (fun c => PrimFloat.is_nan (c0 c) = false /\
                   PrimFloat.is_nan (c1 c) = false /\
                   PrimFloat.is_nan (c2 c) = false) C ->
  exists out,
    applySegmentation binary64 (Some img) C = Ret (Some out) /\
    length out = (w img * h img * 4)%nat /\
    (forall p, (p < w img * h img)%nat -> painted64 img C out p) /\
    (forall x, finite64 x = true ->
       Segment.nearest_level (F2Q x) (b64_to_byte x)).
Proof.
  intros Hw Hh Hpx HC Hfin Hnan.
  destruct (applySegmentation_any binary64 (fun x => PrimFloat.is_nan x = false)
              img C orders_binary64 Hw Hh Hpx HC)
    as (out & Hrun & Hlen & Hall).
  - intros p x j c Hx Hc.
    pose proof (Forall_lookup_1 _ _ _ _ Hnan Hc) as (Hc0 & Hc1 & Hc2).
    unfold pixel in Hx.
    destruct (pixels img !! (3 * p)%nat) as [r|] eqn:Er; [| discriminate].
    destruct (pixels img !! (3 * p + 1)%nat) as [g|] eqn:Eg; [| discriminate].
    destruct (pixels img !! (3 * p + 2)%nat) as [b|] eqn:Eb; [| discriminate].
    injection Hx as <-.
    apply sqdist64_not_nan; cbn [c0 c1 c2]; try done.
    + exact (Forall_lookup_1 _ _ _ _ Hfin Er).
    + exact (Forall_lookup_1 _ _ _ _ Hfin Eg).
    + exact (Forall_lookup_1 _ _ _ _ Hfin Eb).
  - exists out. split_and!; [done | done | exact Hall |].
    apply b64_to_byte_nearest.
Qed.

Lemma applySegmentation_nearest_centroid_witness :
  exists out,
    applySegmentation binary64
      (Some (Image 2 1 [stored 0; stored 0; stored 0;
                        stored 255; stored 255; stored 230]))
      [colour 85 85 85; colour 255 255 255] = Ret (Some out) /\
    length out = (2 * 1 * 4)%nat /\
    (forall p, (p < 2 * 1)%nat ->
       painted64
         (Image 2 1 [stored 0; stored 0; stored 0;
                     stored 255; stored 255; stored 230])
         [colour 85 85 85; colour 255 255 255] out p) /\
    (forall x, finite64 x = true ->
       Segment.nearest_level (F2Q x) (b64_to_byte x)).
Proof.
  apply (applySegmentation_nearest_centroid
           (Image 2 1 [stored 0; stored 0; stored 0;
                       stored 255; stored 255; stored 230])
           [colour 85 85 85; colour 255 255 255]).
  - cbn. lia.
  - cbn. lia.
  - reflexivity.
  - discriminate.
  - repeat (apply Forall_cons; split; [vm_compute; reflexivity |]). constructor.
  - repeat (apply Forall_cons; split; [vm_compute; tauto |]). constructor.
Defined.

(** C7, against the claim.  In binary64, on the one black pixel that
    [getImageDataFromCanvas] makes of the bytes [0,0,0] and the two
    centroids of the bytes [1,1,12] and [12,1,1]: the exact squared
    distances from the pixel to the two centroids are equal, a tie that the
    claim gives to centroid 0, of levels [1,1,12]; the computed distances
    differ in the last place and [applySegmentation] paints centroid 1. *)
Lemma applySegmentation_rounded_tie :
  getImageDataFromCanvas binary64 1 1 [0; 0; 0; 255]%Z
    = Ret (Some (Image 1 1 [stored 0; stored 0; stored 0])) /\
  (sqdist exact (valued (colour 0 0 0)) (valued (colour 1 1 12))
   == sqdist exact (valued (colour 0 0 0)) (valued (colour 12 1 1)))%Q /\
  PrimFloat.ltb (sqdist64 (colour 0 0 0) (colour 12 1 1))
                (sqdist64 (colour 0 0 0) (colour 1 1 12)) = true /\
  [level64 (c0 (colour 1 1 12)); level64 (c1 (colour 1 1 12));
   level64 (c2 (colour 1 1 12)); 255%Z] = [1; 1; 12; 255]%Z /\
  applySegmentation binary64 (Some (Image 1 1 [stored 0; stored 0; stored 0]))
    [colour 1 1 12; colour 12 1 1] = Ret (Some [12; 1; 1; 255]%Z).
Proof.
  split_and!; vm_compute; reflexivity.
Qed.

(** X26.  Over the exact rationals, where nothing is rounded, the
    segmentation is what the specification says for every image of
    [w*h >= 1] pixels and every non-empty centroid list: each output pixel
    carries the colour of the centroid of least squared distance, exact
    ties going to the lowest index, each channel a nearest integer of
    [0 .. 255] to 255 times its value. *)
Theorem applySegmentation_exact_ties (img : image exact)
    (C : list (triple exact)) :
  (0 < w img)%nat -> (0 < h img)%nat ->
  length (pixels img) = (w img * h img * 3)%nat -> C <> [] ->
  exists out,
    applySegmentation exact (Some img) C = Ret (Some out) /\
    length out = (w img * h img * 4)%nat /\
    (forall p, (p < w img * h img)%nat -> painted exact img C out p) /\
    (forall c : Q, Segment.nearest_level (c * 255) (level exact c)).
Proof.
  intros Hw Hh Hpx HC.
  destruct (applySegmentation_any exact (fun _ => True) img C orders_exact
              Hw Hh Hpx HC) as (out & Hrun & Hlen & Hall); [done |].
  exists out. split_and!; try done.
  intros c. apply clamp8_round_nearest.
Qed.

Lemma applySegmentation_exact_ties_witness :
  exists out,
    applySegmentation exact
      (Some (Image 2 1 [0; 0; 0; 1; 1; 9 # 10]%Q))
      [Triple (1 # 3) (1 # 3) (1 # 3); Triple 1 1 1]%Q = Ret (Some out) /\
    length out = (2 * 1 * 4)%nat /\
    (forall p, (p < 2 * 1)%nat ->
       painted exact (Image 2 1 [0; 0; 0; 1; 1; 9 # 10]%Q)
         [Triple (1 # 3) (1 # 3) (1 # 3); Triple 1 1 1]%Q out p) /\
    (forall c : Q, Segment.nearest_level (c * 255) (level exact c)).
Proof.
  apply (applySegmentation_exact_ties
           (Image 2 1 [0; 0; 0; 1; 1; 9 # 10]%Q)
           [Triple (1 # 3) (1 # 3) (1 # 3); Triple 1 1 1]%Q).
  - cbn. lia.
  - cbn. lia.
  - reflexivity.
  - discriminate.
Defined.

(** X10.  On the [w*h*4] bytes of a canvas of at least one pixel,
    [getImageDataFromCanvas] gives an image of the same size with [w*h*3]
    channel values: the red, green and blue bytes of every pixel, each
    divided by 255 and stored into the [Float32Array], the alpha byte
    dropped.  In double precision the stored value of a byte is the
    quotient rounded to single precision, a finite number of [0 .. 1]
    within [2^-25] of the exact quotient, and [applySegmentation]'s
    [Math.round(c*255)] gives the byte back. *)
Theorem getImageDataFromCanvas_normalises (A : arith) (cw ch : nat)
    (raw : list Z) :
  (0 < cw)%nat -> (0 < ch)%nat -> length raw = (cw * ch * 4)%nat ->
  (exists img,
     getImageDataFromCanvas A cw ch raw = Ret (Some img) /\
     w img = cw /\ h img = ch /\ length (pixels img) = (cw * ch * 3)%nat /\
     (forall p c, (p < cw * ch)%nat -> (c < 3)%nat ->
        exists z, raw !! (p * 4 + c)%nat = Some z /\
                  pixels img !! (p * 3 + c)%nat =
                  Some (fround A (div A (of_int A z) (of_int A 255))))) /\
  (forall z, (0 <= z <= 255)%Z ->
     fround binary64 (div binary64 (of_int binary64 z) (of_int binary64 255))
       = stored z /\
     finite64 (stored z) = true /\
     (0 <= F2Q (stored z))%Q /\ (F2Q (stored z) <= 1)%Q /\
     (Qabs (F2Q (stored z) - inject_Z z / 255) <= 1 # 33554432)%Q /\
     quantize binary64 (stored z) = z).
Proof.
  intros Hw Hh Hraw. split.
  - exact (getImageDataFromCanvas_any A cw ch raw Hw Hh Hraw).
  - intros z Hz.
    pose proof (bytes_all
      (fun z =>
         finite64 (stored z) && Qle_bool 0 (F2Q (stored z)) &&
         Qle_bool (F2Q (stored z)) 1 &&
         Qle_bool (Qabs (F2Q (stored z) - inject_Z z / 255)) (1 # 33554432) &&
         Z.eqb (quantize binary64 (stored z)) z)
      ltac:(vm_compute; reflexivity) z Hz) as H.
    cbv beta in H.
    apply andb_prop in H as [H H5]. apply andb_prop in H as [H H4].
    apply andb_prop in H as [H H3]. apply andb_prop in H as [H1 H2].
    split_and!; [reflexivity | exact H1 | by apply Qle_bool_iff
                | by apply Qle_bool_iff | by apply Qle_bool_iff
                | by apply Z.eqb_eq].
Qed.

Lemma getImageDataFromCanvas_normalises_witness :
  (exists img,
     getImageDataFromCanvas binary64 1 2 [255; 0; 51; 255; 0; 102; 255; 255]%Z
       = Ret (Some img) /\
     w img = 1%nat /\ h img = 2%nat /\ length (pixels img) = (1 * 2 * 3)%nat /\
     (forall p c, (p < 1 * 2)%nat -> (c < 3)%nat ->
        exists z, [255; 0; 51; 255; 0; 102; 255; 255]%Z !! (p * 4 + c)%nat = Some z /\
                  pixels img !! (p * 3 + c)%nat =
                  Some (fround binary64
                          (div binary64 (of_int binary64 z) (of_int binary64 255))))) /\
  (forall z, (0 <= z <= 255)%Z ->
     fround binary64 (div binary64 (of_int binary64 z) (of_int binary64 255))
       = stored z /\
     finite64 (stored z) = true /\
     (0 <= F2Q (stored z))%Q /\ (F2Q (stored z) <= 1)%Q /\
     (Qabs (F2Q (stored z) - inject_Z z / 255) <= 1 # 33554432)%Q /\
     quantize binary64 (stored z) = z).
Proof.
  apply (getImageDataFromCanvas_normalises binary64 1 2
           [255; 0; 51; 255; 0; 102; 255; 255]%Z).
  - lia.
  - lia.
  - reflexivity.
Defined.

(** The byte 51, a fifth of 255, is stored as the single-precision number
    nearest to 0.2, which is 0.20000000298023224 and not the double
    nearest to 0.2. *)
Lemma getImageDataFromCanvas_single_precision :
  getImageDataFromCanvas binary64 1 1 [51; 51; 51; 255]%Z
    = Ret (Some (Image 1 1 [stored 51; stored 51; stored 51])) /\
  (F2Q (stored 51) == 13421773 # 67108864)%Q /\
  stored 51 <> ratio 51 255.
Proof.
  split_and!; [vm_compute; reflexivity | vm_compute; reflexivity |].
  intros H. apply (f_equal F2Q) in H. vm_compute in H. discriminate.
Qed.

(** X12.  With no centroid, [applySegmentation] on an image of at least one
    pixel throws a [TypeError] at [dist2(px, centroids[0])], whatever the
    arithmetic and whatever the pixel array holds. *)
Theorem applySegmentation_no_centroid_throws (A : arith) (cw ch : nat)
    (px : list (num A)) :
  applySegmentation A (Some (Image (S cw) (S ch) px)) [] = Throw TypeError.
Proof.
  unfold applySegmentation. cbn [w h].
  destruct (decide (S cw = 0 \/ S ch = 0)%nat) as [[?|?]|_]; [lia | lia |].
  cbn [seq Segment.for_each obind]. unfold paint at 1. cbn [w pixels].
  destruct (read3 A px ((0 * S cw + 0) * 3)); reflexivity.
Qed.

(** X13.  On an image without pixels ([w] or [h] is 0), [applySegmentation]
    throws the [IndexSizeError] of [createImageData(w,h)] before it looks
    at a pixel or a centroid. *)
Theorem applySegmentation_empty_image (A : arith) (img : image A)
    (C : list (triple A)) :
  (w img * h img = 0)%nat ->
  applySegmentation A (Some img) C = Throw IndexSizeError.
Proof.
  intros H0. unfold applySegmentation.
  destruct (decide (w img = 0 \/ h img = 0)%nat) as [_|Hn]; [reflexivity |].
  exfalso. apply Hn. nia.
Qed.

Lemma applySegmentation_empty_image_witness :
  applySegmentation binary64 (Some (Image 0 5 [])) [colour 1 2 3]
  = Throw IndexSizeError.
Proof.
  apply (applySegmentation_empty_image binary64 (Image 0 5 []) [colour 1 2 3]).
  reflexivity.
Defined.

(** X16.  The cluster count of the click handler, from the value of
    [Number(kInput.value)]: [Infinity] stays [Infinity]; every other input
    gives an integer, at least 1: the floor of the input when the input is
    at least 1, 1 for any other nonzero input and for [-Infinity], and 3
    when the input is [NaN] or 0. *)
Theorem chosen_k_sanitised (v : number) :
  (chosen_k v = Infinity <-> v = Infinity) /\
  (v <> Infinity -> exists z, chosen_k v = Num (inject_Z z) /\ (1 <= z)%Z) /\
  (forall q, v = Num q -> (1 <= q)%Q -> chosen_k v = Num (inject_Z (Qfloor q))) /\
  (forall q, v = Num q -> (q < 1)%Q -> ~ (q == 0)%Q -> chosen_k v = Num 1) /\
  (forall q, v = Num q -> (q == 0)%Q -> chosen_k v = Num 3) /\
  (v = NegInfinity -> chosen_k v = Num 1) /\
  (v = NaN -> chosen_k v = Num 3).
Proof.
  assert (Hfin : forall q, ~ (q == 0)%Q ->
            chosen_k (Num q) =
            if Qle_bool 1 (inject_Z (Qfloor q)) then Num (inject_Z (Qfloor q))
            else Num 1).
  { intros q Hq. unfold chosen_k. cbn [or3].
    destruct (Qeq_bool q 0) eqn:E; [apply Qeq_bool_iff in E; done |].
    reflexivity. }
  assert (Hge : forall q, (1 <= q)%Q -> Qle_bool 1 (inject_Z (Qfloor q)) = true).
  { intros q Hq. apply Qle_bool_iff. change 1%Q with (inject_Z 1).
    rewrite <- Zle_Qle. change 1%Z with (Qfloor 1). by apply Qfloor_resp_le. }
  assert (Hlt : forall q, (q < 1)%Q -> Qle_bool 1 (inject_Z (Qfloor q)) = false).
  { intros q Hq. destruct (Qle_bool 1 (inject_Z (Qfloor q))) eqn:E; [| done].
    apply Qle_bool_iff in E. pose proof (Qfloor_le q). lra. }
  assert (Hzero : forall q, (q == 0)%Q -> chosen_k (Num q) = Num 3).
  { intros q Hq. unfold chosen_k. cbn [or3].
    apply Qeq_bool_iff in Hq. rewrite Hq. reflexivity. }
  split_and!.
  - split; [| intros ->; reflexivity].
    destruct v as [| | |q]; try done.
    destruct (Qeq_dec q 0) as [Hq|Hq]; [by rewrite Hzero |].
    rewrite (Hfin q Hq). by destruct (Qle_bool 1 (inject_Z (Qfloor q))).
  - intros Hv. destruct v as [| | |q]; try done.
    + exists 3%Z. split; [reflexivity | lia].
    + exists 1%Z. split; [reflexivity | lia].
    + destruct (Qeq_dec q 0) as [Hq|Hq];
        [exists 3%Z; split; [by rewrite Hzero | lia] |].
      rewrite (Hfin q Hq).
      destruct (Qle_bool 1 (inject_Z (Qfloor q))) eqn:E.
      * exists (Qfloor q). split; [reflexivity |].
        apply Qle_bool_iff in E. change 1%Q with (inject_Z 1) in E.
        by rewrite <- Zle_Qle in E.
      * exists 1%Z. split; [reflexivity | lia].
  - intros q -> Hq. rewrite Hfin by lra. by rewrite Hge.
  - intros q -> Hq Hne. rewrite (Hfin q Hne). by rewrite Hlt.
  - intros q -> Hq. by apply Hzero.
  - intros ->. reflexivity.
  - intros ->. reflexivity.
Qed.

(** The work of the cluster button, from the canvas bytes on, whatever
    the arithmetic, where [<] orders the computed distances from the pixels
    to the centroids that [kmeans] returns. *)
Lemma cluster_click_any (A : arith) (P : num A -> Prop)
    (cw ch : nat) (raw : list Z) (v : number) (k : nat) (draws : list Z) :
  orders A P ->
  (0 < cw)%nat -> (0 < ch)%nat -> length raw = (cw * ch * 4)%nat ->
  chosen_k v = Num (inject_Z (Z.of_nat k)) ->
  Forall (fun i => (0 <= i < Z.of_nat (cw * ch))%Z) draws ->
  (k <= size (list_to_set draws : gset Z))%nat ->
  (forall img points C,
     getImageDataFromCanvas A cw ch raw = Ret (Some img) ->
     buildPoints A img = Some points ->
     kmeans A draws points k 30 = Ret C ->
     forall p x j c, pixel A img p = Some x -> C !! j = Some c ->
       P (sqdist A x c)) ->
  exists img points C out,
    getImageDataFromCanvas A cw ch raw = Ret (Some img) /\
    buildPoints A img = Some points /\ length points = (cw * ch)%nat /\
    (forall p, (p < cw * ch)%nat -> points !! p = pixel A img p) /\
    kmeans A draws points k 30 = Ret C /\ length C = k /\
    applySegmentation A (Some img) C = Ret (Some out) /\
    length out = length raw /\
    forall p, (p < cw * ch)%nat -> painted A img C out p.
Proof.
  intros Hord Hw Hh Hraw Hk Hd Hcov HP.
  assert (Hkpos : (0 < k)%nat) by (apply chosen_k_finite in Hk; lia).
  destruct (getImageDataFromCanvas_any A cw ch raw Hw Hh Hraw)
    as (img & Himg & Hiw & Hih & Hpx & _).
  destruct (buildPoints_any A img) as (points & Hpts & Hlp & Hrow);
    [rewrite Hiw, Hih; exact Hpx |].
  rewrite Hiw, Hih in Hlp, Hrow.
  destruct (init_any_returns A points k draws ∅ []) as (C0 & Hinit & HC0);
    [set_solver | by rewrite size_empty | simpl; lia
    | by rewrite Hlp | by rewrite (left_id_L ∅ (∪)) |].
  destruct (lloyd_any A points k Hkpos 30 C0 (replicate (length points) 0%nat))
    as (r & Hr & HCr & _); [exact HC0 | apply length_replicate |].
  assert (Hkm : kmeans A draws points k 30 = Ret (centroids r)).
  { unfold kmeans, kmeans_run. rewrite Hinit. cbn [obind]. rewrite Hr. reflexivity. }
  destruct (applySegmentation_any A P img (centroids r)) as (out & Hseg & Hlo & Hall);
    [exact Hord | lia | lia | rewrite Hiw, Hih; exact Hpx
    | destruct (centroids r); [simpl in HCr; lia | done]
    | exact (HP img points (centroids r) Himg Hpts Hkm) |].
  rewrite Hiw, Hih in Hlo, Hall.
  exists img, points, (centroids r), out.
  split_and!; try done; [| lia].
  intros p Hp. by apply Hrow.
Qed.

End CoreImaging.

Section CleanClaims.

Import Pipeline Arith Core Doubles SpecFloat.

(** X27.  In double precision, points whose channels are neither [NaN]
    nor negative, fewer than [2^53] of them, give centroids whose channels
    are neither [NaN] nor negative: a returned centroid is one of the
    points or a computed mean of some of them. *)
Theorem kmeans64_centroids_clean (draws : list Z) (X : list (triple binary64))
    (k maxIter : nat) (C : list (triple binary64)) :
  (0 < k)%nat -> (Z.of_nat (length X) < 2 ^ 53)%Z -> Forall clean3 X ->
  kmeans binary64 draws X k maxIter = Ret C ->
  Forall clean3 C /\
  Forall (fun c => PrimFloat.is_nan (c0 c) = false /\
                   PrimFloat.is_nan (c1 c) = false /\
                   PrimFloat.is_nan (c2 c) = false) C.
Proof.
  intros Hk Hlt HX HC.
  pose proof (kmeans64_clean draws X k maxIter C Hk Hlt HX HC) as Hclean.
  split; [exact Hclean |].
  eapply Forall_impl; [exact Hclean |].
  intros c (H0 & H1 & H2). split_and!; by apply clean_not_nan.
Qed.

Lemma kmeans64_centroids_clean_witness :
  Forall clean3 [grey (ratio 1 3); colour 0 0 0] /\
  Forall (fun c => PrimFloat.is_nan (c0 c) = false /\
                   PrimFloat.is_nan (c1 c) = false /\
                   PrimFloat.is_nan (c2 c) = false)
         [grey (ratio 1 3); colour 0 0 0].
Proof.
  apply (kmeans64_centroids_clean [0; 1]%Z
           [colour 0 0 0; colour 0 0 0; colour 255 255 255] 2 30).
  - lia.
  - cbn. lia.
  - repeat (apply Forall_cons; split;
            [split_and!; apply cleanb_clean; vm_compute; reflexivity |]).
    constructor.
  - vm_compute. reflexivity.
Defined.

(** X17.  The work of the cluster button in double precision, from the
    canvas bytes on: on the [w*h*4] bytes of a canvas of at least one and
    fewer than [2^53] pixels, a finite cluster count [k] of the handler and
    random indices of which [k] are distinct, [getImageDataFromCanvas],
    [buildPoints], [kmeans] with 30 iterations and [applySegmentation] all
    complete; [kmeans] gets one point per pixel, in row-major order, and
    returns [k] centroids without [NaN]; and every pixel of the segmented
    buffer, as large as the input, is painted with the levels of the
    centroid of least computed distance, the lowest index among equal
    computed distances. *)
Theorem cluster_click_segments_image (cw ch : nat) (raw : list Z)
    (v : number) (k : nat) (draws : list Z) :
  (0 < cw)%nat -> (0 < ch)%nat -> (Z.of_nat (cw * ch) < 2 ^ 53)%Z ->
  length raw = (cw * ch * 4)%nat -> Forall (fun z => (0 <= z <= 255)%Z) raw ->
  chosen_k v = Num (inject_Z (Z.of_nat k)) ->
  Forall (fun i => (0 <= i < Z.of_nat (cw * ch))%Z) draws ->
  (k <= size (list_to_set draws : gset Z))%nat ->
  exists img points C out,
    getImageDataFromCanvas binary64 cw ch raw = Ret (Some img) /\
    buildPoints binary64 img = Some points /\ length points = (cw * ch)%nat /\
    (forall p, (p < cw * ch)%nat -> points !! p = pixel binary64 img p) /\
    kmeans binary64 draws points k 30 = Ret C /\ length C = k /\
    Forall clean3 C /\
    applySegmentation binary64 (Some img) C = Ret (Some out) /\
    length out = length raw /\
    forall p, (p < cw * ch)%nat -> painted64 img C out p.
Proof.
  intros Hw Hh Hsize Hraw Hbytes Hk Hd Hcov.
  assert (Hkpos : (0 < k)%nat) by (apply chosen_k_finite in Hk; lia).
  assert (Hclean : forall img points C,
            getImageDataFromCanvas binary64 cw ch raw = Ret (Some img) ->
            buildPoints binary64 img = Some points ->
            kmeans binary64 draws points k 30 = Ret C ->
            Forall (fun v => finite64 v = true /\ clean v) (pixels img) /\
            Forall clean3 C).
  { intros img points C Himg Hpts HC.
    pose proof (image64_pixels cw ch raw img Hw Hh Hraw Hbytes Himg) as Hpx.
    split; [exact Hpx |].
    destruct (getImageDataFromCanvas_any binary64 cw ch raw Hw Hh Hraw)
      as (img' & Himg' & Hiw & Hih & Hlen & _).
    rewrite Himg in Himg'. injection Himg' as <-.
    destruct (buildPoints_any binary64 img) as (pts & Hpts' & Hlp & Hrow);
      [rewrite Hiw, Hih; exact Hlen |].
    rewrite Hpts in Hpts'. injection Hpts' as <-.
    rewrite Hiw, Hih in Hlp, Hrow.
    apply (kmeans64_clean draws points k 30 C Hkpos); [by rewrite Hlp | | exact HC].
    apply Forall_lookup. intros p x Hp.
    assert (Hpl : (p < cw * ch)%nat) by (apply lookup_lt_Some in Hp; lia).
    destruct (Hrow p Hpl) as [_ Hpix]. rewrite Hp in Hpix. symmetry in Hpix.
    apply (pixel_channels (fun v => finite64 v = true /\ clean v) img p x Hpx)
      in Hpix as ((_ & H0) & (_ & H1) & (_ & H2)).
    by split_and!. }
  destruct (cluster_click_any binary64 (fun x => PrimFloat.is_nan x = false)
              cw ch raw v k draws orders_binary64 Hw Hh Hraw Hk Hd Hcov)
    as (img & points & C & out & Himg & Hpts & Hlp & Hrow & HC & HCk & Hseg
        & Hlo & Hall).
  - intros img points C Himg Hpts HC p x j c Hx Hc.
    destruct (Hclean img points C Himg Hpts HC) as [Hpx HCl].
    apply (pixel_channels _ img p x Hpx) in Hx as ((H0 & _) & (H1 & _) & (H2 & _)).
    pose proof (Forall_lookup_1 _ _ _ _ HCl Hc) as (Hc0 & Hc1 & Hc2).
    apply sqdist64_not_nan; (done || by apply clean_not_nan).
  - exists img, points, C, out.
    destruct (Hclean img points C Himg Hpts HC) as [_ HCl].
    split_and!; try done.
Qed.

Lemma cluster_click_segments_image_witness :
  exists img points C out,
    getImageDataFromCanvas binary64 2 1 [0; 0; 0; 255; 255; 255; 230; 255]%Z
      = Ret (Some img) /\
    buildPoints binary64 img = Some points /\ length points = (2 * 1)%nat /\
    (forall p, (p < 2 * 1)%nat -> points !! p = pixel binary64 img p) /\
    kmeans binary64 [0; 1]%Z points 2 30 = Ret C /\ length C = 2%nat /\
    Forall clean3 C /\
    applySegmentation binary64 (Some img) C = Ret (Some out) /\
    length out = length [0; 0; 0; 255; 255; 255; 230; 255]%Z /\
    forall p, (p < 2 * 1)%nat -> painted64 img C out p.
Proof.
  apply (cluster_click_segments_image 2 1
           [0; 0; 0; 255; 255; 255; 230; 255]%Z (Num 2) 2 [0; 1]%Z).
  - lia.
  - lia.
  - cbn. lia.
  - reflexivity.
  - repeat (apply Forall_cons; split; [lia |]). constructor.
  - reflexivity.
  - repeat (apply Forall_cons; split; [cbn; lia |]). constructor.
  - vm_compute. lia.
Defined.

End CleanClaims.

Section ZoomFloat.

Import Arith Doubles Zoom64 SpecFloat.

Lemma not_negative_cases (x : PrimFloat.float) :
  not_negative x <->
  match FloatOps.Prim2SF x with
  | S754_finite true _ _ | S754_infinity true => False
  | _ => True
  end.
Proof.
  unfold not_negative. rewrite FloatAxioms.ltb_spec.
  change (FloatOps.Prim2SF PrimFloat.zero) with (S754_zero false).
  destruct (FloatOps.Prim2SF x) as [s|s| |s m e]; try destruct s; cbn;
    intuition discriminate.
Qed.

(** Rounding keeps the sign it is given. *)
Lemma round_sign (prec emax : Z) (mx ex : Z) (lx : location) :
  match binary_round_aux prec emax false mx ex lx with
  | S754_finite true _ _ | S754_infinity true => False
  | _ => True
  end.
Proof.
  unfold binary_round_aux.
  destruct (shr_fexp prec emax mx ex lx) as [mrs' e'].
  destruct (shr_fexp prec emax _ e' loc_Exact) as [mrs'' e''].
  destruct (shr_m mrs''); [exact I | | exact I].
  by destruct (Z.leb e'' (emax - prec)).
Qed.

(** In binary64 the product of two numbers that are not negative is not
    negative. *)
Lemma mul_not_negative (x y : PrimFloat.float) :
  not_negative x -> not_negative y -> not_negative (PrimFloat.mul x y).
Proof.
  rewrite !not_negative_cases, FloatAxioms.mul_spec.
  unfold FloatAxioms.SF64mul, SFmul.
  destruct (FloatOps.Prim2SF x) as [sx|sx| |sx mx ex];
    destruct (FloatOps.Prim2SF y) as [sy|sy| |sy my ey];
    try destruct sx; try destruct sy; cbn [xorb]; try done.
  intros _ _. apply round_sign.
Qed.

(** In binary64 the quotient of a number that is not negative by a
    positive number is not negative. *)
Lemma div_not_negative (x y : PrimFloat.float) :
  not_negative x -> positive y -> not_negative (PrimFloat.div x y).
Proof.
  unfold positive.
  rewrite !not_negative_cases, FloatAxioms.div_spec, FloatAxioms.ltb_spec.
  change (FloatOps.Prim2SF PrimFloat.zero) with (S754_zero false).
  unfold FloatAxioms.SF64div, SFdiv, SFltb.
  destruct (FloatOps.Prim2SF x) as [sx|sx| |sx mx ex];
    destruct (FloatOps.Prim2SF y) as [sy|sy| |sy my ey];
    try destruct sx; try destruct sy; cbn [xorb SFcompare]; try done.
  intros _ _.
  destruct (SFdiv_core_binary _ _ _ _ _ _) as [[mz ez] lz]. apply round_sign.
Qed.

(** X24.  The zoom in binary64, the arithmetic of the listeners: from a
    zoom that is not negative, updates whose factors are not negative
    leave, after each of them, a zoom that is not negative; the factor of
    a pinch is not negative when the distance is not negative and the
    cached distance is positive. *)
Theorem zoom64_never_negative (zoomVal : PrimFloat.float) (us : list update) :
  not_negative zoomVal ->
  Forall (fun u => match u with
                   | WheelBy deltaY => not_negative (wheel_by deltaY)
                   | PinchBy dist last => not_negative dist /\ positive last
                   end) us ->
  forall n : nat, not_negative (zoom_updates zoomVal (take n us)).
Proof.
  intros Hz Hus n. revert zoomVal Hz n.
  induction Hus as [|u us Hu _ IH]; intros z Hz n.
  - by rewrite take_nil.
  - destruct n as [|n]; [exact Hz |].
    cbn [take zoom_updates fold_left]. apply IH.
    unfold zoom_update. apply mul_not_negative; [exact Hz |].
    destruct u as [dy|dist last]; [exact Hu |].
    destruct Hu as [Hd Hl]. by apply div_not_negative.
Qed.

Lemma zoom64_never_negative_witness :
  not_negative
    (zoom_updates (ratio 12 10)
       (take 3 [WheelBy (b64_of_int 999); PinchBy (b64_of_int 3) (b64_of_int 5);
                WheelBy (b64_of_int (-120))])).
Proof.
  apply (zoom64_never_negative (ratio 12 10)
           [WheelBy (b64_of_int 999); PinchBy (b64_of_int 3) (b64_of_int 5);
            WheelBy (b64_of_int (-120))]).
  - vm_compute. reflexivity.
  - repeat (apply Forall_cons; split; [vm_compute; tauto |]). constructor.
Defined.

(** In binary64 as over the reals, one wheel event with [deltaY = 2000]
    takes the zoom from 1.2 to a negative number, -1.2. *)
Lemma wheel64_drives_zoom_negative :
  PrimFloat.ltb (zoom_updates (ratio 12 10) [WheelBy (b64_of_int 2000)])
                PrimFloat.zero = true /\
  zoom_updates (ratio 12 10) [WheelBy (b64_of_int 2000)]
    = PrimFloat.opp (ratio 12 10).
Proof. split; vm_compute; reflexivity. Qed.

(** X25.  The zoom in binary64 does reach 0: from 1.2, wheel events of
    [deltaY = 999] each multiply by a positive factor, the zoom is still
    positive after 107 of them, and exactly 0 after the 108th, where it
    stays. *)
Theorem zoom64_underflows :
  positive (wheel_by (b64_of_int 999)) /\
  positive (zoom_updates (ratio 12 10) (replicate 107 (WheelBy (b64_of_int 999)))) /\
  zoom_updates (ratio 12 10) (replicate 108 (WheelBy (b64_of_int 999)))
    = PrimFloat.zero /\
  forall n : nat,
    zoom_updates PrimFloat.zero (replicate n (WheelBy (b64_of_int 999)))
      = PrimFloat.zero.
Proof.
  split_and!; try (vm_compute; reflexivity).
  induction n as [|n IH]; [reflexivity |].
  cbn [replicate zoom_updates fold_left].
  replace (zoom_update PrimFloat.zero (WheelBy (b64_of_int 999)))
    with PrimFloat.zero by (vm_compute; reflexivity).
  exact IH.
Qed.

End ZoomFloat.

Section Agreement.

Import Cluster Arith Exact.

Lemma index_fmap {S T : Type} (f : S -> T) (l : list S) (i : Z) :
  index (f <$> l) i = f <$> index l i.
Proof. unfold index. destruct (i <? 0)%Z; [done | apply list_lookup_fmap]. Qed.

Lemma init_agrees (X : list rgb) (k : nat) (draws : list Q) :
  forall (used : gset Z) (C : list rgb),
    Core.init exact (of_rgb <$> X) k (rng (length X) <$> draws) used (of_rgb <$> C)
    = outcome_map (fmap of_rgb) (init X k draws used C).
Proof.
  induction draws as [|u rest IH]; intros used C; cbn [fmap list_fmap Core.init init];
    rewrite length_fmap;
    (destruct (decide (length C < k)%nat); [| reflexivity]); [reflexivity |].
  destruct (decide (rng (length X) u ∈ used)); [apply IH |].
  rewrite index_fmap. destruct (index X (rng (length X) u)) as [x|]; [| reflexivity].
  cbn [fmap option_fmap option_map]. rewrite <- IH. by rewrite fmap_app.
Qed.

Lemma scan_agrees (x : rgb) (C : list rgb) :
  forall (steps j best : nat) (bestd : Q),
    Core.scan exact (of_rgb x) (of_rgb <$> C) steps j best bestd
    = scan x C steps j best bestd.
Proof.
  induction steps as [|s IH]; intros j best bestd; [reflexivity |].
  cbn [Core.scan scan]. rewrite list_lookup_fmap.
  destruct (C !! j) as [c|]; [| reflexivity]. cbn [fmap option_fmap option_map].
  change (Core.dist2 exact (of_rgb x) (of_rgb c)) with (dist2 x c).
  change (lt exact) with Qltb.
  destruct (Qltb (dist2 x c) bestd); apply IH.
Qed.

Lemma nearest_agrees (x : rgb) (C : list rgb) (k : nat) :
  Core.nearest exact (of_rgb x) (of_rgb <$> C) k = nearest x C k.
Proof.
  unfold Core.nearest, nearest. rewrite list_lookup_fmap.
  destruct (C !! 0%nat) as [c|]; [| reflexivity]. apply scan_agrees.
Qed.

Lemma assign_agrees (C : list rgb) (k : nat) (xs : list rgb) :
  forall (i : nat) (lbl : list nat) (ch : bool),
    Core.assign exact (of_rgb <$> C) k (of_rgb <$> xs) i lbl ch
    = assign C k xs i lbl ch.
Proof.
  induction xs as [|x xs IH]; intros i lbl ch; [reflexivity |].
  cbn [fmap list_fmap Core.assign assign]. rewrite nearest_agrees.
  destruct (nearest x C k) as [b| |]; try reflexivity. cbn [obind].
  destruct (decide (lbl !! i = Some b)); apply IH.
Qed.

Lemma accumulate_agrees (xs : list rgb) (lbl : list nat) :
  forall (i : nat) (sums : list rgb) (counts : list nat),
    Core.accumulate exact (of_rgb <$> xs) i lbl (of_rgb <$> sums) counts
    = outcome_map (fun sc => (of_rgb <$> sc.1, sc.2)) (accumulate xs i lbl sums counts).
Proof.
  induction xs as [|x xs IH]; intros i sums counts; [reflexivity |].
  cbn [fmap list_fmap Core.accumulate accumulate].
  destruct (lbl !! i) as [l|]; [| reflexivity]. rewrite list_lookup_fmap.
  destruct (sums !! l) as [s|]; [| reflexivity].
  cbn [fmap option_fmap option_map]. rewrite <- IH. by rewrite list_fmap_insert.
Qed.

Lemma recompute_agrees (sums : list rgb) (counts : list nat) :
  forall (steps j : nat) (C : list rgb),
    Core.recompute exact steps j (of_rgb <$> sums) counts (of_rgb <$> C)
    = outcome_map (fmap of_rgb) (recompute steps j sums counts C).
Proof.
  induction steps as [|s IH]; intros j C; [reflexivity |].
  cbn [Core.recompute recompute].
  destruct (counts !! j) as [[|cnt]|]; [apply IH | | reflexivity].
  rewrite !list_lookup_fmap.
  destruct (sums !! j) as [sm|]; [| reflexivity].
  destruct (C !! j) as [c|]; [| reflexivity].
  cbn [fmap option_fmap option_map]. rewrite <- IH. by rewrite list_fmap_insert.
Qed.

Lemma update_agrees (X : list rgb) (k : nat) (lbl : list nat) (C : list rgb) :
  Core.update exact (of_rgb <$> X) k lbl (of_rgb <$> C)
  = outcome_map (fmap of_rgb) (update X k lbl C).
Proof.
  unfold Core.update, update.
  assert (H : Core.accumulate exact (of_rgb <$> X) 0 lbl
                (replicate k (Core.Triple (zero exact) (zero exact) (zero exact)))
                (replicate k 0%nat)
              = outcome_map (fun sc => (of_rgb <$> sc.1, sc.2))
                  (accumulate X 0 lbl (replicate k zero3) (replicate k 0%nat))).
  { rewrite <- accumulate_agrees. by rewrite fmap_replicate. }
  rewrite H.
  destruct (accumulate X 0 lbl (replicate k zero3) (replicate k 0%nat))
    as [[sums counts]| |]; try reflexivity.
  cbn [outcome_map obind fst snd]. apply recompute_agrees.
Qed.

Lemma lloyd_agrees (X : list rgb) (k : nat) :
  forall (iters : nat) (C : list rgb) (lbl : list nat),
    Core.lloyd exact (of_rgb <$> X) k iters (of_rgb <$> C) lbl
    = outcome_map of_run (lloyd X k iters C lbl).
Proof.
  induction iters as [|m IH]; intros C lbl; [reflexivity |].
  cbn [Core.lloyd lloyd]. rewrite assign_agrees.
  destruct (assign C k X 0 lbl false) as [[lbl' ch]| |]; try reflexivity.
  cbn [obind]. rewrite update_agrees.
  destruct (update X k lbl' C) as [C'| |]; try reflexivity.
  cbn [outcome_map obind]. destruct ch; [apply IH | reflexivity].
Qed.

(** The code over the exact arithmetic is the code over the rationals:
    the same run, on the same random values. *)
Lemma kmeans_run_agrees (draws : list Q) (X : list rgb) (k maxIter : nat) :
  Core.kmeans_run exact (rng (length X) <$> draws) (of_rgb <$> X) k maxIter
  = outcome_map of_run (kmeans_run draws X k maxIter).
Proof.
  unfold Core.kmeans_run, kmeans_run.
  assert (H : Core.init exact (of_rgb <$> X) k (rng (length X) <$> draws) ∅ []
              = outcome_map (fmap of_rgb) (init X k draws ∅ []))
    by exact (init_agrees X k draws ∅ []).
  rewrite H. destruct (init X k draws ∅ []) as [C| |]; try reflexivity.
  cbn [outcome_map obind]. rewrite length_fmap. apply lloyd_agrees.
Qed.

Lemma kmeans_agrees (draws : list Q) (X : list rgb) (k maxIter : nat) :
  Core.kmeans exact (rng (length X) <$> draws) (of_rgb <$> X) k maxIter
  = outcome_map (fmap of_rgb) (kmeans draws X k maxIter).
Proof.
  unfold Core.kmeans, kmeans. rewrite kmeans_run_agrees.
  by destruct (kmeans_run draws X k maxIter).
Qed.

Lemma read3_agrees (px : list Q) (i : nat) :
  Core.read3 exact px i = of_rgb <$> Segment.read3 px i.
Proof.
  unfold Core.read3, Segment.read3.
  change (@lookup nat (num exact) (list (num exact)) _) with (@lookup nat Q (list Q) _).
  destruct (px !! i); [| reflexivity].
  destruct (px !! (i + 1)%nat); [| reflexivity].
  destruct (px !! (i + 2)%nat); reflexivity.
Qed.

Lemma push_row_agrees (px : list Q) (cw y : nat) (xs : list nat) :
  forall points : list rgb,
    Core.push_row exact px cw y xs (of_rgb <$> points)
    = fmap (M:=list) of_rgb <$> Pipeline.push_row px cw y xs points.
Proof.
  induction xs as [|x rest IH]; intros points; [reflexivity |].
  cbn [Core.push_row Pipeline.push_row]. rewrite read3_agrees.
  destruct (Segment.read3 px ((y * cw + x) * 3)) as [p|]; [| reflexivity].
  cbn [fmap option_fmap option_map mbind option_bind].
  rewrite <- IH. by rewrite fmap_app.
Qed.

Lemma push_rows_agrees (px : list Q) (cw : nat) (ys : list nat) :
  forall points : list rgb,
    Core.push_rows exact px cw ys (of_rgb <$> points)
    = fmap (M:=list) of_rgb <$> Pipeline.push_rows px cw ys points.
Proof.
  induction ys as [|y rest IH]; intros points; [reflexivity |].
  cbn [Core.push_rows Pipeline.push_rows]. rewrite push_row_agrees.
  destruct (Pipeline.push_row px cw y (seq 0 cw) points) as [p1|]; [| reflexivity].
  cbn [fmap option_fmap option_map mbind option_bind]. apply IH.
Qed.

(** Likewise for [buildPoints] and the byte of a channel. *)
Lemma buildPoints_agrees (img : Segment.ImgData) :
  Core.buildPoints exact (of_img img) = fmap (M:=list) of_rgb <$> Pipeline.buildPoints img.
Proof.
  unfold Core.buildPoints, Pipeline.buildPoints, of_img.
  cbn [Core.pixels Core.w Core.h].
  exact (push_rows_agrees (Segment.pixels img) (Segment.w img)
           (seq 0 (Segment.h img)) []).
Qed.

Lemma quantize_agrees (c : Q) : Core.quantize exact c = Segment.quantize c.
Proof. reflexivity. Qed.

End Agreement.
